(** * lerobot-go: calibration model, calibration recorder and teleoperation
    controller, embedded from the Go sources.

  - [robot]  : pkg/robot (motor names, [MotorCalibration], [Normalize],
               [Denormalize], the arm and its bus handle).
  - [setup]  : the interactive range recorder ([calibrateArm] and the
               bubbletea model [calibrationModel]).
  - [teleop] : the controller ([NewController], [Start], [step],
               [sendState], [shutdown], [Close]).
  - [calib]  : calibration maps ([MotorIDs], [ByID]), the conversion loops
               of [ReadPositions] and [WritePositions], [IsCalibrated] and
               [calibrateArm].
  - [scan]   : the setup command's discovery of the arms ([isSOArm],
               [findArms], [identifyArmWithWiggle], [scanForArms]).
  - [tui]    : the terminal interface of the teleoperate command
               ([addLog], [hasMovement], [chartSize], [Update]).

  Go's [int] is the 64-bit two's-complement integer, written as [Z] with the
  wrap-around spelled out; [float64] is the kernel's binary64 [float]. *)

From Stdlib Require Import ZArith Lia Bool List Floats Uint63 Reals Lra.
From stdpp Require Import gmap strings list.

Local Open Scope Z_scope.
Set Warnings "-clear-no-such-hyp".

(* ===================================================================== *)
(** * Package robot                                                       *)
(* ===================================================================== *)

Module robot.

(** [type MotorName string] *)
Abbreviation MotorName := string (only parsing).

Definition ShoulderPan  : MotorName := "shoulder_pan".
Definition ShoulderLift : MotorName := "shoulder_lift".
Definition ElbowFlex    : MotorName := "elbow_flex".
Definition WristFlex    : MotorName := "wrist_flex".
Definition WristRoll    : MotorName := "wrist_roll".
Definition Gripper      : MotorName := "gripper".

(** [AllMotors()]: all motor names in order (matching servo IDs 1-6). *)
Definition AllMotors : list MotorName :=
  [ShoulderPan; ShoulderLift; ElbowFlex; WristFlex; WristRoll; Gripper].

(** [type MotorCalibration struct] *)
Record MotorCalibration := {
  ID           : Z;
  DriveMode    : Z;
  HomingOffset : Z;
  RangeMin     : Z;
  RangeMax     : Z
}.

(** ** Go's [int] and [float64] *)

Definition int_min : Z := - 2 ^ 63.
Definition int_max : Z := 2 ^ 63 - 1.

(** The values of type [int]. *)
Definition is_int (z : Z) : Prop := int_min <= z <= int_max.

(** Two's-complement wrap-around of [+] and [-] on [int]. *)
Definition wrap (z : Z) : Z := (z + 2 ^ 63) mod 2 ^ 64 - 2 ^ 63.

(** The conversion [float64(z)] of an [int]: the nearest binary64 value,
    ties to even.  [of_uint63] rounds that way on [0 .. 2^63 - 1]. *)
Definition float64_of_int (z : Z) : float :=
  if z =? int_min then (-0x1p63)%float
  else if 0 <=? z then of_uint63 (Uint63.of_Z z)
  else (- of_uint63 (Uint63.of_Z (- z)))%float.

(** The integer part of a finite float, fraction discarded. *)
Definition trunc_finite (s : bool) (m : positive) (e : Z) : Z :=
  cond_Zopp s match e with
              | Z0 => Zpos m
              | Zpos _ => Zpos m * 2 ^ e
              | Zneg p => Z.shiftr (Zpos m) (Zpos p)
              end.

(** The conversion [int(f)] of a [float64]: truncation toward zero.  Go
    leaves the result open when the value is no [int] (NaN, infinities, out
    of range): [None]. *)
Definition int_of_float64 (f : float) : option Z :=
  match Prim2SF f with
  | S754_zero _ => Some 0
  | S754_finite s m e =>
      let t := trunc_finite s m e in
      if (int_min <=? t) && (t <=? int_max) then Some t else None
  | _ => None
  end.

(** ** calibration.go *)

(** [func (c MotorCalibration) Normalize(raw int) float64], each operation
    rounded on its own. *)
Definition Normalize (c : MotorCalibration) (raw : Z) : float :=
  let rangeSize := float64_of_int (wrap (RangeMax c - RangeMin c)) in
  if (rangeSize =? 0)%float then 0%float
  else (float64_of_int (wrap (raw - RangeMin c)) / rangeSize * 200 - 100)%float.

(** The operand of [int(...)] in [Denormalize]. *)
Definition scaled_offset (c : MotorCalibration) (norm : float) : float :=
  let rangeSize := float64_of_int (wrap (RangeMax c - RangeMin c)) in
  ((norm + 100) / 200 * rangeSize)%float.

(** [func (c MotorCalibration) Denormalize(norm float64) int] *)
Definition Denormalize (c : MotorCalibration) (norm : float) : option Z :=
  match int_of_float64 (scaled_offset c norm) with
  | Some t => Some (wrap (t + RangeMin c))
  | None => None
  end.

(** The integer part of [x + z] for a finite float [x] and an integer [z],
    the sum taken exactly. *)
Definition trunc_sum (x : spec_float) (z : Z) : option Z :=
  match x with
  | S754_zero _ => Some z
  | S754_finite s m e =>
      Some match e with
           | Z0 => cond_Zopp s (Zpos m) + z
           | Zpos _ => cond_Zopp s (Zpos m * 2 ^ e) + z
           | Zneg p => Z.quot (cond_Zopp s (Zpos m) + z * 2 ^ Zpos p) (2 ^ Zpos p)
           end
  | _ => None
  end.

(** [Denormalize] as the specification words it: the value of
    [((norm + 100) / 200) * (rangeMax - rangeMin) + rangeMin], truncated to
    an integer. *)
Definition Denormalize_spec (c : MotorCalibration) (norm : float) : option Z :=
  trunc_sum (Prim2SF (scaled_offset c norm)) (RangeMin c).

(** ** The values floats stand for

    The rounding of one binary64 operation is followed on the rationals
    and on the reals. *)

(** The record [st] stands for the rational [a / b]: its mantissa is the
    integer part, its two bits place the remainder against [b / 2]. *)
Definition Rep (st : shr_record) (a b : Z) : Prop :=
  0 <= a /\ 0 < b /\ shr_m st = a / b /\
  match shr_r st, shr_s st with
  | false, false => a mod b = 0
  | false, true => 0 < 2 * (a mod b) < b
  | true, false => 2 * (a mod b) = b
  | true, true => b < 2 * (a mod b)
  end.

(** Powers of two with an integer exponent. *)
Definition pow2 (e : Z) : R := powerRZ 2 e.

(** The real number a float stands for (0 for NaN and the infinities). *)
Definition F2R (x : spec_float) : R :=
  match x with
  | S754_finite s m e => ((if s then -1 else 1) * IZR (Zpos m) * pow2 e)%R
  | _ => 0%R
  end.

(** The unit roundoff of binary64. *)
Definition u64 : R := pow2 (-53).

(** The sign bit as a factor. *)
Definition sgn (s : bool) : R := if s then (-1)%R else 1%R.

(** A finite float with a full 53-digit mantissa and its exponent in
    [lo .. hi]. *)
Definition normal (x : spec_float) (lo hi : Z) : Prop :=
  exists s m e, x = S754_finite s m e /\ Zpos (digits2_pos m) = 53 /\ lo <= e <= hi.

(** A calibration with the given range. *)
Definition cal (lo hi : Z) : MotorCalibration :=
  {| ID := 1; DriveMode := 0; HomingOffset := 0; RangeMin := lo; RangeMax := hi |}.

End robot.

(* ===================================================================== *)
(** * The calibration recorder (command [setup])                          *)
(* ===================================================================== *)

Module setup.
Import robot.

(** What [servo.Position(ctx)] returns: Go's pair [(pos, err)]. *)
Record PositionResult := { pos : Z; err : option string }.

(** One poll of the bus: the answer of the servo with the given ID. *)
Definition Poll := Z -> PositionResult.

(** Bus traffic issued by [calibrateArm] before the recorder starts. *)
Inductive HwEvent :=
| HwDisable (servoID : Z)
| HwPosition (servoID : Z).

(** Indexing a Go [map[MotorName]int]: the zero value when the key is
    absent. *)
Definition get (m : gmap string Z) (k : MotorName) : Z := default 0 (m !! k).

(** [type calibrationModel struct]; [servoMap] is the hardware, which the
    model reaches through the [Poll] carried by each tick. *)
Record calibrationModel := {
  motors       : list MotorName;
  curPositions : gmap string Z;
  minPositions : gmap string Z;
  maxPositions : gmap string Z;
  quitting     : bool
}.

(** [calibrateArm], "Initialize tracking maps":
    [for i, motorName := range motors { servoID := i + 1; pos, _ := ... }].
    The error of the read is discarded; [pos] is used as returned. *)
Fixpoint seed_loop (p : Poll) (i : Z) (ms : list MotorName)
    (cur mn mx : gmap string Z) : gmap string Z * gmap string Z * gmap string Z :=
  match ms with
  | [] => (cur, mn, mx)
  | motorName :: rest =>
      let servoID := i + 1 in
      let v := pos (p servoID) in
      seed_loop p (i + 1) rest
        (<[motorName := v]> cur) (<[motorName := v]> mn) (<[motorName := v]> mx)
  end.

Definition newCalibrationModel (ms : list MotorName)
    (cur mn mx : gmap string Z) : calibrationModel :=
  {| motors := ms; curPositions := cur; minPositions := mn;
     maxPositions := mx; quitting := false |}.

(** [calibrateArm] up to the start of the recorder: every servo of
    [servoMap] is disabled (in the map's iteration order [order]), then the
    six motors are read once, in [AllMotors] order, to seed the maps. *)
Definition calibrateArm_init (order : list Z) (p0 : Poll)
    : list HwEvent * calibrationModel :=
  let ms := AllMotors in
  let '(cur, mn, mx) := seed_loop p0 0 ms ∅ ∅ ∅ in
  (map HwDisable order ++ map (fun i => HwPosition (Z.of_nat i + 1)) (seq 0 (length ms)),
   newCalibrationModel ms cur mn mx).

(** [tea.Msg] and [tea.Cmd] as far as [Update] distinguishes them. *)
Inductive Msg :=
| KeyMsg (key : string)
| tickMsg (p : Poll)
| OtherMsg.

Inductive Cmd := CmdNone | CmdQuit | CmdTick.

(** The body of the [tickMsg] case of [Update]. *)
Fixpoint tick_loop (p : Poll) (i : Z) (ms : list MotorName)
    (cur mn mx : gmap string Z) : gmap string Z * gmap string Z * gmap string Z :=
  match ms with
  | [] => (cur, mn, mx)
  | motorName :: rest =>
      let servoID := i + 1 in
      let r := p servoID in
      match err r with
      | Some _ => tick_loop p (i + 1) rest cur mn mx
      | None =>
          let v := pos r in
          let cur' := <[motorName := v]> cur in
          let mn' := if v <? get mn motorName then <[motorName := v]> mn else mn in
          let mx' := if v >? get mx motorName then <[motorName := v]> mx else mx in
          tick_loop p (i + 1) rest cur' mn' mx'
      end
  end.

Definition is_quit_key (key : string) : bool :=
  bool_decide (key = "enter" ∨ key = "q" ∨ key = "ctrl+c").

(** [func (m calibrationModel) Update(msg tea.Msg) (tea.Model, tea.Cmd)] *)
Definition Update (m : calibrationModel) (msg : Msg) : calibrationModel * Cmd :=
  match msg with
  | KeyMsg key =>
      if is_quit_key key then
        ({| motors := motors m; curPositions := curPositions m;
            minPositions := minPositions m; maxPositions := maxPositions m;
            quitting := true |}, CmdQuit)
      else (m, CmdNone)
  | tickMsg p =>
      let '(cur, mn, mx) :=
        tick_loop p 0 (motors m) (curPositions m) (minPositions m) (maxPositions m) in
      ({| motors := motors m; curPositions := cur; minPositions := mn;
          maxPositions := mx; quitting := quitting m |}, CmdTick)
  | OtherMsg => (m, CmdNone)
  end.

(** The bubbletea program: messages are fed to [Update] until it answers
    [tea.Quit]; the model it returns then is the final model. *)
Fixpoint run (m : calibrationModel) (msgs : list Msg) : calibrationModel :=
  match msgs with
  | [] => m
  | msg :: rest =>
      let '(m', c) := Update m msg in
      match c with
      | CmdQuit => m'
      | _ => run m' rest
      end
  end.

(** [calibrateArm], "Build calibration": servo IDs are the 1-based positions
    in [motors]. *)
Fixpoint build_calibration (i : Z) (ms : list MotorName) (m : calibrationModel)
    (acc : gmap string MotorCalibration) : gmap string MotorCalibration :=
  match ms with
  | [] => acc
  | motorName :: rest =>
      let servoID := i + 1 in
      build_calibration (i + 1) rest m
        (<[motorName := {| ID := servoID; DriveMode := 0; HomingOffset := 0;
                           RangeMin := get (minPositions m) motorName;
                           RangeMax := get (maxPositions m) motorName |}]> acc)
  end.

(** The samples the recorder has taken of servo [servoID]: the successful
    reads among the ticks processed before the program quits. *)
Fixpoint samples (servoID : Z) (msgs : list Msg) : list Z :=
  match msgs with
  | [] => []
  | KeyMsg key :: rest => if is_quit_key key then [] else samples servoID rest
  | tickMsg p :: rest =>
      match err (p servoID) with
      | Some _ => samples servoID rest
      | None => pos (p servoID) :: samples servoID rest
      end
  | OtherMsg :: rest => samples servoID rest
  end.

(** What the recorder holds for one motor: (current, min, max). *)
Definition view (cur mn mx : gmap string Z) (name : string) : Z * Z * Z :=
  (get cur name, get mn name, get mx name).

Definition model_view (m : calibrationModel) (name : string) : Z * Z * Z :=
  view (curPositions m) (minPositions m) (maxPositions m) name.

(** The effect of one successful sample on a motor's triple. *)
Definition widen (t : Z * Z * Z) (v : Z) : Z * Z * Z :=
  let '(_, a, b) := t in (v, Z.min a v, Z.max b v).

Definition poll1 (r : PositionResult) (t : Z * Z * Z) : Z * Z * Z :=
  match err r with
  | Some _ => t
  | None => widen t (pos r)
  end.

End setup.

(* ===================================================================== *)
(** * The outside world: serial buses, servos, the wall clock              *)
(* ===================================================================== *)

Module world.

(** Go [error] values, by their message. *)
Abbreviation error := string (only parsing).

(** [time.Time] instants. *)
Abbreviation Time := Z (only parsing).

(** Calls that reach the hardware, in the order they are issued. *)
Inductive HwCall :=
| BusOpen (port : string) (h : nat)
| BusClose (h : nat)
| TorqueEnable (h : nat)
| TorqueDisable (h : nat)
| ReadCall (h : nat)
| WriteCall (h : nat) (positions : gmap string float).

(** The world as the program sees it.  The [env_*] fields are the answers
    the environment gives (fixed in advance, indexed by the number of
    hardware calls, resp. clock readings, made so far); the other fields
    are state: the bus handles currently open, the next handle to hand
    out, the trace of calls and the number of clock readings. *)
Record World := {
  env_open   : string -> option error;
  env_close  : nat -> option error;
  env_torque : nat -> option error;
  env_read   : nat -> gmap string float + error;
  env_write  : nat -> option error;
  env_now    : nat -> Time;
  opened      : gset nat;
  next_handle : nat;
  calls       : list HwCall;
  clock_reads : nat
}.

Definition with_calls (w : World) (cs : list HwCall) : World :=
  {| env_open := env_open w; env_close := env_close w; env_torque := env_torque w;
     env_read := env_read w; env_write := env_write w; env_now := env_now w;
     opened := opened w; next_handle := next_handle w;
     calls := cs; clock_reads := clock_reads w |}.

Definition with_opened (w : World) (o : gset nat) (n : nat) : World :=
  {| env_open := env_open w; env_close := env_close w; env_torque := env_torque w;
     env_read := env_read w; env_write := env_write w; env_now := env_now w;
     opened := o; next_handle := n;
     calls := calls w; clock_reads := clock_reads w |}.

Definition record_call (w : World) (c : HwCall) : World :=
  with_calls w (calls w ++ [c]).

(** [time.Now()] *)
Definition Now (w : World) : Time * World :=
  (env_now w (clock_reads w),
   {| env_open := env_open w; env_close := env_close w; env_torque := env_torque w;
      env_read := env_read w; env_write := env_write w; env_now := env_now w;
      opened := opened w; next_handle := next_handle w;
      calls := calls w; clock_reads := S (clock_reads w) |}).

(** [feetech.NewBus]: a fresh handle, or the environment's refusal. *)
Definition NewBus (port : string) (w : World) : (nat + error) * World :=
  match env_open w port with
  | Some e => (inr e, w)
  | None =>
      let h := next_handle w in
      (inl h, record_call (with_opened w ({[h]} ∪ opened w) (S h)) (BusOpen port h))
  end.

(** [Close] of the feetech bus. *)
Definition BusCloseCall (h : nat) (w : World) : option error * World :=
  (env_close w h,
   record_call (with_opened w (opened w ∖ {[h]}) (next_handle w)) (BusClose h)).

End world.

Module arm.
Import robot world.

(** [type Arm struct]: the servo group is determined by the bus and the
    calibration's IDs. *)
Record Arm := {
  bus         : nat;
  calibration : gmap string MotorCalibration
}.

(** [func NewArm(port string, cal Calibration)], returning the arm or an error. *)
Definition NewArm (port : string) (cal : gmap string MotorCalibration)
    (w : World) : (Arm + error) * World :=
  match NewBus port w with
  | (inr e, w') => (inr ("open bus: " +:+ e), w')
  | (inl h, w') => (inl {| bus := h; calibration := cal |}, w')
  end.

(** [func (a *Arm) Close() error] *)
Definition Close (a : Arm) (w : World) : option error * World :=
  BusCloseCall (bus a) w.

(** [func (a *Arm) Enable(ctx) error] *)
Definition Enable (a : Arm) (w : World) : option error * World :=
  (env_torque w (length (calls w)), record_call w (TorqueEnable (bus a))).

(** [func (a *Arm) Disable(ctx) error] *)
Definition Disable (a : Arm) (w : World) : option error * World :=
  (env_torque w (length (calls w)), record_call w (TorqueDisable (bus a))).

(** [func (a *Arm) ReadPositions(ctx) (map[MotorName]float64, error)]: the
    bus read together with the per-motor normalisation is the environment's
    answer; a failure is wrapped as in the source. *)
Definition ReadPositions (a : Arm) (w : World)
    : (gmap string float + error) * World :=
  (match env_read w (length (calls w)) with
   | inl positions => inl positions
   | inr e => inr ("read positions: " +:+ e)
   end,
   record_call w (ReadCall (bus a))).

(** [func (a *Arm) WritePositions(ctx, positions) error] *)
Definition WritePositions (a : Arm) (positions : gmap string float) (w : World)
    : option error * World :=
  (match env_write w (length (calls w)) with
   | Some e => Some ("write positions: " +:+ e)
   | None => None
   end,
   record_call w (WriteCall (bus a) positions)).

End arm.

(* ===================================================================== *)
(** * Package teleop                                                      *)
(* ===================================================================== *)

Module teleop.
Import robot world arm.

(** [type State struct]; [Positions] is [None] for Go's nil map. *)
Record State := {
  Positions : option (gmap string float);
  Timestamp : Time;
  Error     : option error
}.

(** The messages [c.log] is called with: format string and arguments. *)
Inductive LogMsg :=
| MsgWarnDisableLeader (e : error)   (* "Warning: failed to disable leader: %v" *)
| MsgLeaderDisabled                  (* "Leader arm: torque disabled (passive mode)" *)
| MsgWarnEnableFollower (e : error)  (* "Warning: failed to enable follower: %v" *)
| MsgFollowerEnabled                 (* "Follower arm: torque enabled" *)
| MsgStarted (hz : Z)                (* "Teleoperation started at %d Hz" *)
| MsgReadError (e : error)           (* "Read error: %v" *)
| MsgWriteError (e : error)          (* "Write error: %v" *)
| MsgWarnDisableFollower (e : error) (* "Warning: failed to disable follower: %v" *)
| MsgFollowerDisabled                (* "Follower arm: torque disabled" *)
| MsgStopped.                        (* "Teleoperation stopped" *)

(** A formatted log line: "[15:04:05] message". *)
Record LogLine := { log_time : Time; log_msg : LogMsg }.

(** A buffered Go channel: a queue of at most [capacity] elements. *)
Record chan (A : Type) := { capacity : nat; buf : list A }.
Arguments capacity {A} _.
Arguments buf {A} _.

Definition make_chan {A} (n : nat) : chan A := {| capacity := n; buf := [] |}.

(** [select { case ch <- v: ...; default: ... }]: [None] is the default
    branch. *)
Definition try_send {A} (ch : chan A) (v : A) : option (chan A) :=
  if (length (buf ch) <? capacity ch)%nat
  then Some {| capacity := capacity ch; buf := buf ch ++ [v] |}
  else None.

(** [select { case <-ch: ...; default: ... }] *)
Definition try_recv {A} (ch : chan A) : option (A * chan A) :=
  match buf ch with
  | [] => None
  | x :: rest => Some (x, {| capacity := capacity ch; buf := rest |})
  end.

(** [type Controller struct]; [mu] is rendered by the atomicity of the
    functions that take it. *)
Record Controller := {
  leader   : Arm;
  follower : Arm;
  hz       : Z;
  mirror   : bool;
  running  : bool;
  stateCh  : chan State;
  logCh    : chan LogLine
}.

Definition set_running (b : bool) (c : Controller) : Controller :=
  {| leader := leader c; follower := follower c; hz := hz c; mirror := mirror c;
     running := b; stateCh := stateCh c; logCh := logCh c |}.

Definition set_mirror (b : bool) (c : Controller) : Controller :=
  {| leader := leader c; follower := follower c; hz := hz c; mirror := b;
     running := running c; stateCh := stateCh c; logCh := logCh c |}.

Definition set_stateCh (ch : chan State) (c : Controller) : Controller :=
  {| leader := leader c; follower := follower c; hz := hz c; mirror := mirror c;
     running := running c; stateCh := ch; logCh := logCh c |}.

Definition set_logCh (ch : chan LogLine) (c : Controller) : Controller :=
  {| leader := leader c; follower := follower c; hz := hz c; mirror := mirror c;
     running := running c; stateCh := stateCh c; logCh := ch |}.

(** [type Config struct] *)
Record Config := {
  LeaderPort    : string;
  LeaderCalib   : string;
  FollowerPort  : string;
  FollowerCalib : string;
  Hz            : Z;
  Mirror        : bool
}.

(** The struct literal [robot.ArmConfig{Port: ..., CalibrationPath: ...}]
    that [NewController] passes to [robot.NewArm]. *)
Record ArmConfig := { Port : string; CalibrationPath : string }.

Section NewController.
(** [robot.NewArm] as [NewController] calls it, with an [ArmConfig]. *)
Variable NewArmFrom : ArmConfig -> World -> (Arm + error) * World.

(** [func NewController(cfg Config)], returning the controller or an error. *)
Definition NewController (cfg : Config) (w : World)
    : (Controller + error) * World :=
  match NewArmFrom {| Port := LeaderPort cfg; CalibrationPath := LeaderCalib cfg |} w with
  | (inr e, w1) => (inr ("create leader arm: " +:+ e), w1)
  | (inl ldr, w1) =>
      match NewArmFrom {| Port := FollowerPort cfg;
                          CalibrationPath := FollowerCalib cfg |} w1 with
      | (inr e, w2) =>
          let '(_, w3) := Close ldr w2 in
          (inr ("create follower arm: " +:+ e), w3)
      | (inl flw, w2) =>
          let hz' := if Hz cfg <=? 0 then 60 else Hz cfg in
          (inl {| leader := ldr; follower := flw; hz := hz'; mirror := Mirror cfg;
                  running := false;
                  stateCh := make_chan 1; logCh := make_chan 10 |}, w2)
      end
  end.
End NewController.

(** [NewArm] of arm.go behind the [ArmConfig] literal: the calibration file
    named by the path is resolved by [load]. *)
Definition NewArm_of_config (load : string -> gmap string MotorCalibration)
    (a : ArmConfig) (w : World) : (Arm + error) * World :=
  NewArm (Port a) (load (CalibrationPath a)) w.

(** [func (c *Controller) Close() error] *)
Definition Controller_Close (c : Controller) (w : World)
    : Controller * option error * World :=
  let c := set_running false c in
  let '(e1, w) := Close (leader c) w in
  let errs := match e1 with Some e => [e] | None => [] end in
  let '(e2, w) := Close (follower c) w in
  let errs := match e2 with Some e => errs ++ [e] | None => errs end in
  (c, match errs with [] => None | _ => Some "close errors" end, w).

(** [func (c *Controller) log(format string, args ...any)] *)
Definition log (c : Controller) (w : World) (m : LogMsg) : Controller * World :=
  let '(t, w) := Now w in
  match try_send (logCh c) {| log_time := t; log_msg := m |} with
  | Some ch => (set_logCh ch c, w)
  | None => (c, w)    (* Drop if channel full *)
  end.

(** [func (c *Controller) sendState(s State)].  The last statement is a
    blocking send: alone, it cannot proceed on a full channel ([None]). *)
Definition sendState (c : Controller) (s : State) : option Controller :=
  match try_send (stateCh c) s with
  | Some ch => Some (set_stateCh ch c)
  | None =>
      let ch1 := match try_recv (stateCh c) with
                 | Some (_, ch') => ch'
                 | None => stateCh c
                 end in
      match try_send ch1 s with
      | Some ch2 => Some (set_stateCh ch2 c)
      | None => None
      end
  end.

(** The mirroring loop of [step]:
    [for name, pos := range positions { ... followerPositions[name] = ... }] *)
Definition mirror_value (name : MotorName) (pos : float) : float :=
  if bool_decide (name = ShoulderPan ∨ name = WristRoll) then (- pos)%float else pos.

Definition mirrored (positions : gmap string float) : gmap string float :=
  map_imap (fun name pos => Some (mirror_value name pos)) positions.

(** [func (c *Controller) step(ctx)]; [None] when [sendState] blocks. *)
Definition step (c : Controller) (w : World) : option (Controller * World) :=
  let '(r, w) := ReadPositions (leader c) w in
  match r with
  | inr e =>
      let '(c, w) := log c w (MsgReadError e) in
      let '(t, w) := Now w in
      match sendState c {| Positions := None; Timestamp := t; Error := Some e |} with
      | Some c => Some (c, w)
      | None => None
      end
  | inl positions =>
      let followerPositions := if mirror c then mirrored positions else positions in
      let '(werr, w) := WritePositions (follower c) followerPositions w in
      let '(c, w) := match werr with
                     | Some e => log c w (MsgWriteError e)
                     | None => (c, w)
                     end in
      let '(t, w) := Now w in
      match sendState c {| Positions := Some positions; Timestamp := t; Error := None |} with
      | Some c => Some (c, w)
      | None => None
      end
  end.

(** [func (c *Controller) shutdown()] *)
Definition shutdown (c : Controller) (w : World) : Controller * World :=
  let c := set_running false c in
  let '(r, w) := Disable (follower c) w in
  let '(c, w) := match r with
                 | Some e => log c w (MsgWarnDisableFollower e)
                 | None => log c w MsgFollowerDisabled
                 end in
  log c w MsgStopped.

(** [Start], the section under [c.mu]. *)
Definition Start_enter (c : Controller) : Controller * option error :=
  if running c then (c, Some "already running")
  else (set_running true c, None).

(** [Start], "Initialize arms". *)
Definition Start_init (c : Controller) (w : World) : Controller * World :=
  let '(r, w) := Disable (leader c) w in
  let '(c, w) := match r with
                 | Some e => log c w (MsgWarnDisableLeader e)
                 | None => log c w MsgLeaderDisabled
                 end in
  let '(r, w) := Enable (follower c) w in
  let '(c, w) := match r with
                 | Some e => log c w (MsgWarnEnableFollower e)
                 | None => log c w MsgFollowerEnabled
                 end in
  log c w (MsgStarted (hz c)).

(** What the [select] of the control loop receives. *)
Inductive LoopEvent :=
| TickerC                   (* case <-ticker.C *)
| CtxDone (e : error).      (* case <-ctx.Done(), with ctx.Err() *)

(** How a call of [Start] stands after the events seen so far. *)
Inductive Outcome :=
| Looping                   (* waiting in [select] *)
| Returned (e : error)
| Blocked                   (* stuck in a channel send *)
| Panicked.                 (* zero or negative ticker interval *)

(** [for { select { ... } }] *)
Fixpoint loop (c : Controller) (w : World) (evs : list LoopEvent)
    : Controller * World * Outcome :=
  match evs with
  | [] => (c, w, Looping)
  | CtxDone e :: _ =>
      let '(c, w) := shutdown c w in (c, w, Returned e)
  | TickerC :: rest =>
      match step c w with
      | Some (c, w) => loop c w rest
      | None => (c, w, Blocked)
      end
  end.

(** [func (c *Controller) Start(ctx) error] *)
Definition Start (c : Controller) (w : World) (evs : list LoopEvent)
    : Controller * World * Outcome :=
  match Start_enter c with
  | (c, Some e) => (c, w, Returned e)
  | (c, None) =>
      let '(c, w) := Start_init c w in
      (* time.NewTicker(time.Second / time.Duration(c.hz)) *)
      if (hz c =? 0) || (Z.quot 1000000000 (hz c) <=? 0) then (c, w, Panicked)
      else loop c w evs
  end.

(** ** [sendState] with observers running alongside

    The producer executes [sendState] one channel operation at a time;
    between any two of them an observer may receive from the channel. *)
Inductive sendpc := AtSelect | AtDrain | AtSend | Finished.

Record sendcfg := { ch : chan State; pc : sendpc }.

(** The producer's next operation; [None] when it has none to make. *)
Definition producer_next (s : State) (k : sendcfg) : option sendcfg :=
  match pc k with
  | AtSelect =>
      match try_send (ch k) s with
      | Some ch' => Some {| ch := ch'; pc := Finished |}
      | None => Some {| ch := ch k; pc := AtDrain |}
      end
  | AtDrain =>
      match try_recv (ch k) with
      | Some (_, ch') => Some {| ch := ch'; pc := AtSend |}
      | None => Some {| ch := ch k; pc := AtSend |}
      end
  | AtSend =>
      match try_send (ch k) s with
      | Some ch' => Some {| ch := ch'; pc := Finished |}
      | None => None
      end
  | Finished => None
  end.

(** One move of the whole system while [s] is being published. *)
Inductive sys_step (s : State) : sendcfg -> sendcfg -> Prop :=
| producer_moves k k' :
    producer_next s k = Some k' -> sys_step s k k'
| observer_receives k x ch' :
    try_recv (ch k) = Some (x, ch') ->
    sys_step s k {| ch := ch'; pc := pc k |}.

(** Publishing a list of states in turn, nobody receiving. *)
Fixpoint publish_all (c : Controller) (l : list State) : option Controller :=
  match l with
  | [] => Some c
  | s :: rest =>
      match sendState c s with
      | Some c' => publish_all c' rest
      | None => None
      end
  end.

(** ** Publishing while observers receive

    The control loop calls [sendState] for one state after the other;
    whoever reads [States()] receives in between.  A schedule says whose
    turn it is: the producer's, for one channel operation of [sendState],
    or an observer's, for one receive. *)
Inductive Turn := ProducerTurn | ObserverTurn.

(** The channel and the producer's place in [sendState], the states still
    to be published (the first one is being published), and what the
    observers have received so far. *)
Record pubcfg := {
  sending  : sendcfg;
  todo     : list State;
  received : list State
}.

(** One turn.  A producer that cannot make its operation waits in the
    blocking send, an observer that finds the channel empty waits in its
    receive: neither changes anything.  When [sendState] returns, the next
    call starts at its [select]. *)
Definition take_turn (k : pubcfg) (t : Turn) : pubcfg :=
  match t with
  | ObserverTurn =>
      match try_recv (ch (sending k)) with
      | Some (x, ch') =>
          {| sending := {| ch := ch'; pc := pc (sending k) |};
             todo := todo k; received := received k ++ [x] |}
      | None => k
      end
  | ProducerTurn =>
      match todo k with
      | [] => k
      | s :: rest =>
          match producer_next s (sending k) with
          | Some k' =>
              match pc k' with
              | Finished =>
                  {| sending := {| ch := ch k'; pc := AtSelect |};
                     todo := rest; received := received k |}
              | _ => {| sending := k'; todo := todo k; received := received k |}
              end
          | None => k
          end
      end
  end.

Definition run_turns (k : pubcfg) (sched : list Turn) : pubcfg :=
  foldl take_turn k sched.

(** How many turns of a schedule are the producer's. *)
Fixpoint producer_turns (sched : list Turn) : nat :=
  match sched with
  | [] => 0
  | ProducerTurn :: rest => S (producer_turns rest)
  | ObserverTurn :: rest => producer_turns rest
  end.

(** The controller about to publish [l]. *)
Definition publishing (c : Controller) (l : list State) : pubcfg :=
  {| sending := {| ch := stateCh c; pc := AtSelect |}; todo := l; received := [] |}.

(** ** Notions used to state the facts below *)

(** The state channel as [NewController] makes it: one slot, holding at
    most one snapshot. *)
Definition one_slot (q : chan State) : Prop :=
  capacity q = 1%nat ∧ (length (buf q) ≤ 1)%nat.

Definition slot_with (s : State) : chan State := {| capacity := 1; buf := [s] |}.

Definition error_state (w : World) (e : error) : State :=
  {| Positions := None; Timestamp := env_now w (clock_reads w); Error := Some e |}.

Definition ok_state (w : World) (positions : gmap string float) : State :=
  {| Positions := Some positions; Timestamp := env_now w (clock_reads w); Error := None |}.

(** The positions handed to [WritePositions]: a function of the mirror
    flag and of the positions just read, and of nothing else. *)
Definition follower_target (mirror : bool) (positions : gmap string float)
    : gmap string float :=
  if mirror then mirrored positions else positions.

(** What holds of the channel at every point of a publish: it is a
    one-slot channel, and it is empty when the producer stands at the
    final, blocking send. *)
Definition send_inv (k : sendcfg) : Prop :=
  one_slot (ch k) ∧ (pc k = AtSend → buf (ch k) = []).

(** The producer's operations still ahead, at most: three for each state,
    less those already made for the first one. *)
Definition operations_left (k : pubcfg) : nat :=
  3 * length (todo k) -
  match pc (sending k) with AtSelect | Finished => 0 | AtDrain => 1 | AtSend => 2 end.

(** What holds at every point of a run that publishes [l] into the
    channel [q0]. *)
Definition pub_inv (q0 : chan State) (l : list State) (k : pubcfg) : Prop :=
  send_inv (sending k) ∧
  pc (sending k) ≠ Finished ∧
  (todo k = [] → pc (sending k) = AtSelect) ∧
  (received k ++ buf (ch (sending k)) ++ todo k) `sublist_of` (buf q0 ++ l) ∧
  ∃ published, l = published ++ todo k ∧
    (pc (sending k) = AtSelect → ∀ x, last published = Some x →
       ch (sending k) = slot_with x ∨
       (buf (ch (sending k)) = [] ∧ last (received k) = Some x)).

(** Handles are handed out in increasing order: those open are below the
    next one. *)
Definition fresh_ok (w : World) : Prop :=
  ∀ h, h ∈ opened w → (h < next_handle w)%nat.

End teleop.

(* ===================================================================== *)
(** * Concrete runs                                                       *)
(* ===================================================================== *)

Module demo.
Import robot world arm teleop.

(** A world in which every call succeeds, reads answer [read], and the
    clock counts its own readings. *)
Definition quiet (read : gmap string float + error) : World :=
  {| env_open := fun _ => None; env_close := fun _ => None;
     env_torque := fun _ => None; env_read := fun _ => read;
     env_write := fun _ => None; env_now := fun n => Z.of_nat n;
     opened := ∅; next_handle := 0; calls := []; clock_reads := 0 |}.

(** The same world, except that the port ["/dev/follower"] cannot be
    opened. *)
Definition follower_unplugged : World :=
  {| env_open := fun port => if bool_decide (port = "/dev/follower")
                             then Some "no such device" else None;
     env_close := fun _ => None;
     env_torque := fun _ => None; env_read := fun _ => inl ∅;
     env_write := fun _ => None; env_now := fun n => Z.of_nat n;
     opened := ∅; next_handle := 0; calls := []; clock_reads := 0 |}.

Definition config (m : bool) : Config :=
  {| LeaderPort := "/dev/leader"; LeaderCalib := "leader.json";
     FollowerPort := "/dev/follower"; FollowerCalib := "follower.json";
     Hz := 0; Mirror := m |}.

Definition controller (m : bool) : Controller :=
  {| leader := {| bus := 0; calibration := ∅ |};
     follower := {| bus := 1; calibration := ∅ |};
     hz := 60; mirror := m; running := false;
     stateCh := make_chan 1; logCh := make_chan 10 |}.

(** The leader positions of the mirroring example. *)
Definition positions : gmap string float :=
  <[ShoulderPan := 10%float]> (<[ShoulderLift := 20%float]>
    (<[WristRoll := (-5)%float]> (<[Gripper := 0%float]> ∅))).

End demo.

(* ===================================================================== *)
(** * Package robot: calibration maps and the arm's conversion loops       *)
(* ===================================================================== *)

Module calib.
Import robot.

(** [type Calibration map[MotorName]MotorCalibration] is
    [gmap string MotorCalibration]. *)

(** The zero value [MotorCalibration{}]. *)
Definition zero_calibration : MotorCalibration :=
  {| ID := 0; DriveMode := 0; HomingOffset := 0; RangeMin := 0; RangeMax := 0 |}.

(** Go fixes no order for [range] over a map: [entries] is one order in
    which a [range m] may visit the map. *)
Definition ranges_over `{Countable K} {A} (m : gmap K A) (entries : list (K * A)) : Prop :=
  entries ≡ₚ map_to_list m.

(** [func (c Calibration) MotorIDs() []int], the loop over [AllMotors()]. *)
Fixpoint MotorIDs_loop (c : gmap string MotorCalibration) (names : list MotorName) (ids : list Z)
    : list Z :=
  match names with
  | [] => ids
  | name :: rest =>
      match c !! name with
      | Some mc => MotorIDs_loop c rest (ids ++ [ID mc])
      | None => MotorIDs_loop c rest ids
      end
  end.

Definition MotorIDs (c : gmap string MotorCalibration) : list Z := MotorIDs_loop c AllMotors [].

(** [func (c Calibration) ByID(id int) (MotorName, MotorCalibration, bool)],
    with the order in which this call's [range c] visits the map. *)
Fixpoint ByID (entries : list (MotorName * MotorCalibration)) (id : Z)
    : MotorName * MotorCalibration * bool :=
  match entries with
  | [] => ("", zero_calibration, false)
  | (name, mc) :: rest =>
      if ID mc =? id then (name, mc, true) else ByID rest id
  end.

(** No two motors of the calibration share a servo ID. *)
Definition unique_ids (c : gmap string MotorCalibration) : Prop :=
  NoDup ((λ e, ID e.2) <$> map_to_list c).

(** [ReadPositions], "Normalize each position":
    [for id, raw := range rawPositions { name, cal, ok := ByID(id); ... }].
    [raws] is the order in which the answer of the bus is visited,
    [order id] the one in which [ByID(id)] visits the calibration. *)
Fixpoint normalize_positions (order : Z → list (MotorName * MotorCalibration))
    (raws : list (Z * Z)) (positions : gmap string float) : gmap string float :=
  match raws with
  | [] => positions
  | (id, raw) :: rest =>
      match ByID (order id) id with
      | (name, cal, true) =>
          normalize_positions order rest (<[name := Normalize cal raw]> positions)
      | (_, _, false) => normalize_positions order rest positions
      end
  end.

(** [WritePositions], "Denormalize positions":
    [for name, norm := range positions { cal, ok := a.calibration[name]; ... }].
    A raw target is [None] where Go leaves the value of [int(...)] open. *)
Fixpoint denormalize_positions (c : gmap string MotorCalibration) (targets : list (MotorName * float))
    (rawPositions : gmap Z (option Z)) : gmap Z (option Z) :=
  match targets with
  | [] => rawPositions
  | (name, norm) :: rest =>
      match c !! name with
      | Some cal =>
          denormalize_positions c rest (<[ID cal := Denormalize cal norm]> rawPositions)
      | None => denormalize_positions c rest rawPositions
      end
  end.

(** [type ArmConfig struct] of config.go; a nil [Calibration] is the empty
    map. *)
Record ArmConfig := { Port : string; Calibration : gmap string MotorCalibration }.

(** [func (a *ArmConfig) IsCalibrated() bool] *)
Definition IsCalibrated (a : ArmConfig) : bool := (0 <? size (Calibration a))%nat.

(** [calibrateArm] of the setup command on its successful path: the arm is
    connected, the recorder runs on [msgs], and the calibration built from
    its final model is stored in the configuration. *)
Definition calibrateArm (armConfig : ArmConfig) (order : list Z) (p0 : setup.Poll)
    (msgs : list setup.Msg) : ArmConfig :=
  let cm := setup.run (setup.calibrateArm_init order p0).2 msgs in
  {| Port := Port armConfig;
     Calibration := setup.build_calibration 0 AllMotors cm ∅ |}.

(** The calibration of the package's test file, and one in which two
    motors were given the same ID. *)
Definition test_calibration : gmap string MotorCalibration :=
  {[ ShoulderPan := {| ID := 1; DriveMode := 0; HomingOffset := 978;
                       RangeMin := 823; RangeMax := 3540 |};
     Gripper := {| ID := 6; DriveMode := 0; HomingOffset := 1025;
                   RangeMin := 2041; RangeMax := 3275 |} ]}.

Definition clashing_calibration : gmap string MotorCalibration :=
  {[ ShoulderPan := {| ID := 1; DriveMode := 0; HomingOffset := 0;
                       RangeMin := 823; RangeMax := 3540 |};
     WristRoll := {| ID := 1; DriveMode := 0; HomingOffset := 0;
                     RangeMin := 0; RangeMax := 4095 |} ]}.

End calib.

(* ===================================================================== *)
(** * Package teleop: runs of the controller                              *)
(* ===================================================================== *)

Module teleop_runs.
Import robot world arm teleop.

(** Consecutive calls of [c.log], nobody receiving from [Logs()]. *)
Fixpoint log_all (c : Controller) (w : World) (msgs : list LogMsg)
    : Controller * World :=
  match msgs with
  | [] => (c, w)
  | m :: rest => let '(c, w) := log c w m in log_all c w rest
  end.

(** The bus traffic of one tick of the control loop, given the answer to
    its read: the read of the leader and then, when the read succeeded,
    one write of the targets to the follower. *)
Definition tick_calls (c : Controller) (r : gmap string float + error) : list HwCall :=
  ReadCall (bus (leader c)) ::
  match r with
  | inl positions =>
      [WriteCall (bus (follower c)) (follower_target (mirror c) positions)]
  | inr _ => []
  end.

(** The bus traffic of [n] ticks in a row, the first of them after [made]
    hardware calls: the environment answers each read at the number of
    calls made before it. *)
Fixpoint ticks_calls (c : Controller) (answers : nat → gmap string float + error)
    (made n : nat) : list HwCall :=
  match n with
  | O => []
  | S n' =>
      let cs := tick_calls c (answers made) in
      cs ++ ticks_calls c answers (made + length cs) n'
  end.

(** The ticks the loop serves: those that arrive before [ctx.Done()]. *)
Fixpoint ticks_served (evs : list LoopEvent) : nat :=
  match evs with
  | TickerC :: rest => S (ticks_served rest)
  | _ => 0%nat
  end.

(** How the loop stands after the events: it returns the error of the
    first [ctx.Done()], and is waiting in [select] when there is none. *)
Fixpoint loop_end (evs : list LoopEvent) : Outcome :=
  match evs with
  | [] => Looping
  | TickerC :: rest => loop_end rest
  | CtxDone e :: _ => Returned e
  end.

(** The bus traffic with which [Start] ends: the follower's torque is
    disabled when it returns on [ctx.Done()]. *)
Definition final_calls (c : Controller) (o : Outcome) : list HwCall :=
  match o with
  | Returned _ => [TorqueDisable (bus (follower c))]
  | _ => []
  end.

End teleop_runs.

(* ===================================================================== *)
(** * Command [setup]: finding and identifying the arms                   *)
(* ===================================================================== *)

Module scan.
Import calib.

(** [feetech.FoundServo], as far as the command reads it. *)
Record FoundServo := { ID : Z; Model : Z }.

(** [ids[s.ID] = true] for every servo found. *)
Fixpoint mark_ids (servos : list FoundServo) (ids : gmap Z bool) : gmap Z bool :=
  match servos with
  | [] => ids
  | s :: rest => mark_ids rest (<[ID s := true]> ids)
  end.

(** Indexing a Go [map[int]bool]: [false] when the key is absent. *)
Definition present (ids : gmap Z bool) (i : Z) : bool := default false (ids !! i).

(** [func isSOArm(servos []feetech.FoundServo) bool] *)
Definition isSOArm (servos : list FoundServo) : bool :=
  if negb (length servos =? 6)%nat then false
  else forallb (present (mark_ids servos ∅)) [1; 2; 3; 4; 5; 6].

(** [strings.Contains] *)
Fixpoint Contains (s substr : string) : bool :=
  String.prefix substr s ||
  match s with
  | EmptyString => false
  | String _ rest => Contains rest substr
  end.

(** What the system answers about one serial port: whether
    [feetech.NewBus] fails on it, and what [bus.Scan(ctx, 1, 6)] returns. *)
Record PortAnswer := {
  open_error  : option string;
  scan_result : list FoundServo + string
}.

(** What happens to the buses, in order. *)
Inductive BusEvent :=
| Opened (port : string)
| Scanned (port : string)
| Closed (port : string).

(** [type armInfo struct]; [bus] is the open bus of [port]. *)
Record armInfo := { port : string; servos : list FoundServo }.

(** [findArms], the loop over the ports. *)
Fixpoint findArms_loop (env : string → PortAnswer) (ports : list string)
    (arms : list armInfo) (trace : list BusEvent) : list armInfo * list BusEvent :=
  match ports with
  | [] => (arms, trace)
  | p :: rest =>
      if Contains p "Bluetooth" then findArms_loop env rest arms trace
      else
        match open_error (env p) with
        | Some _ => findArms_loop env rest arms trace
        | None =>
            match scan_result (env p) with
            | inr _ =>
                findArms_loop env rest arms (trace ++ [Opened p; Scanned p; Closed p])
            | inl found =>
                if isSOArm found
                then findArms_loop env rest (arms ++ [{| port := p; servos := found |}])
                       (trace ++ [Opened p; Scanned p])
                else findArms_loop env rest arms (trace ++ [Opened p; Scanned p; Closed p])
            end
        end
  end.

(** [func findArms() []armInfo]; [ports] is the answer of
    [serial.GetPortsList()]. *)
Definition findArms (ports : list string + string) (env : string → PortAnswer)
    : list armInfo * list BusEvent :=
  match ports with
  | inr _ => ([], [])
  | inl ports => findArms_loop env ports [] []
  end.

(** The ports whose bus is open after a trace, in the order of opening. *)
Fixpoint left_open (trace : list BusEvent) (open : list string) : list string :=
  match trace with
  | [] => open
  | Opened p :: rest => left_open rest (open ++ [p])
  | Scanned _ :: rest => left_open rest open
  | Closed p :: rest => left_open rest (filter (λ q, q ≠ p) open)
  end.

(** The outcome of the [huh] form: the value of the option chosen, or the
    form's error. *)
Inductive Answer := Chose (value : string) | FormError.

(** What [identifyArmWithWiggle] ends in: the role returned, or
    [os.Exit(0)]. *)
Inductive Identified := Role (role : string) | Exited.

(** "Build options based on what's still needed" *)
Definition options (needLeader needFollower : bool) : list string :=
  (if needLeader then ["leader"] else []) ++
  (if needFollower then ["follower"] else []) ++ ["skip"].

(** [func identifyArmWithWiggle(arm, needLeader, needFollower) string].
    [wiggled arm] tells whether servo 1 was found, read and powered, so
    that the arm wiggled; [answer arm opts] is what the user then does with
    the form showing [opts]. *)
Definition identifyArmWithWiggle (wiggled : armInfo → bool)
    (answer : armInfo → list string → Answer)
    (arm : armInfo) (needLeader needFollower : bool) : Identified :=
  if wiggled arm then
    match answer arm (options needLeader needFollower) with
    | FormError => Exited
    | Chose role => if bool_decide (role = "skip") then Role "" else Role role
    end
  else Role "".

(** [scanForArms], "Identify each arm by wiggling it"; [None] when the
    program has exited. *)
Fixpoint identify_loop (wiggled : armInfo → bool) (answer : armInfo → list string → Answer)
    (arms : list armInfo) (leaderPort followerPort : string) : option (string * string) :=
  match arms with
  | [] => Some (leaderPort, followerPort)
  | arm :: rest =>
      match identifyArmWithWiggle wiggled answer arm
              (bool_decide (leaderPort = "")) (bool_decide (followerPort = "")) with
      | Exited => None
      | Role role =>
          let leaderPort := if bool_decide (role = "leader") then port arm else leaderPort in
          let followerPort :=
            if bool_decide (role = "leader") then followerPort
            else if bool_decide (role = "follower") then port arm else followerPort in
          if bool_decide (leaderPort ≠ "") && bool_decide (followerPort ≠ "")
          then Some (leaderPort, followerPort)
          else identify_loop wiggled answer rest leaderPort followerPort
      end
  end.

(** [type Config struct] of config.go. *)
Record Config := { Leader : ArmConfig; Follower : ArmConfig }.

(** How a command ends: with a value, or in [os.Exit(code)]. *)
Inductive Run (A : Type) := Done (a : A) | Exit (code : Z).
Arguments Done {A} _.
Arguments Exit {A} _.

(** [func scanForArms() *robot.Config], given the arms [findArms] found. *)
Definition scanForArms (wiggled : armInfo → bool) (answer : armInfo → list string → Answer)
    (arms : list armInfo) : Run Config :=
  if (length arms =? 0)%nat then Exit 1
  else
    match identify_loop wiggled answer arms "" "" with
    | None => Exit 0
    | Some (leaderPort, followerPort) =>
        if bool_decide (leaderPort = "") || bool_decide (followerPort = "") then Exit 1
        else Done {| Leader := {| Port := leaderPort; Calibration := ∅ |};
                     Follower := {| Port := followerPort; Calibration := ∅ |} |}
    end.

(** The recorder sessions of the two calibrations of [setup]. *)
Record Session := {
  disable_order : list Z;
  first_poll    : setup.Poll;
  messages      : list setup.Msg
}.

(** [func (c *SetupCommand) Execute], on the path where both arms connect
    and both saves succeed: scan, calibrate the leader, calibrate the
    follower. *)
Definition Execute (wiggled : armInfo → bool) (answer : armInfo → list string → Answer)
    (arms : list armInfo) (leader follower : Session) : Run Config :=
  match scanForArms wiggled answer arms with
  | Exit code => Exit code
  | Done config =>
      let l := calibrateArm (Leader config) (disable_order leader) (first_poll leader)
                 (messages leader) in
      let f := calibrateArm (Follower config) (disable_order follower)
                 (first_poll follower) (messages follower) in
      Done {| Leader := l; Follower := f |}
  end.

(** [TeleoperateCommand.Execute], the checks made on the configuration
    before the controller is created: the complaint printed, if any. *)
Definition teleoperate_checks (cfg : Config) : option string :=
  if bool_decide (Port (Leader cfg) = "") || bool_decide (Port (Follower cfg) = "")
  then Some "Arms not configured. Run 'lerobot setup' first."
  else if negb (IsCalibrated (Leader cfg)) || negb (IsCalibrated (Follower cfg))
  then Some "Arms not calibrated. Run 'lerobot setup' first."
  else None.

End scan.

(* ===================================================================== *)
(** * Command [teleoperate]: the terminal interface                       *)
(* ===================================================================== *)

Module tui.
Import robot calib.

Definition headerHeight : Z := 2.
Definition legendHeight : Z := 2.
Definition footerHeight : Z := 7.
Definition maxLogs : nat := 5.
Definition borderSize : Z := 2.

(** [type teleopModel struct].  Of the chart, [chart_size] is the size it
    was last resized to and [chart] the position maps pushed into its data
    sets and drawn, oldest first. *)
Record teleopModel := {
  chart         : list (gmap string float);
  chart_size    : Z * Z;
  width         : Z;
  height        : Z;
  logs          : list string;
  quitting      : bool;
  lastPositions : option (gmap string float)
}.

(** [func (m *teleopModel) addLog(msg string)], on the [logs] field. *)
Definition addLog (logs : list string) (msg : string) : list string :=
  let logs := logs ++ [msg] in
  if (maxLogs <? length logs)%nat then drop (length logs - maxLogs) logs else logs.

(** The test of the loop of [hasMovement]:
    [lastPos, ok := m.lastPositions[name]; !ok || pos != lastPos]. *)
Definition moved (last : gmap string float) (e : MotorName * float) : bool :=
  match last !! e.1 with
  | Some lastPos => negb (e.2 =? lastPos)%float
  | None => true
  end.

(** [func (m *teleopModel) hasMovement(positions) bool]; [entries] is the
    order in which [positions] is visited. *)
Definition hasMovement (lastPositions : option (gmap string float))
    (entries : list (MotorName * float)) : bool :=
  match lastPositions with
  | None => true
  | Some last => existsb (moved last) entries
  end.

(** [func (m *teleopModel) chartSize() (width, height int)] *)
Definition chartSize (width height : Z) : Z * Z :=
  if (width =? 0) || (height =? 0) then (80, 20)
  else
    let w := wrap (wrap (width - borderSize) - 2) in
    let w := if w <? 40 then 40 else w in
    let h := wrap (wrap (wrap (wrap (height - headerHeight) - legendHeight)
                           - footerHeight) - borderSize) in
    let h := if h <? 10 then 10 else h in
    (w, h).

(** The messages [Update] distinguishes.  A state message comes with the
    order in which its positions are visited. *)
Inductive Msg :=
| WindowSizeMsg (Width Height : Z)
| KeyMsg (key : string)
| stateMsg (state : teleop.State) (entries : list (MotorName * float))
| logMsg (line : string)
| OtherMsg.

Inductive Cmd := CmdNone | CmdQuit | waitForState | waitForLog.

(** [func initialTeleopModel(ctrl) teleopModel] *)
Definition initialTeleopModel : teleopModel :=
  {| chart := []; chart_size := (80, 20); width := 0; height := 0; logs := [];
     quitting := false; lastPositions := None |}.

(** [func (m teleopModel) Update(msg tea.Msg) (tea.Model, tea.Cmd)] *)
Definition Update (m : teleopModel) (msg : Msg) : teleopModel * Cmd :=
  match msg with
  | WindowSizeMsg Width Height =>
      ({| chart := chart m; chart_size := chartSize Width Height;
          width := Width; height := Height; logs := logs m;
          quitting := quitting m; lastPositions := lastPositions m |}, CmdNone)
  | KeyMsg key =>
      if bool_decide (key = "q" ∨ key = "ctrl+c") then
        ({| chart := chart m; chart_size := chart_size m;
            width := width m; height := height m; logs := logs m;
            quitting := true; lastPositions := lastPositions m |}, CmdQuit)
      else (m, CmdNone)
  | stateMsg state entries =>
      match teleop.Positions state with
      | Some positions =>
          if hasMovement (lastPositions m) entries then
            ({| chart := chart m ++ [positions]; chart_size := chart_size m;
                width := width m; height := height m; logs := logs m;
                quitting := quitting m; lastPositions := Some positions |}, waitForState)
          else (m, waitForState)
      | None => (m, waitForState)
      end
  | logMsg line =>
      ({| chart := chart m; chart_size := chart_size m;
          width := width m; height := height m; logs := addLog (logs m) line;
          quitting := quitting m; lastPositions := lastPositions m |}, waitForLog)
  | OtherMsg => (m, CmdNone)
  end.

(** The model after a sequence of messages. *)
Definition after (m : teleopModel) (msgs : list Msg) : teleopModel :=
  foldl (λ m msg, (Update m msg).1) m msgs.

(** A state message visits the positions it carries. *)
Definition visits_its_positions (msg : Msg) : Prop :=
  match msg with
  | stateMsg state entries =>
      match teleop.Positions state with
      | Some positions => ranges_over positions entries
      | None => True
      end
  | _ => True
  end.

(** [later] shows movement against [earlier]: some motor of [later] is
    absent from [earlier] or stands elsewhere. *)
Definition differs_from (earlier later : gmap string float) : Prop :=
  ∃ name pos, later !! name = Some pos ∧
    match earlier !! name with
    | Some lastPos => (pos =? lastPos)%float = false
    | None => True
    end.

(** Every frame of the chart shows movement against the one before. *)
Fixpoint frames_differ (frames : list (gmap string float)) : Prop :=
  match frames with
  | p :: (q :: _) as rest => differs_from p q ∧ frames_differ rest
  | _ => True
  end.

End tui.

(* ===================================================================== *)
(** * Facts about the calibration model                                   *)
(* ===================================================================== *)

Section calibration.
Import robot.

(** ** Rounding to 53 digits *)

Lemma digits2_size (p : positive) : digits2_pos p = Pos.size p.
Proof. induction p; simpl; congruence. Qed.

Lemma digits_bounds (p : positive) :
  2 ^ (Zpos (digits2_pos p) - 1) <= Zpos p < 2 ^ Zpos (digits2_pos p).
Proof.
  rewrite digits2_size. split.
  - pose proof (Pos.size_le p) as H.
    assert (2 ^ Zpos (Pos.size p) <= 2 * Zpos p) as H2.
    { rewrite <- Pos2Z.inj_pow. change (2 * Zpos p) with (Zpos p~0). lia. }
    replace (Zpos (Pos.size p)) with (Zpos (Pos.size p) - 1 + 1) in H2 by lia.
    rewrite Z.pow_add_r in H2 by lia. lia.
  - pose proof (Pos.size_gt p) as H. rewrite <- Pos2Z.inj_pow. lia.
Qed.

Lemma iter_pos_nat {A} (f : A -> A) (n : positive) : forall x,
  SpecFloat.iter_pos f n x = Nat.iter (Pos.to_nat n) f x.
Proof.
  induction n as [n IH|n IH|]; intros x; simpl SpecFloat.iter_pos.
  - rewrite !IH.
    replace (Pos.to_nat n~1) with (Pos.to_nat n + S (Pos.to_nat n))%nat by lia.
    rewrite Nat.iter_add, Nat.iter_succ_r. reflexivity.
  - rewrite !IH.
    replace (Pos.to_nat n~0) with (Pos.to_nat n + Pos.to_nat n)%nat by lia.
    rewrite Nat.iter_add. reflexivity.
  - reflexivity.
Qed.

Lemma shr_1_m (r : shr_record) : 0 <= shr_m r -> shr_m (shr_1 r) = shr_m r / 2.
Proof.
  destruct r as [m r s]. cbn [shr_m]. intros H.
  destruct m as [|[p|p|]|p]; cbn [shr_1 shr_m]; try lia;
    Z.to_euclidean_division_equations; lia.
Qed.

Lemma shr_iter_m (k : nat) : forall r, 0 <= shr_m r ->
  shr_m (Nat.iter k shr_1 r) = shr_m r / 2 ^ Z.of_nat k.
Proof.
  induction k as [|k IH]; intros r H.
  - simpl. now rewrite Z.div_1_r.
  - rewrite Nat.iter_succ_r. rewrite IH.
    + rewrite shr_1_m by assumption. rewrite Nat2Z.inj_succ, Z.pow_succ_r by lia.
      rewrite Z.div_div by lia. reflexivity.
    + rewrite shr_1_m by assumption. apply Z.div_pos; lia.
Qed.

Lemma shr_m_spec (r : shr_record) (e n : Z) :
  0 <= shr_m r ->
  shr_m (fst (shr r e n)) = shr_m r / 2 ^ Z.max 0 n /\ snd (shr r e n) = e + Z.max 0 n.
Proof.
  intros H. destruct n as [|p|p]; simpl.
  - rewrite Z.div_1_r. split; [reflexivity|lia].
  - rewrite iter_pos_nat, shr_iter_m by assumption. rewrite positive_nat_Z. split; [reflexivity|lia].
  - rewrite Z.div_1_r. split; [reflexivity|lia].
Qed.

Lemma shr_record_of_loc_m (m : Z) (l : location) : shr_m (shr_record_of_loc m l) = m.
Proof. destruct l as [|[| |]]; reflexivity. Qed.

Lemma round_nearest_even_bounds (m : Z) (l : location) :
  m <= round_nearest_even m l <= m + 1.
Proof.
  destruct l as [|[| |]]; simpl; try lia. destruct (Z.even m); lia.
Qed.

Lemma fexp_linear (x : Z) : -1021 <= x -> fexp prec emax x = x - 53.
Proof. intros H. unfold fexp, emin, prec, emax. lia. Qed.

Lemma Zdigits2_bounds (z : Z) : 0 < z ->
  0 < Zdigits2 z /\ 2 ^ (Zdigits2 z - 1) <= z < 2 ^ Zdigits2 z.
Proof.
  destruct z as [|p|p]; try lia. intros _. simpl. split; [lia|apply digits_bounds].
Qed.

Lemma pow2_div_lower (m d n : Z) :
  0 <= n -> n < d -> 2 ^ (d - 1) <= m -> 2 ^ (d - 1 - n) <= m / 2 ^ n.
Proof.
  intros Hn Hd Hm. apply Z.div_le_lower_bound; [lia|].
  rewrite <- Z.pow_add_r by lia. replace (n + (d - 1 - n)) with (d - 1) by lia. exact Hm.
Qed.

Lemma pow2_div_upper (m d n : Z) :
  0 <= n -> n <= d -> m < 2 ^ d -> m / 2 ^ n < 2 ^ (d - n).
Proof.
  intros Hn Hd Hm. apply Z.div_lt_upper_bound; [lia|].
  rewrite <- Z.pow_add_r by lia. replace (n + (d - n)) with d by lia. exact Hm.
Qed.

(** The shape of [binary_round_aux] on a positive mantissa, away from the
    ends of the exponent range. *)
Lemma binary_round_aux_shape (s : bool) (mx : positive) (ex : Z) (l : location) :
  -1000 <= ex -> ex + Zpos (digits2_pos mx) <= 971 ->
  let d := Zpos (digits2_pos mx) in
  let n1 := Z.max 0 (d - 53) in
  let M := round_nearest_even (shr_m (fst (shr_fexp prec emax (Zpos mx) ex l)))
             (loc_of_shr_record (fst (shr_fexp prec emax (Zpos mx) ex l))) in
  let n2 := Z.max 0 (Zdigits2 M - 53) in
  shr_m (fst (shr_fexp prec emax (Zpos mx) ex l)) = Zpos mx / 2 ^ n1 /\
  0 < M /\
  exists m, M / 2 ^ n2 = Zpos m /\
    binary_round_aux prec emax s (Zpos mx) ex l = S754_finite s m (ex + n1 + n2).
Proof.
  intros Hlo Hhi d n1 M n2.
  pose proof (digits_bounds mx) as Hd. fold d in Hd.
  assert (0 < d) as Hdpos by (unfold d; lia).
  assert (shr_m (fst (shr_fexp prec emax (Zpos mx) ex l)) = Zpos mx / 2 ^ n1 /\
          snd (shr_fexp prec emax (Zpos mx) ex l) = ex + n1) as [Hm1 He1].
  { unfold shr_fexp. cbn [Zdigits2]. fold d. rewrite fexp_linear by lia.
    replace (d + ex - 53 - ex) with (d - 53) by lia.
    pose proof (shr_m_spec (shr_record_of_loc (Zpos mx) l) ex (d - 53)) as H.
    rewrite shr_record_of_loc_m in H. apply H. lia. }
  assert (2 ^ (d - 1 - n1) <= Zpos mx / 2 ^ n1 < 2 ^ (d - n1)) as Hb1.
  { split; [apply pow2_div_lower|apply pow2_div_upper]; lia. }
  assert (1 <= Zpos mx / 2 ^ n1) as Hpos1.
  { assert (1 <= 2 ^ (d - 1 - n1)) by (apply (Z.pow_le_mono_r 2 0); lia). lia. }
  pose proof (round_nearest_even_bounds (shr_m (fst (shr_fexp prec emax (Zpos mx) ex l)))
                (loc_of_shr_record (fst (shr_fexp prec emax (Zpos mx) ex l)))) as HM.
  fold M in HM. rewrite Hm1 in HM.
  assert (0 < M) as HMpos by lia.
  split; [exact Hm1|split; [exact HMpos|]].
  destruct (Zdigits2_bounds M HMpos) as [HdM HbM].
  assert (Zdigits2 M <= d - n1 + 1) as HdMle.
  { assert (2 ^ (Zdigits2 M - 1) < 2 ^ (d - n1 + 1)) as Hlt.
    { assert (2 ^ (d - n1 + 1) = 2 * 2 ^ (d - n1)) as ->
        by (rewrite Z.pow_add_r by lia; lia). lia. }
    apply Z.pow_lt_mono_r_iff in Hlt; lia. }
  assert (2 ^ (Zdigits2 M - 1 - n2) <= M / 2 ^ n2) as Hb2
    by (apply pow2_div_lower; lia).
  assert (1 <= M / 2 ^ n2) as Hpos2.
  { assert (1 <= 2 ^ (Zdigits2 M - 1 - n2)) by (apply (Z.pow_le_mono_r 2 0); lia). lia. }
  destruct (M / 2 ^ n2) as [|m|m] eqn:Hm2; try lia.
  exists m. split; [reflexivity|].
  unfold binary_round_aux.
  destruct (shr_fexp prec emax (Zpos mx) ex l) as [mrs' e'] eqn:H1.
  cbn [fst snd] in *. subst e'. fold M.
  assert (shr_m (fst (shr_fexp prec emax M (ex + n1) loc_Exact)) = M / 2 ^ n2 /\
          snd (shr_fexp prec emax M (ex + n1) loc_Exact) = ex + n1 + n2) as [Hm2' He2].
  { unfold shr_fexp. rewrite fexp_linear by lia.
    replace (Zdigits2 M + (ex + n1) - 53 - (ex + n1)) with (Zdigits2 M - 53) by lia.
    pose proof (shr_m_spec (shr_record_of_loc M loc_Exact) (ex + n1) (Zdigits2 M - 53)) as H.
    rewrite shr_record_of_loc_m in H. apply H. lia. }
  destruct (shr_fexp prec emax M (ex + n1) loc_Exact) as [mrs'' e''].
  cbn [fst snd] in *. subst e''. rewrite Hm2', Hm2.
  assert ((ex + n1 + n2 <=? emax - prec) = true) as ->; [|reflexivity].
  apply Z.leb_le. unfold emax, prec. lia.
Qed.

Lemma shr_fexp_noshift (mx : positive) (ex : Z) (l : location) :
  -1000 <= ex -> Zpos (digits2_pos mx) <= 53 ->
  shr_fexp prec emax (Zpos mx) ex l = (shr_record_of_loc (Zpos mx) l, ex).
Proof.
  intros Hlo Hd. unfold shr_fexp. cbn [Zdigits2].
  rewrite fexp_linear by lia.
  destruct (Z.pos (digits2_pos mx) + ex - 53 - ex) eqn:E; try reflexivity. lia.
Qed.

(** A mantissa of exactly 53 digits is left alone. *)
Lemma binary_round_aux_canonical (s : bool) (mx : positive) (ex : Z) :
  Zpos (digits2_pos mx) = 53 -> -1000 <= ex <= 900 ->
  binary_round_aux prec emax s (Zpos mx) ex loc_Exact = S754_finite s mx ex.
Proof.
  intros Hd He. unfold binary_round_aux.
  rewrite shr_fexp_noshift by lia. cbn [shr_record_of_loc shr_m loc_of_shr_record round_nearest_even].
  rewrite shr_fexp_noshift by lia. cbn [shr_record_of_loc shr_m].
  assert ((ex <=? emax - prec) = true) as ->; [|reflexivity].
  apply Z.leb_le. unfold emax, prec. lia.
Qed.

Lemma iter_xO_value (p d : positive) : Zpos (Pos.iter xO p d) = Zpos p * 2 ^ Zpos d.
Proof.
  revert p. induction d as [|d IH] using Pos.peano_ind; intros p.
  - cbn [Pos.iter]. rewrite Pos2Z.inj_xO. lia.
  - rewrite Pos.iter_succ, Pos2Z.inj_xO, IH, Pos2Z.inj_succ, Z.pow_succ_r by lia. lia.
Qed.

Lemma iter_xO_digits (p d : positive) :
  digits2_pos (Pos.iter xO p d) = (digits2_pos p + d)%positive.
Proof.
  revert p. induction d as [|d IH] using Pos.peano_ind; intros p.
  - simpl. lia.
  - rewrite Pos.iter_succ. simpl digits2_pos. rewrite IH. lia.
Qed.

(** Integers of at most 53 digits convert exactly. *)
Lemma binary_round_small (s : bool) (p : positive) :
  Zpos (digits2_pos p) <= 53 ->
  exists m, Zpos m = Zpos p * 2 ^ (53 - Zpos (digits2_pos p)) /\
            Zpos (digits2_pos m) = 53 /\
            binary_round prec emax s p 0 = S754_finite s m (Zpos (digits2_pos p) - 53).
Proof.
  intros Hd. unfold binary_round, shl_align.
  rewrite fexp_linear by lia.
  destruct (Z.pos (digits2_pos p) + 0 - 53 - 0) as [|q|q] eqn:E; try lia.
  - exists p. assert (Zpos (digits2_pos p) = 53) as Hd53 by lia.
    split; [rewrite Hd53; simpl; lia|split; [exact Hd53|]].
    replace (Zpos (digits2_pos p) - 53) with 0 by lia.
    apply binary_round_aux_canonical; [exact Hd53|lia].
  - exists (Pos.iter xO p q).
    assert (Zpos q = 53 - Zpos (digits2_pos p)) as Hq by lia.
    split; [rewrite iter_xO_value, Hq; reflexivity|].
    assert (Zpos (digits2_pos (Pos.iter xO p q)) = 53) as Hd53
      by (rewrite iter_xO_digits; lia).
    split; [exact Hd53|].
    replace (Z.pos (digits2_pos p) + 0 - 53) with (Zpos (digits2_pos p) - 53) by lia.
    apply binary_round_aux_canonical; [exact Hd53|lia].
Qed.

(** Any non-zero integer of up to 64 digits converts to a finite non-zero
    float. *)
Lemma binary_round_int_finite (s : bool) (p : positive) :
  Zpos (digits2_pos p) <= 64 ->
  exists m e, binary_round prec emax s p 0 = S754_finite s m e.
Proof.
  intros Hd. destruct (Z_le_gt_dec (Zpos (digits2_pos p)) 53) as [Hs|Hb].
  - destruct (binary_round_small s p Hs) as (m & _ & _ & H). eauto.
  - unfold binary_round, shl_align. rewrite fexp_linear by lia.
    destruct (Z.pos (digits2_pos p) + 0 - 53 - 0) as [|q|q] eqn:E; try lia.
    destruct (binary_round_aux_shape s p 0 loc_Exact) as (_ & _ & m & _ & H); [lia|lia|].
    eauto.
Qed.

Lemma SFopp_binary_round_aux (s : bool) (m e : Z) (l : location) :
  SFopp (binary_round_aux prec emax s m e l) = binary_round_aux prec emax (negb s) m e l.
Proof.
  unfold binary_round_aux. destruct (shr_fexp prec emax m e l) as [r1 e1].
  destruct (shr_fexp prec emax _ e1 loc_Exact) as [r2 e2].
  destruct (shr_m r2); try reflexivity. now destruct (e2 <=? emax - prec).
Qed.

Lemma SFopp_binary_round (s : bool) (p : positive) (e : Z) :
  SFopp (binary_round prec emax s p e) = binary_round prec emax (negb s) p e.
Proof.
  unfold binary_round. destruct (shl_align _ _ _). apply SFopp_binary_round_aux.
Qed.

Lemma int_digits (p : positive) : Zpos p <= 2 ^ 63 -> Zpos (digits2_pos p) <= 64.
Proof.
  intros H. pose proof (digits_bounds p) as [Hlo _].
  assert (2 ^ (Zpos (digits2_pos p) - 1) < 2 ^ 64) as Hlt by lia.
  apply Z.pow_lt_mono_r_iff in Hlt; lia.
Qed.

(** [float64_of_int] is rounding to nearest, ties to even. *)
Lemma float64_of_int_SF (z : Z) :
  is_int z -> Prim2SF (float64_of_int z) = binary_normalize prec emax z 0 false.
Proof.
  unfold float64_of_int. unfold is_int, int_min, int_max. intros Hz.
  destruct (Z.eqb_spec z (- 2 ^ 63)) as [->|Hne]; [now vm_compute|].
  destruct (Z.leb_spec 0 z) as [Hpos|Hneg].
  - rewrite of_uint63_spec, Uint63.of_Z_spec.
    rewrite Z.mod_small; [reflexivity|]. change wB with (2 ^ 63). lia.
  - rewrite FloatAxioms.opp_spec, of_uint63_spec, Uint63.of_Z_spec.
    rewrite Z.mod_small by (change wB with (2 ^ 63); lia).
    destruct z as [|p|p]; try lia. change (- Z.neg p) with (Zpos p).
    unfold binary_normalize. now rewrite SFopp_binary_round.
Qed.

Lemma float64_of_int_finite (z : Z) :
  is_int z -> z <> 0 ->
  exists m e, Prim2SF (float64_of_int z) = S754_finite (z <? 0) m e.
Proof.
  intros Hz Hnz. rewrite (float64_of_int_SF z Hz).
  unfold is_int, int_min, int_max in Hz.
  destruct z as [|p|p]; [lia| |]; cbn [binary_normalize];
    apply binary_round_int_finite; apply int_digits; lia.
Qed.

Lemma float64_of_int_eqb_zero (z : Z) :
  is_int z -> (float64_of_int z =? 0)%float = (z =? 0).
Proof.
  intros Hz. destruct (Z.eqb_spec z 0) as [->|Hnz]; [reflexivity|].
  destruct (float64_of_int_finite z Hz Hnz) as (m & e & H).
  rewrite FloatAxioms.eqb_spec, H. now destruct (z <? 0).
Qed.

Lemma div_eucl_pair (a b : Z) : Z.div_eucl a b = (a / b, a mod b).
Proof. unfold Z.div, Z.modulo. now destruct (Z.div_eucl a b). Qed.

Lemma new_location_zero (m : Z) : new_location m 0 = loc_Exact.
Proof. unfold new_location. now destruct (Z.even m). Qed.

(** Dividing a finite float by itself gives one. *)
Lemma SFdiv_self (s : bool) (m : positive) (e : Z) :
  SFdiv prec emax (S754_finite s m e) (S754_finite s m e) = Prim2SF 1.
Proof.
  unfold SFdiv, SFdiv_core_binary.
  replace (Zdigits2 (Z.pos m) + e - (Zdigits2 (Z.pos m) + e)) with 0 by lia.
  replace (e - e) with 0 by lia.
  change (Z.min (fexp prec emax 0) 0) with (-53). change (0 - -53) with 53.
  cbv iota. rewrite div_eucl_pair, Z.shiftl_mul_pow2 by lia.
  rewrite (Z.mul_comm (Zpos m)), Z.div_mul, Z.mod_mul by lia.
  rewrite new_location_zero. now destruct s.
Qed.

(** Dividing a finite float by its double gives one half. *)
Lemma SFdiv_double (s : bool) (m : positive) (e : Z) :
  SFdiv prec emax (S754_finite s m e) (S754_finite s m (e + 1)) = Prim2SF 0.5.
Proof.
  unfold SFdiv, SFdiv_core_binary.
  replace (Zdigits2 (Z.pos m) + e - (Zdigits2 (Z.pos m) + (e + 1))) with (-1) by lia.
  replace (e - (e + 1)) with (-1) by lia.
  change (Z.min (fexp prec emax (-1)) (-1)) with (-54). change (-1 - -54) with 53.
  cbv iota. rewrite div_eucl_pair, Z.shiftl_mul_pow2 by lia.
  rewrite (Z.mul_comm (Zpos m)), Z.div_mul, Z.mod_mul by lia.
  rewrite new_location_zero. now destruct s.
Qed.

Lemma div_self_scaled (x : float) (s : bool) (m : positive) (e : Z) :
  Prim2SF x = S754_finite s m e -> (x / x * 200 - 100)%float = 100%float.
Proof.
  intros H. apply Prim2SF_inj.
  rewrite FloatAxioms.sub_spec, FloatAxioms.mul_spec, FloatAxioms.div_spec, H. unfold SF64sub, SF64mul, SF64div.
  rewrite SFdiv_self. reflexivity.
Qed.

Lemma div_double_scaled (x y : float) (s : bool) (m : positive) (e : Z) :
  Prim2SF x = S754_finite s m e -> Prim2SF y = S754_finite s m (e + 1) ->
  (x / y * 200 - 100)%float = 0%float.
Proof.
  intros Hx Hy. apply Prim2SF_inj.
  rewrite FloatAxioms.sub_spec, FloatAxioms.mul_spec, FloatAxioms.div_spec, Hx, Hy. unfold SF64sub, SF64mul, SF64div.
  rewrite SFdiv_double. reflexivity.
Qed.

Lemma div_zero_scaled (y : float) (s : bool) (m : positive) (e : Z) :
  Prim2SF y = S754_finite s m e -> (0 / y * 200 - 100)%float = (-100)%float.
Proof.
  intros Hy. apply Prim2SF_inj.
  rewrite FloatAxioms.sub_spec, FloatAxioms.mul_spec, FloatAxioms.div_spec, Hy. now destruct s.
Qed.

Lemma Zdigits2_nonneg (z : Z) : 0 <= Zdigits2 z.
Proof. destruct z; simpl; lia. Qed.

Lemma shr_fexp_exp_succ (M e : Z) (l : location) :
  -1000 <= e ->
  shr_fexp prec emax M (e + 1) l
  = (fst (shr_fexp prec emax M e l), snd (shr_fexp prec emax M e l) + 1).
Proof.
  intros He. pose proof (Zdigits2_nonneg M). unfold shr_fexp.
  rewrite !fexp_linear by lia.
  replace (Zdigits2 M + (e + 1) - 53 - (e + 1)) with (Zdigits2 M - 53) by lia.
  replace (Zdigits2 M + e - 53 - e) with (Zdigits2 M - 53) by lia.
  unfold shr. destruct (Zdigits2 M - 53); cbn [fst snd]; f_equal; lia.
Qed.

Lemma binary_round_big (s : bool) (p : positive) :
  53 <= Zpos (digits2_pos p) ->
  binary_round prec emax s p 0 = binary_round_aux prec emax s (Zpos p) 0 loc_Exact.
Proof.
  intros Hd. unfold binary_round, shl_align. rewrite fexp_linear by lia.
  destruct (Z.pos (digits2_pos p) + 0 - 53 - 0) eqn:E; try reflexivity. lia.
Qed.

Lemma shr_fexp_double (p : positive) :
  53 <= Zpos (digits2_pos p) ->
  shr_fexp prec emax (Zpos p~0) 0 loc_Exact
  = (fst (shr_fexp prec emax (Zpos p) 0 loc_Exact),
     snd (shr_fexp prec emax (Zpos p) 0 loc_Exact) + 1).
Proof.
  intros Hd. unfold shr_fexp. cbn [Zdigits2 digits2_pos].
  rewrite !fexp_linear by lia.
  replace (Z.pos (Pos.succ (digits2_pos p)) + 0 - 53 - 0)
    with (Z.succ (Z.pos (digits2_pos p) + 0 - 53 - 0)) by lia.
  destruct (Z.pos (digits2_pos p) + 0 - 53 - 0) as [|q|q] eqn:E; try lia.
  - reflexivity.
  - rewrite <- Pos2Z.inj_succ. unfold shr. cbn [fst snd].
    rewrite !iter_pos_nat, Pos2Nat.inj_succ, Nat.iter_succ_r.
    f_equal. lia.
Qed.

(** Doubling an integer only moves the exponent of its float. *)
Lemma binary_round_double (s s' : bool) (p m : positive) (e : Z) :
  Zpos (digits2_pos p) <= 63 ->
  binary_round prec emax s p 0 = S754_finite s' m e ->
  binary_round prec emax s p~0 0 = S754_finite s' m (e + 1).
Proof.
  intros Hd H. destruct (Z_le_gt_dec (Zpos (digits2_pos p)) 52) as [Hs|Hb].
  - destruct (binary_round_small s p) as (m1 & Hm1 & _ & H1); [lia|].
    destruct (binary_round_small s p~0) as (m2 & Hm2 & _ & H2); [cbn [digits2_pos]; lia|].
    rewrite H1 in H. injection H as <- <- <-. rewrite H2.
    cbn [digits2_pos] in *. f_equal.
    + apply Pos2Z.inj. rewrite Hm1, Hm2, Pos2Z.inj_xO.
      replace (53 - Z.pos (digits2_pos p)) with (Z.succ (53 - Z.pos (Pos.succ (digits2_pos p)))) by lia.
      rewrite Z.pow_succ_r by lia. lia.
    + lia.
  - rewrite binary_round_big in H by lia.
    rewrite binary_round_big by (cbn [digits2_pos]; lia).
    destruct (binary_round_aux_shape s p 0 loc_Exact) as (_ & _ & mP & HmP & HP); [lia|lia|].
    destruct (binary_round_aux_shape s p~0 0 loc_Exact) as (_ & _ & mQ & HmQ & HQ);
      [lia|cbn [digits2_pos]; lia|].
    rewrite shr_fexp_double in HmQ, HQ by lia. cbn [fst] in HmQ, HQ.
    rewrite HmP in HmQ. injection HmQ as <-.
    rewrite HP in H. injection H as <- <- <-.
    rewrite HQ. f_equal. cbn [digits2_pos]. lia.
Qed.

Lemma wrap_int (z : Z) : is_int z -> wrap z = z.
Proof.
  unfold is_int, wrap, int_min, int_max. intros H.
  rewrite Z.mod_small; lia.
Qed.

Lemma wrap_is_int (z : Z) : is_int (wrap z).
Proof.
  unfold is_int, wrap, int_min, int_max.
  pose proof (Z.mod_pos_bound (z + 2 ^ 63) (2 ^ 64)). lia.
Qed.

Lemma wrap_sub_zero (a b : Z) : is_int a -> is_int b -> wrap (a - b) = 0 <-> a = b.
Proof.
  unfold is_int, wrap, int_min, int_max. intros Ha Hb. split.
  - intros H. Z.to_euclidean_division_equations. lia.
  - intros ->. rewrite Z.sub_diag. reflexivity.
Qed.

Lemma float64_of_int_double (k : Z) (s : bool) (m : positive) (e : Z) :
  is_int (2 * k) ->
  Prim2SF (float64_of_int k) = S754_finite s m e ->
  Prim2SF (float64_of_int (2 * k)) = S754_finite s m (e + 1).
Proof.
  intros H2k. assert (is_int k) as Hk by (unfold is_int, int_min, int_max in *; lia).
  rewrite (float64_of_int_SF _ Hk), (float64_of_int_SF _ H2k).
  unfold is_int, int_min, int_max in *.
  destruct k as [|p|p]; [discriminate| |].
  - change (2 * Z.pos p) with (Zpos p~0). unfold binary_normalize.
    apply binary_round_double.
    pose proof (digits_bounds p) as [Hlo _].
    assert (2 ^ (Zpos (digits2_pos p) - 1) < 2 ^ 63) as Hlt by lia.
    apply Z.pow_lt_mono_r_iff in Hlt; lia.
  - change (2 * Z.neg p) with (Zneg p~0). unfold binary_normalize.
    apply binary_round_double.
    pose proof (digits_bounds p) as [Hlo _].
    assert (2 ^ (Zpos (digits2_pos p) - 1) < 2 ^ 63) as Hlt by lia.
    apply Z.pow_lt_mono_r_iff in Hlt; lia.
Qed.

Lemma Normalize_degenerate (c : MotorCalibration) (raw : Z) :
  RangeMin c = RangeMax c -> Normalize c raw = 0%float.
Proof. intros H. unfold Normalize. rewrite H, Z.sub_diag. reflexivity. Qed.

Lemma Normalize_formula (c : MotorCalibration) (raw : Z) :
  is_int (RangeMin c) -> is_int (RangeMax c) -> RangeMin c <> RangeMax c ->
  Normalize c raw
  = (float64_of_int (wrap (raw - RangeMin c))
       / float64_of_int (wrap (RangeMax c - RangeMin c)) * 200 - 100)%float.
Proof.
  intros Hlo Hhi Hne. unfold Normalize.
  rewrite float64_of_int_eqb_zero by apply wrap_is_int.
  destruct (Z.eqb_spec (wrap (RangeMax c - RangeMin c)) 0) as [H0|_]; [|reflexivity].
  apply (proj1 (wrap_sub_zero _ _ Hhi Hlo)) in H0. congruence.
Qed.

(** C7, as the code has it.  On 64-bit ints, [Normalize raw] is 0 when
    [rangeMin = rangeMax]; otherwise it is
    [((raw - rangeMin) / (rangeMax - rangeMin)) * 200 - 100] evaluated in
    [float64] on Go's wrapping differences, with no clamping (3500 and 500
    on the range 1000..3000 give 150 and -150).  So [Normalize rangeMin] is
    -100 and [Normalize rangeMax] is 100, and the midpoint
    [rangeMin + k] of a range of even span [2 * k] normalises to 0 whenever
    that span is an [int], that is, whenever it does not overflow. *)
Theorem Normalize_linear_rescale (c : MotorCalibration) (raw : Z) :
  is_int (RangeMin c) -> is_int (RangeMax c) -> is_int raw ->
  (RangeMin c = RangeMax c -> Normalize c raw = 0%float) /\
  (RangeMin c <> RangeMax c ->
   Normalize c raw
   = (float64_of_int (wrap (raw - RangeMin c))
        / float64_of_int (wrap (RangeMax c - RangeMin c)) * 200 - 100)%float /\
   Normalize c (RangeMin c) = (-100)%float /\
   Normalize c (RangeMax c) = 100%float /\
   forall k, RangeMax c - RangeMin c = 2 * k -> is_int (2 * k) ->
             Normalize c (RangeMin c + k) = 0%float) /\
  Normalize (cal 1000 3000) 3500 = 150%float /\
  Normalize (cal 1000 3000) 500 = (-150)%float.
Proof.
  intros Hlo Hhi Hraw. split; [apply Normalize_degenerate|split; [|split; reflexivity]].
  intros Hne.
  assert (wrap (RangeMax c - RangeMin c) <> 0) as HN
    by (intros H0; apply (proj1 (wrap_sub_zero _ _ Hhi Hlo)) in H0; congruence).
  destruct (float64_of_int_finite _ (wrap_is_int (RangeMax c - RangeMin c)) HN)
    as (m & e & HxN).
  split; [now apply Normalize_formula|split; [|split]].
  - rewrite Normalize_formula by assumption. rewrite Z.sub_diag.
    change (float64_of_int (wrap 0)) with 0%float.
    exact (div_zero_scaled _ _ m e HxN).
  - rewrite Normalize_formula by assumption.
    exact (div_self_scaled _ _ m e HxN).
  - intros k Hk H2k. rewrite Normalize_formula by assumption.
    replace (RangeMin c + k - RangeMin c) with k by lia.
    assert (is_int k) as Hik by (unfold is_int, int_min, int_max in *; lia).
    rewrite Hk, (wrap_int _ Hik), (wrap_int _ H2k).
    assert (k <> 0) as Hk0 by (rewrite Hk, (wrap_int _ H2k) in HN; lia).
    destruct (float64_of_int_finite k Hik Hk0) as (mk & ek & Hxk).
    apply (div_double_scaled _ _ (k <? 0) mk ek Hxk).
    now apply float64_of_int_double.
Qed.

Lemma Normalize_linear_rescale_witness :
  Normalize (cal 1000 3000) 1000 = (-100)%float /\
  Normalize (cal 1000 3000) 3000 = 100%float /\
  Normalize (cal 1000 3000) 2000 = 0%float /\
  Normalize (cal 1000 3000) 1500 = (-50)%float /\
  Normalize (cal 1000 3000) 2500 = 50%float /\
  Normalize (cal 7 7) 1500 = 0%float.
Proof.
  assert (is_int 1000 /\ is_int 3000 /\ is_int 1500 /\ is_int 7 /\ is_int 2000)
    as (H1 & H3 & H15 & H7 & H2)
    by (unfold is_int, int_min, int_max; lia).
  destruct (Normalize_linear_rescale (cal 1000 3000) 1500 H1 H3 H15)
    as (_ & Hne & _).
  destruct Hne as (_ & Hmin & Hmax & Hmid); [discriminate|].
  destruct (Normalize_linear_rescale (cal 7 7) 1500 H7 H7 H15) as (Hdeg & _).
  split; [exact Hmin|split; [exact Hmax|split; [|split; [|split]]]].
  - exact (Hmid 1000 eq_refl H2).
  - reflexivity.
  - reflexivity.
  - exact (Hdeg eq_refl).
Defined.

(** ** Integers as floats *)

(** The float of a small non-negative integer. *)
Lemma of_uint63_small (j : Z) :
  0 < j < 2 ^ 53 ->
  exists m E, 0 <= E <= 52 /\ Zpos m = j * 2 ^ E /\ 2 ^ 52 <= Zpos m < 2 ^ 53 /\
              Prim2SF (of_uint63 (Uint63.of_Z j)) = S754_finite false m (- E).
Proof.
  intros Hj. rewrite of_uint63_spec, Uint63.of_Z_spec.
  rewrite Z.mod_small by (change wB with (2 ^ 63); lia).
  destruct j as [|p|p]; try lia. unfold binary_normalize.
  pose proof (digits_bounds p) as [Hlo Hhi].
  assert (Zpos (digits2_pos p) <= 53) as Hd.
  { assert (2 ^ (Zpos (digits2_pos p) - 1) < 2 ^ 53) as Hlt by lia.
    apply Z.pow_lt_mono_r_iff in Hlt; lia. }
  destruct (binary_round_small false p Hd) as (m & Hm & Hdm & H).
  exists m, (53 - Zpos (digits2_pos p)). split; [lia|split; [exact Hm|split]].
  - pose proof (digits_bounds m) as Hb. rewrite Hdm in Hb. exact Hb.
  - rewrite H. f_equal. lia.
Qed.

(** ** One rounding, on the rationals *)

Lemma Rep_shr_1 (st : shr_record) (a b : Z) : Rep st a b -> Rep (shr_1 st) a (2 * b).
Proof.
  intros (Ha & Hb & Hm & Hrs).
  pose proof (Z.div_mod a b ltac:(lia)) as Hdm.
  pose proof (Z.mod_pos_bound a b Hb) as Hmb.
  assert (0 <= a / b) as Hq by (apply Z.div_pos; lia).
  destruct st as [m r s]. cbn [shr_m shr_r shr_s] in *. subst m.
  set (q := a / b) in *. set (t := a mod b) in *.
  assert (forall p bit, q = 2 * p + bit -> 0 <= bit <= 1 ->
            a / (2 * b) = p /\ a mod (2 * b) = bit * b + t) as Hkey.
  { intros p bit Hqp Hbit.
    assert (a = 2 * b * p + (bit * b + t)) as Ha' by nia.
    assert (0 <= bit * b + t < 2 * b) as Hr by nia.
    split.
    - symmetry. apply (Z.div_unique a (2 * b) p (bit * b + t)); [left; exact Hr|exact Ha'].
    - symmetry. apply (Z.mod_unique a (2 * b) p (bit * b + t)); [left; exact Hr|exact Ha']. }
  unfold Rep. split; [exact Ha|split; [lia|]].
  destruct q as [|[p|p|]|p] eqn:Eq; try lia; cbn [shr_1 shr_m shr_r shr_s].
  - destruct (Hkey 0 0) as [H1 H2]; [lia|lia|]. rewrite H1, H2.
    split; [reflexivity|]. destruct r, s; cbn [orb]; lia.
  - destruct (Hkey (Zpos p) 1) as [H1 H2]; [lia|lia|]. rewrite H1, H2.
    split; [reflexivity|]. destruct r, s; cbn [orb]; lia.
  - destruct (Hkey (Zpos p) 0) as [H1 H2]; [lia|lia|]. rewrite H1, H2.
    split; [reflexivity|]. destruct r, s; cbn [orb]; lia.
  - destruct (Hkey 0 1) as [H1 H2]; [lia|lia|]. rewrite H1, H2.
    split; [reflexivity|]. destruct r, s; cbn [orb]; lia.
Qed.

Lemma Rep_iter (k : nat) : forall st a b,
  Rep st a b -> Rep (Nat.iter k shr_1 st) a (b * 2 ^ Z.of_nat k).
Proof.
  induction k as [|k IH]; intros st a b H.
  - cbn [Nat.iter]. now rewrite Z.mul_1_r.
  - rewrite Nat.iter_succ_r. specialize (IH _ _ _ (Rep_shr_1 _ _ _ H)).
    rewrite Nat2Z.inj_succ, Z.pow_succ_r by lia.
    replace (b * (2 * 2 ^ Z.of_nat k)) with (2 * b * 2 ^ Z.of_nat k) by lia. exact IH.
Qed.

Lemma Rep_shr (st : shr_record) (a b e n : Z) :
  Rep st a b -> Rep (fst (shr st e n)) a (b * 2 ^ Z.max 0 n).
Proof.
  intros H. destruct n as [|p|p]; cbn [shr fst].
  - now rewrite Z.mul_1_r.
  - rewrite iter_pos_nat. replace (Z.max 0 (Zpos p)) with (Z.of_nat (Pos.to_nat p)) by lia.
    now apply Rep_iter.
  - now rewrite Z.mul_1_r.
Qed.

Lemma Rep_round (st : shr_record) (a b : Z) :
  Rep st a b ->
  let M := round_nearest_even (shr_m st) (loc_of_shr_record st) in
  - b <= 2 * (M * b - a) <= b.
Proof.
  intros (Ha & Hb & Hm & Hrs) M.
  pose proof (Z.div_mod a b ltac:(lia)) as Hdm.
  pose proof (Z.mod_pos_bound a b Hb) as Hmb.
  destruct st as [m r s]. cbn [shr_m shr_r shr_s] in *. subst M m.
  destruct r, s; cbn [loc_of_shr_record round_nearest_even]; try nia.
  destruct (Z.even (a / b)); nia.
Qed.

Lemma Rep_exact (m : Z) : 0 <= m -> Rep (shr_record_of_loc m loc_Exact) m 1.
Proof.
  intros H. unfold Rep. cbn [shr_record_of_loc shr_m shr_r shr_s].
  rewrite Z.div_1_r, Z.mod_1_r. lia.
Qed.

Lemma Rep_division (q r m2 : Z) :
  0 <= q -> 0 <= r < m2 ->
  Rep (shr_record_of_loc q (new_location m2 r)) (q * m2 + r) m2.
Proof.
  intros Hq Hr.
  assert ((q * m2 + r) / m2 = q) as Hdiv
    by (symmetry; apply (Z.div_unique _ m2 q r); [left; exact Hr|lia]).
  assert ((q * m2 + r) mod m2 = r) as Hmod
    by (symmetry; apply (Z.mod_unique _ m2 q r); [left; exact Hr|lia]).
  unfold Rep. rewrite shr_record_of_loc_m, Hdiv, Hmod.
  split; [nia|split; [lia|split; [reflexivity|]]].
  unfold new_location, new_location_even, new_location_odd.
  destruct (Z.even m2) eqn:Hev.
  - destruct (Z.eqb_spec r 0) as [->|Hr0]; [reflexivity|].
    destruct (Z.compare_spec (2 * r) m2); cbn [shr_record_of_loc shr_r shr_s]; lia.
  - destruct (Z.eqb_spec r 0) as [->|Hr0]; [reflexivity|].
    assert (2 * r <> m2) as Hodd.
    { intros E. rewrite <- E in Hev. rewrite Z.even_mul in Hev. discriminate. }
    destruct (Z.compare_spec (2 * r + 1) m2); cbn [shr_record_of_loc shr_r shr_s]; lia.
Qed.

Lemma digits_unique (p : positive) (d : Z) :
  2 ^ (d - 1) <= Zpos p < 2 ^ d -> Zpos (digits2_pos p) = d.
Proof.
  intros [Hlo Hhi]. pose proof (digits_bounds p) as [Hlo' Hhi'].
  assert (0 < d).
  { destruct (Z_lt_le_dec 0 d); [assumption|].
    assert (2 ^ d <= 2 ^ 0) by (destruct (Z.eq_dec d 0) as [->|]; [lia|rewrite Z.pow_neg_r by lia; lia]).
    change (2 ^ 0) with 1 in *. lia. }
  assert (Zpos (digits2_pos p) - 1 < d) as H1.
  { apply (Z.pow_lt_mono_r_iff 2); lia. }
  assert (d - 1 < Zpos (digits2_pos p)) as H2.
  { apply (Z.pow_lt_mono_r_iff 2); lia. }
  lia.
Qed.

(** [binary_round_aux] on a mantissa of at least 53 digits that stands for
    [a / b]: the result is a 53-digit float within half a unit of the
    shifted mantissa from [a / b]. *)
Lemma binary_round_aux_value (s : bool) (mx : positive) (ex : Z) (l : location) (a b : Z) :
  Rep (shr_record_of_loc (Zpos mx) l) a b ->
  -1000 <= ex -> ex + Zpos (digits2_pos mx) <= 971 -> 53 <= Zpos (digits2_pos mx) ->
  exists m n,
    binary_round_aux prec emax s (Zpos mx) ex l = S754_finite s m (ex + n) /\
    Zpos (digits2_pos m) = 53 /\
    Zpos (digits2_pos mx) - 53 <= n <= Zpos (digits2_pos mx) - 52 /\
    - (b * 2 ^ (Zpos (digits2_pos mx) - 53)) <= 2 * (Zpos m * 2 ^ n * b - a)
      <= b * 2 ^ (Zpos (digits2_pos mx) - 53).
Proof.
  intros HRep Hlo Hhi Hd.
  set (d := Zpos (digits2_pos mx)) in *.
  destruct (binary_round_aux_shape s mx ex l Hlo Hhi) as (Hm1 & HMpos & m & Hm & Hres).
  fold d in Hm1, Hm, Hres. replace (Z.max 0 (d - 53)) with (d - 53) in * by lia.
  set (st1 := fst (shr_fexp prec emax (Zpos mx) ex l)) in *.
  set (M := round_nearest_even (shr_m st1) (loc_of_shr_record st1)) in *.
  assert (Rep st1 a (b * 2 ^ (d - 53))) as HRep1.
  { subst st1. unfold shr_fexp. cbn [Zdigits2]. fold d. rewrite fexp_linear by lia.
    replace (d + ex - 53 - ex) with (d - 53) by lia.
    replace (d - 53) with (Z.max 0 (d - 53)) at 2 by lia. now apply Rep_shr. }
  pose proof (Rep_round _ _ _ HRep1) as Hround. cbv zeta in Hround. fold M in Hround.
  pose proof (digits_bounds mx) as Hdb. fold d in Hdb.
  assert (2 ^ 52 <= Zpos mx / 2 ^ (d - 53) < 2 ^ 53) as Hq.
  { split.
    - replace 52 with (d - 1 - (d - 53)) by lia. apply pow2_div_lower; lia.
    - replace 53 with (d - (d - 53)) at 2 by lia. apply pow2_div_upper; lia. }
  pose proof (round_nearest_even_bounds (shr_m st1) (loc_of_shr_record st1)) as HMb.
  fold M in HMb. rewrite Hm1 in HMb.
  assert (exists n2, 0 <= n2 <= 1 /\ Z.max 0 (Zdigits2 M - 53) = n2 /\
                     Zpos m * 2 ^ n2 = M /\ 2 ^ 52 <= Zpos m < 2 ^ 53) as (n2 & Hn2 & En2 & HmM & Hmb).
  { destruct (Z_lt_le_dec M (2 ^ 53)) as [Hlt|Hge].
    - exists 0. destruct M as [|pM|pM] eqn:EM; try lia.
      assert (Zdigits2 (Zpos pM) = 53) as HdM by (cbn [Zdigits2]; apply digits_unique; lia).
      rewrite HdM in Hm |- *. cbn in Hm. rewrite Z.div_1_r in Hm.
      split; [lia|split; [reflexivity|]]. rewrite <- Hm. lia.
    - exists 1. assert (M = 2 ^ 53) as HM by lia.
      rewrite HM in Hm |- *. cbn in Hm |- *.
      split; [lia|split; [reflexivity|]]. injection Hm as <-. lia. }
  exists m, (d - 53 + n2). rewrite En2 in Hres.
  split; [rewrite Hres; f_equal; lia|].
  split; [apply digits_unique; lia|split; [lia|]].
  replace (Zpos m * 2 ^ (d - 53 + n2) * b) with (M * (b * 2 ^ (d - 53))).
  - exact Hround.
  - rewrite Z.pow_add_r by lia. rewrite <- HmM. lia.
Qed.

(** ** One rounding, on the reals *)

Lemma pow2_pos (e : Z) : (0 < pow2 e)%R.
Proof. apply powerRZ_lt. lra. Qed.

Lemma pow2_add (a b : Z) : pow2 (a + b) = (pow2 a * pow2 b)%R.
Proof. apply powerRZ_add. lra. Qed.

Lemma pow2_IZR (n : Z) : 0 <= n -> pow2 n = IZR (2 ^ n).
Proof.
  intros H. unfold pow2. rewrite <- (Z2Nat.id n H) at 1.
  rewrite <- pow_powerRZ. rewrite pow_IZR. now rewrite Z2Nat.id.
Qed.

Lemma pow2_0 : pow2 0 = 1%R.
Proof. reflexivity. Qed.

Lemma pow2_sub (a b : Z) : pow2 (a - b) = (pow2 a / pow2 b)%R.
Proof.
  unfold Z.sub. rewrite pow2_add. unfold pow2 at 2. rewrite powerRZ_neg'. reflexivity.
Qed.

Lemma pow2_le (a b : Z) : a <= b -> (pow2 a <= pow2 b)%R.
Proof.
  intros H. replace b with (a + (b - a)) by lia. rewrite pow2_add.
  rewrite (pow2_IZR (b - a)) by lia.
  assert (1 <= 2 ^ (b - a)) by (apply (Z.pow_le_mono_r 2 0); lia).
  assert (1 <= IZR (2 ^ (b - a)))%R by (now apply IZR_le).
  pose proof (pow2_pos a). nra.
Qed.

Lemma binary_round_exact (s : bool) (p : positive) (e : Z) :
  Zpos (digits2_pos p) <= 53 -> -900 <= e <= 900 ->
  exists m, Zpos m = Zpos p * 2 ^ (53 - Zpos (digits2_pos p)) /\
            Zpos (digits2_pos m) = 53 /\
            binary_round prec emax s p e
            = S754_finite s m (e + Zpos (digits2_pos p) - 53).
Proof.
  intros Hd He. unfold binary_round, shl_align.
  rewrite fexp_linear by lia.
  destruct (Z.pos (digits2_pos p) + e - 53 - e) as [|q|q] eqn:E; try lia.
  - exists p. assert (Zpos (digits2_pos p) = 53) as Hd53 by lia.
    split; [rewrite Hd53; simpl; lia|split; [exact Hd53|]].
    replace (e + Zpos (digits2_pos p) - 53) with e by lia.
    apply binary_round_aux_canonical; [exact Hd53|lia].
  - exists (Pos.iter xO p q).
    assert (Zpos q = 53 - Zpos (digits2_pos p)) as Hq by lia.
    split; [rewrite iter_xO_value, Hq; reflexivity|].
    assert (Zpos (digits2_pos (Pos.iter xO p q)) = 53) as Hd53
      by (rewrite iter_xO_digits; lia).
    split; [exact Hd53|].
    replace (Z.pos (digits2_pos p) + e - 53) with (e + Zpos (digits2_pos p) - 53) by lia.
    apply binary_round_aux_canonical; [exact Hd53|lia].
Qed.

Lemma binary_round_rounds (s : bool) (p : positive) (e : Z) :
  53 <= Zpos (digits2_pos p) -> -900 <= e ->
  binary_round prec emax s p e = binary_round_aux prec emax s (Zpos p) e loc_Exact.
Proof.
  intros Hd He. unfold binary_round, shl_align. rewrite fexp_linear by lia.
  destruct (Z.pos (digits2_pos p) + e - 53 - e) eqn:E; try reflexivity. lia.
Qed.

(** Rounding a scaled integer: a 53-digit float within relative error
    [2^-53] of it. *)
Lemma binary_round_real (s : bool) (p : positive) (e : Z) :
  -900 <= e -> e + Zpos (digits2_pos p) <= 900 ->
  exists m e',
    binary_round prec emax s p e = S754_finite s m e' /\
    Zpos (digits2_pos m) = 53 /\
    e + Zpos (digits2_pos p) - 53 <= e' <= e + Zpos (digits2_pos p) - 52 /\
    (Rabs (IZR (Zpos m) * pow2 e' - IZR (Zpos p) * pow2 e)
     <= u64 * (IZR (Zpos p) * pow2 e))%R.
Proof.
  intros Hlo Hhi. set (d := Zpos (digits2_pos p)) in *.
  assert (0 < d) as Hdpos by (unfold d; lia).
  pose proof (pow2_pos e) as Hpe.
  assert (0 < IZR (Zpos p))%R as HP by (apply IZR_lt; lia).
  destruct (Z_le_gt_dec d 53) as [Hs|Hb].
  - destruct (binary_round_exact s p e Hs ltac:(lia)) as (m & Hm & Hdm & H).
    fold d in Hm, H. exists m, (e + d - 53).
    split; [exact H|split; [exact Hdm|split; [lia|]]].
    replace (IZR (Zpos m) * pow2 (e + d - 53))%R with (IZR (Zpos p) * pow2 e)%R.
    + replace (IZR (Z.pos p) * pow2 e - IZR (Z.pos p) * pow2 e)%R with 0%R by ring.
      rewrite Rabs_R0. unfold u64. pose proof (pow2_pos (-53)).
      apply Rmult_le_pos; [lra|apply Rmult_le_pos; lra].
    + rewrite Hm, mult_IZR, <- pow2_IZR by lia.
      assert (pow2 e = pow2 (53 - d) * pow2 (e + d - 53))%R as ->; [|ring].
      rewrite <- pow2_add. f_equal. lia.
  - rewrite binary_round_rounds by (fold d; lia).
    destruct (binary_round_aux_value s p e loc_Exact (Zpos p) 1) as (m & n & H & Hdm & Hn & Herr);
      [apply Rep_exact; lia|lia|fold d; lia|fold d; lia|].
    fold d in Hn, Herr. exists m, (e + n).
    split; [exact H|split; [exact Hdm|split; [lia|]]].
    pose proof (digits_bounds p) as [Hplo _]. fold d in Hplo.
    assert (IZR (Zpos m) * pow2 (e + n) = IZR (Zpos m * 2 ^ n) * pow2 e)%R as ->.
    { rewrite mult_IZR, <- pow2_IZR by lia. rewrite pow2_add. ring. }
    rewrite <- Rmult_minus_distr_r, Rabs_mult, (Rabs_pos_eq (pow2 e)) by lra.
    rewrite <- Rmult_assoc. apply Rmult_le_compat_r; [lra|].
    assert (pow2 (d - 53) = 2 * (u64 * pow2 (d - 1)))%R as Hhalf.
    { replace (d - 53) with (1 + (-53 + (d - 1))) by lia. rewrite !pow2_add.
      unfold u64. replace (pow2 1) with 2%R by (unfold pow2; simpl; lra). reflexivity. }
    assert (pow2 (d - 1) <= IZR (Zpos p))%R as HPlo
      by (rewrite pow2_IZR by lia; now apply IZR_le).
    assert (- pow2 (d - 53) <= 2 * (IZR (Zpos m * 2 ^ n) - IZR (Zpos p))
            <= pow2 (d - 53))%R as [H1 H2].
    { rewrite pow2_IZR by lia. rewrite <- minus_IZR, <- (mult_IZR 2), <- opp_IZR.
      split; apply IZR_le; lia. }
    assert (0 < u64)%R by apply pow2_pos.
    apply Rabs_le. nra.
Qed.

Lemma F2R_finite (s : bool) (m : positive) (e : Z) :
  F2R (S754_finite s m e) = (sgn s * (IZR (Zpos m) * pow2 e))%R.
Proof. unfold F2R, sgn. ring. Qed.

Lemma sgn_xorb (a b : bool) : sgn (xorb a b) = (sgn a * sgn b)%R.
Proof. destruct a, b; unfold sgn; cbn [xorb]; ring. Qed.

Lemma Rabs_sgn (s : bool) (x : R) : Rabs (sgn s * x) = Rabs x.
Proof.
  destruct s; unfold sgn.
  - replace (-1 * x)%R with (- x)%R by ring. apply Rabs_Ropp.
  - now rewrite Rmult_1_l.
Qed.

Lemma product_digits (mx my : positive) :
  Zpos (digits2_pos mx) = 53 -> Zpos (digits2_pos my) = 53 ->
  105 <= Zpos (digits2_pos (mx * my)) <= 106.
Proof.
  intros Hx Hy. pose proof (digits_bounds mx) as [Hx1 Hx2]. pose proof (digits_bounds my) as [Hy1 Hy2].
  rewrite Hx in Hx1, Hx2. rewrite Hy in Hy1, Hy2.
  pose proof (digits_bounds (mx * my)) as [Hp1 Hp2]. rewrite Pos2Z.inj_mul in Hp1, Hp2.
  assert (2 ^ 104 <= Zpos mx * Zpos my < 2 ^ 106) as [Hlo Hhi].
  { change (2 ^ 104) with (2 ^ 52 * 2 ^ 52). change (2 ^ 106) with (2 ^ 53 * 2 ^ 53). nia. }
  assert (2 ^ 104 < 2 ^ Zpos (digits2_pos (mx * my))) as H1 by lia.
  assert (2 ^ (Zpos (digits2_pos (mx * my)) - 1) < 2 ^ 106) as H2 by lia.
  apply Z.pow_lt_mono_r_iff in H1; [|lia|lia].
  apply Z.pow_lt_mono_r_iff in H2; lia.
Qed.

(** Multiplication of two normal floats. *)
Lemma SFmul_real (sx sy : bool) (mx my : positive) (ex ey : Z) :
  Zpos (digits2_pos mx) = 53 -> Zpos (digits2_pos my) = 53 ->
  -300 <= ex <= 300 -> -300 <= ey <= 300 ->
  exists m e,
    SFmul prec emax (S754_finite sx mx ex) (S754_finite sy my ey)
    = S754_finite (xorb sx sy) m e /\
    Zpos (digits2_pos m) = 53 /\ ex + ey + 52 <= e <= ex + ey + 54 /\
    (Rabs (F2R (S754_finite (xorb sx sy) m e)
           - F2R (S754_finite sx mx ex) * F2R (S754_finite sy my ey))
     <= u64 * Rabs (F2R (S754_finite sx mx ex) * F2R (S754_finite sy my ey)))%R.
Proof.
  intros Hdx Hdy Hex Hey. pose proof (product_digits mx my Hdx Hdy) as Hd.
  cbn [SFmul]. rewrite <- binary_round_rounds by lia.
  destruct (binary_round_real (xorb sx sy) (mx * my) (ex + ey)) as (m & e & H & Hdm & He & Herr);
    [lia|lia|].
  exists m, e. split; [exact H|split; [exact Hdm|split; [lia|]]].
  rewrite !F2R_finite, sgn_xorb.
  replace (sgn sx * (IZR (Z.pos mx) * pow2 ex) * (sgn sy * (IZR (Z.pos my) * pow2 ey)))%R
    with (sgn sx * sgn sy * (IZR (Zpos (mx * my)) * pow2 (ex + ey)))%R
    by (rewrite Pos2Z.inj_mul, mult_IZR, pow2_add; ring).
  rewrite <- sgn_xorb, <- Rmult_minus_distr_l, !Rabs_sgn.
  assert (0 < IZR (Zpos (mx * my)) * pow2 (ex + ey))%R as Hpos
    by (apply Rmult_lt_0_compat; [apply IZR_lt; lia|apply pow2_pos]).
  rewrite (Rabs_pos_eq (IZR (Zpos (mx * my)) * pow2 (ex + ey))) by lra.
  exact Herr.
Qed.

Lemma digits_range (p : positive) (lo hi : Z) :
  0 <= lo -> 2 ^ lo <= Zpos p < 2 ^ hi -> lo < Zpos (digits2_pos p) <= hi.
Proof.
  intros Hlo [H1 H2]. pose proof (digits_bounds p) as [Hp1 Hp2].
  assert (0 <= hi).
  { destruct (Z_lt_le_dec hi 0); [|assumption]. rewrite Z.pow_neg_r in H2 by assumption. lia. }
  assert (2 ^ lo < 2 ^ Zpos (digits2_pos p)) as Ha by lia.
  assert (2 ^ (Zpos (digits2_pos p) - 1) < 2 ^ hi) as Hb by lia.
  apply Z.pow_lt_mono_r_iff in Ha; [|lia|lia].
  apply Z.pow_lt_mono_r_iff in Hb; lia.
Qed.

Lemma F2R_div (sx sy : bool) (mx my : positive) (ex ey : Z) :
  (F2R (S754_finite sx mx ex) / F2R (S754_finite sy my ey))%R
  = (sgn (xorb sx sy) * (IZR (Zpos mx) / IZR (Zpos my) * pow2 (ex - ey)))%R.
Proof.
  rewrite !F2R_finite, pow2_sub.
  assert (IZR (Zpos my) <> 0)%R by (apply not_0_IZR; lia).
  pose proof (pow2_pos ey).
  destruct sx, sy; unfold sgn; cbn [xorb]; field; split; lra.
Qed.

(** Division of two normal floats. *)
Lemma SFdiv_real (sx sy : bool) (mx my : positive) (ex ey : Z) :
  Zpos (digits2_pos mx) = 53 -> Zpos (digits2_pos my) = 53 ->
  -300 <= ex <= 300 -> -300 <= ey <= 300 ->
  exists m e,
    SFdiv prec emax (S754_finite sx mx ex) (S754_finite sy my ey)
    = S754_finite (xorb sx sy) m e /\
    Zpos (digits2_pos m) = 53 /\ ex - ey - 53 <= e <= ex - ey - 51 /\
    (Rabs (F2R (S754_finite (xorb sx sy) m e)
           - F2R (S754_finite sx mx ex) / F2R (S754_finite sy my ey))
     <= u64 * Rabs (F2R (S754_finite sx mx ex) / F2R (S754_finite sy my ey)))%R.
Proof.
  intros Hdx Hdy Hex Hey.
  pose proof (digits_bounds mx) as [Hx1 Hx2]. pose proof (digits_bounds my) as [Hy1 Hy2].
  rewrite Hdx in Hx1, Hx2. rewrite Hdy in Hy1, Hy2.
  change (2 ^ (53 - 1)) with (2 ^ 52) in *.
  unfold SFdiv, SFdiv_core_binary. cbn [Zdigits2]. rewrite Hdx, Hdy.
  replace (53 + ex - (53 + ey)) with (ex - ey) by lia.
  rewrite fexp_linear by lia.
  replace (Z.min (ex - ey - 53) (ex - ey)) with (ex - ey - 53) by lia.
  replace (ex - ey - (ex - ey - 53)) with 53 by lia.
  cbv iota. rewrite div_eucl_pair, Z.shiftl_mul_pow2 by lia.
  set (a := Zpos mx * 2 ^ 53).
  assert (2 ^ 52 <= a / Zpos my < 2 ^ 54) as [Hq1 Hq2].
  { split.
    - apply Z.div_le_lower_bound; [lia|].
      unfold a. change (2 ^ 53) with (2 * 2 ^ 52) in *. nia.
    - apply Z.div_lt_upper_bound; [lia|].
      unfold a. change (2 ^ 54) with (2 * 2 ^ 53). change (2 ^ 53) with (2 * 2 ^ 52) in *. nia. }
  pose proof (Z.mod_pos_bound a (Zpos my) ltac:(lia)) as Hr.
  pose proof (Z.div_mod a (Zpos my) ltac:(lia)) as Ha.
  destruct (a / Zpos my) as [|q|q] eqn:Hq; try lia.
  pose proof (digits_range q 52 54 ltac:(lia) (conj Hq1 Hq2)) as Hdq.
  pose proof (Rep_division (Zpos q) (a mod Zpos my) (Zpos my) ltac:(lia) Hr) as HRep.
  destruct (binary_round_aux_value (xorb sx sy) q (ex - ey - 53)
              (new_location (Zpos my) (a mod Zpos my)) _ _ HRep)
    as (m & n & Hres & Hdm & Hn & Herr); [lia|lia|lia|].
  exists m, (ex - ey - 53 + n). split; [exact Hres|split; [exact Hdm|split; [lia|]]].
  rewrite F2R_div, F2R_finite, <- Rmult_minus_distr_l, !Rabs_sgn.
  replace (Zpos q * Zpos my + a mod Zpos my) with a in Herr by lia.
  set (dq := Zpos (digits2_pos q)) in *.
  assert (0 < IZR (Zpos my))%R as Hmy by (apply IZR_lt; lia).
  pose proof (pow2_pos (ex - ey - 53)) as He0.
  assert (pow2 (ex - ey) = pow2 (ex - ey - 53) * IZR (2 ^ 53))%R as Hsplit.
  { rewrite <- pow2_IZR, <- pow2_add by lia. f_equal. lia. }
  assert (IZR (Zpos mx) / IZR (Zpos my) * pow2 (ex - ey)
          = pow2 (ex - ey - 53) * (IZR a / IZR (Zpos my)))%R as HX.
  { rewrite Hsplit. unfold a. rewrite mult_IZR. field. lra. }
  assert (IZR (Zpos m) * pow2 (ex - ey - 53 + n)
          = pow2 (ex - ey - 53) * IZR (Zpos m * 2 ^ n))%R as HV.
  { rewrite pow2_add, mult_IZR, <- pow2_IZR by lia. ring. }
  rewrite HX, HV, <- Rmult_minus_distr_l, !Rabs_mult, (Rabs_pos_eq (pow2 _)) by lra.
  rewrite <- Rmult_assoc, (Rmult_comm u64), Rmult_assoc.
  apply Rmult_le_compat_l; [lra|].
  (* the quotient is at least 2^(dq-1) *)
  assert (2 ^ (dq - 1) * Zpos my <= a) as Hqlo.
  { pose proof (digits_bounds q) as [Hql _]. fold dq in Hql.
    apply (Z.mul_le_mono_nonneg_r _ _ (Zpos my)) in Hql; [|lia]. lia. }
  apply IZR_le in Hqlo. rewrite mult_IZR in Hqlo.
  destruct Herr as [Herr1 Herr2]. apply IZR_le in Herr1, Herr2.
  rewrite opp_IZR in Herr1.
  rewrite !mult_IZR, minus_IZR, !mult_IZR in Herr1, Herr2.
  assert (IZR (2 ^ (dq - 1)) = IZR (2 ^ (dq - 53)) * IZR (2 ^ 52))%R as Hpw.
  { rewrite <- !mult_IZR. f_equal.
    replace (dq - 1) with ((dq - 53) + 52) by lia.
    rewrite !Z.pow_add_r by lia. reflexivity. }
  assert (u64 * IZR (2 ^ 52) = / 2)%R as Hu.
  { unfold u64. rewrite <- pow2_IZR, <- pow2_add by lia.
    change (-53 + 52) with (-1). unfold pow2. simpl. now rewrite Rmult_1_r. }
  assert (0 < IZR (2 ^ (dq - 53)))%R as Hpp by (apply IZR_lt; apply Z.pow_pos_nonneg; lia).
  set (P := IZR (2 ^ (dq - 53))) in *. set (A := IZR a) in *. set (B := IZR (Zpos my)) in *.
  set (V := (IZR (Zpos m) * IZR (2 ^ n))%R) in *.
  rewrite mult_IZR. fold V.
  assert (0 <= A / B)%R as HAB.
  { apply Rmult_le_pos; [|left; now apply Rinv_0_lt_compat].
    unfold A. apply IZR_le. unfold a. lia. }
  rewrite (Rabs_pos_eq (A / B)) by exact HAB.
  assert (P / 2 <= u64 * (A / B))%R as Hbig.
  { assert (IZR (2 ^ (dq - 1)) <= A / B)%R as Hq'.
    { apply (Rmult_le_reg_r B); [exact Hmy|]. unfold Rdiv. rewrite Rmult_assoc, Rinv_l by lra. lra. }
    rewrite Hpw in Hq'.
    assert (u64 * (P * IZR (2 ^ 52)) <= u64 * (A / B))%R
      by (apply Rmult_le_compat_l; [unfold u64; left; apply pow2_pos|exact Hq']).
    replace (u64 * (P * IZR (2 ^ 52)))%R with (P * (u64 * IZR (2 ^ 52)))%R in H by ring.
    rewrite Hu in H. lra. }
  apply Rle_trans with (P / 2)%R; [|exact Hbig].
  replace (V - A / B)%R with ((V * B - A) / B)%R by (field; lra).
  unfold Rdiv at 1. rewrite Rabs_mult, (Rabs_pos_eq (/ B)) by (left; now apply Rinv_0_lt_compat).
  apply (Rmult_le_reg_r B); [exact Hmy|]. rewrite Rmult_assoc, Rinv_l, Rmult_1_r by lra.
  apply Rabs_le. split; lra.
Qed.

Lemma shl_align_fst (mx : positive) (ex ez : Z) :
  ez <= ex -> Zpos (fst (shl_align mx ex ez)) = Zpos mx * 2 ^ (ex - ez).
Proof.
  intros H. unfold shl_align. destruct (ez - ex) as [|d|d] eqn:E; cbn [fst]; try lia.
  - replace (ex - ez) with 0 by lia. lia.
  - rewrite iter_xO_value. f_equal. f_equal. lia.
Qed.

Lemma aligned_value (s : bool) (mx : positive) (ex ez : Z) :
  ez <= ex ->
  (IZR (cond_Zopp s (Zpos (fst (shl_align mx ex ez)))) * pow2 ez)%R
  = F2R (S754_finite s mx ex).
Proof.
  intros H. rewrite F2R_finite.
  assert (IZR (Zpos (fst (shl_align mx ex ez))) * pow2 ez = IZR (Zpos mx) * pow2 ex)%R as Hv.
  { rewrite shl_align_fst, mult_IZR, <- pow2_IZR by lia.
    rewrite Rmult_assoc, <- pow2_add. do 2 f_equal. lia. }
  destruct s; unfold sgn; cbn [cond_Zopp].
  - rewrite <- Hv. rewrite opp_IZR. ring.
  - rewrite <- Hv. ring.
Qed.

Lemma binary_normalize_real (D ez : Z) :
  D <> 0 -> -900 <= ez -> ez + Zdigits2 D <= 900 ->
  exists s m e,
    binary_normalize prec emax D ez false = S754_finite s m e /\
    Zpos (digits2_pos m) = 53 /\
    ez + Zdigits2 D - 53 <= e <= ez + Zdigits2 D - 52 /\
    (Rabs (F2R (S754_finite s m e) - IZR D * pow2 ez) <= u64 * Rabs (IZR D * pow2 ez))%R.
Proof.
  intros HD Hlo Hhi. destruct D as [|p|p]; [congruence| |]; cbn [binary_normalize Zdigits2] in *.
  - destruct (binary_round_real false p ez Hlo Hhi) as (m & e & H & Hd & He & Herr).
    exists false, m, e. split; [exact H|split; [exact Hd|split; [exact He|]]].
    rewrite F2R_finite. unfold sgn. rewrite Rmult_1_l.
    rewrite (Rabs_pos_eq (IZR (Zpos p) * pow2 ez)); [exact Herr|].
    apply Rmult_le_pos; [apply IZR_le; lia|left; apply pow2_pos].
  - destruct (binary_round_real true p ez Hlo Hhi) as (m & e & H & Hd & He & Herr).
    exists true, m, e. split; [exact H|split; [exact Hd|split; [exact He|]]].
    rewrite F2R_finite. unfold sgn.
    change (Z.neg p) with (- Z.pos p). rewrite opp_IZR.
    replace (-1 * (IZR (Z.pos m) * pow2 e) - - IZR (Z.pos p) * pow2 ez)%R
      with (- (IZR (Z.pos m) * pow2 e - IZR (Z.pos p) * pow2 ez))%R by ring.
    replace (- IZR (Z.pos p) * pow2 ez)%R with (- (IZR (Z.pos p) * pow2 ez))%R by ring.
    rewrite !Rabs_Ropp.
    rewrite (Rabs_pos_eq (IZR (Zpos p) * pow2 ez)); [exact Herr|].
    apply Rmult_le_pos; [apply IZR_le; lia|left; apply pow2_pos].
Qed.

Lemma Zdigits2_abs_le (D hi : Z) : 0 <= hi -> Z.abs D < 2 ^ hi -> Zdigits2 D <= hi.
Proof.
  intros Hhi H. destruct D as [|p|p]; cbn [Zdigits2 Z.abs] in *; [lia| |];
    pose proof (digits_bounds p) as [Hp _];
    assert (2 ^ (Zpos (digits2_pos p) - 1) < 2 ^ hi) as Hlt by lia;
    apply Z.pow_lt_mono_r_iff in Hlt; lia.
Qed.

Lemma Zdigits2_pos_nonzero (D : Z) : D <> 0 -> 1 <= Zdigits2 D.
Proof. destruct D; cbn [Zdigits2]; lia. Qed.

(** Addition of two normal floats: the result is an exact zero, or a normal
    float within one rounding of the sum. *)
Lemma SFadd_real (sx sy : bool) (mx my : positive) (ex ey : Z) :
  Zpos (digits2_pos mx) = 53 -> Zpos (digits2_pos my) = 53 ->
  -300 <= ex <= 300 -> -300 <= ey <= 300 ->
  let X := F2R (S754_finite sx mx ex) in
  let Y := F2R (S754_finite sy my ey) in
  ((X + Y)%R = 0%R /\
   SFadd prec emax (S754_finite sx mx ex) (S754_finite sy my ey) = S754_zero false) \/
  (exists s m e,
     SFadd prec emax (S754_finite sx mx ex) (S754_finite sy my ey) = S754_finite s m e /\
     Zpos (digits2_pos m) = 53 /\ Z.min ex ey - 52 <= e <= Z.max ex ey + 2 /\
     (Rabs (F2R (S754_finite s m e) - (X + Y)) <= u64 * Rabs (X + Y))%R).
Proof.
  intros Hdx Hdy Hex Hey X Y. cbn [SFadd].
  set (ez := Z.min ex ey).
  set (D := cond_Zopp sx (Zpos (fst (shl_align mx ex ez)))
            + cond_Zopp sy (Zpos (fst (shl_align my ey ez)))).
  assert ((X + Y)%R = (IZR D * pow2 ez)%R) as HXY.
  { unfold X, Y, D. rewrite plus_IZR, Rmult_plus_distr_r, !aligned_value by (unfold ez; lia).
    reflexivity. }
  destruct (Z.eq_dec D 0) as [HD0|HDn].
  - left. rewrite HXY, HD0. split; [ring|reflexivity].
  - right.
    assert (Z.abs D < 2 ^ (54 + Z.max ex ey - ez)) as Habs.
    { pose proof (digits_bounds mx) as [_ Hx]. pose proof (digits_bounds my) as [_ Hy].
      rewrite Hdx in Hx. rewrite Hdy in Hy.
      pose proof (shl_align_fst mx ex ez ltac:(unfold ez; lia)) as Hax.
      pose proof (shl_align_fst my ey ez ltac:(unfold ez; lia)) as Hay.
      assert (2 ^ (ex - ez) <= 2 ^ (Z.max ex ey - ez)) by (apply Z.pow_le_mono_r; unfold ez; lia).
      assert (2 ^ (ey - ez) <= 2 ^ (Z.max ex ey - ez)) by (apply Z.pow_le_mono_r; unfold ez; lia).
      assert (0 < 2 ^ (ex - ez)) by (apply Z.pow_pos_nonneg; unfold ez; lia).
      assert (0 < 2 ^ (ey - ez)) by (apply Z.pow_pos_nonneg; unfold ez; lia).
      replace (54 + Z.max ex ey - ez) with (54 + (Z.max ex ey - ez)) by lia.
      rewrite Z.pow_add_r by (unfold ez; lia).
      change (2 ^ 54) with (2 * 2 ^ 53).
      assert (Z.abs D <= Zpos (fst (shl_align mx ex ez)) + Zpos (fst (shl_align my ey ez)))
        by (unfold D; destruct sx, sy; cbn [cond_Zopp]; lia).
      nia. }
    assert (0 <= 54 + Z.max ex ey - ez) as Hnn by (unfold ez; lia).
    pose proof (Zdigits2_abs_le D _ Hnn Habs) as Hdhi.
    pose proof (Zdigits2_pos_nonzero D HDn) as Hdlo.
    destruct (binary_normalize_real D ez HDn) as (s & m & e & H & Hd & He & Herr);
      [unfold ez; lia|unfold ez in *; lia|].
    exists s, m, e. rewrite HXY.
    split; [exact H|split; [exact Hd|split; [unfold ez in *; lia|exact Herr]]].
Qed.

Lemma SFsub_as_add (sx sy : bool) (mx my : positive) (ex ey : Z) :
  SFsub prec emax (S754_finite sx mx ex) (S754_finite sy my ey)
  = SFadd prec emax (S754_finite sx mx ex) (S754_finite (negb sy) my ey).
Proof. cbn [SFsub SFadd]. f_equal. now destruct sy. Qed.

Lemma F2R_negb (s : bool) (m : positive) (e : Z) :
  F2R (S754_finite (negb s) m e) = (- F2R (S754_finite s m e))%R.
Proof. rewrite !F2R_finite. destruct s; unfold sgn; cbn [negb]; ring. Qed.

Lemma trunc_real (m : positive) (e : Z) :
  (IZR (trunc_finite false m e) <= IZR (Zpos m) * pow2 e < IZR (trunc_finite false m e) + 1)%R.
Proof.
  unfold trunc_finite, cond_Zopp. destruct e as [|p|p].
  - rewrite pow2_0. lra.
  - rewrite pow2_IZR, <- mult_IZR by lia. lra.
  - rewrite Z.shiftr_div_pow2 by lia.
    pose proof (Z.div_mod (Zpos m) (2 ^ Zpos p) ltac:(lia)) as Hdm.
    pose proof (Z.mod_pos_bound (Zpos m) (2 ^ Zpos p) ltac:(lia)) as Hr.
    set (t := Zpos m / 2 ^ Zpos p) in *. set (r := Zpos m mod 2 ^ Zpos p) in *.
    change (Z.neg p) with (- Zpos p). unfold pow2. rewrite powerRZ_neg'.
    fold (pow2 (Zpos p)).
    pose proof (pow2_pos (Zpos p)) as Hpp.
    assert (IZR (Zpos m) = pow2 (Zpos p) * IZR t + IZR r)%R as HR
      by (rewrite pow2_IZR by lia; rewrite <- mult_IZR, <- plus_IZR; now f_equal).
    assert (0 <= IZR r < pow2 (Zpos p))%R as [Hr1 Hr2]
      by (rewrite pow2_IZR by lia; split; [apply IZR_le|apply IZR_lt]; lia).
    rewrite HR. split.
    + apply (Rmult_le_reg_r (pow2 (Zpos p))); [exact Hpp|].
      rewrite Rmult_assoc, Rinv_l by lra. nra.
    + apply (Rmult_lt_reg_r (pow2 (Zpos p))); [exact Hpp|].
      rewrite Rmult_assoc, Rinv_l by lra. nra.
Qed.

(** ** Operations on normal floats *)

Lemma normal_weaken (x : spec_float) (lo hi lo' hi' : Z) :
  normal x lo hi -> lo' <= lo -> hi <= hi' -> normal x lo' hi'.
Proof. intros (s & m & e & -> & Hd & He) Hlo Hhi. exists s, m, e. repeat split; try assumption; lia. Qed.

Lemma SFmul_normal (x y : spec_float) (lo1 hi1 lo2 hi2 : Z) :
  normal x lo1 hi1 -> normal y lo2 hi2 ->
  -300 <= lo1 -> hi1 <= 300 -> -300 <= lo2 -> hi2 <= 300 ->
  normal (SFmul prec emax x y) (lo1 + lo2 + 52) (hi1 + hi2 + 54) /\
  (Rabs (F2R (SFmul prec emax x y) - F2R x * F2R y) <= u64 * Rabs (F2R x * F2R y))%R.
Proof.
  intros (sx & mx & ex & -> & Hdx & Hex) (sy & my & ey & -> & Hdy & Hey) H1 H2 H3 H4.
  destruct (SFmul_real sx sy mx my ex ey Hdx Hdy) as (m & e & H & Hd & He & Herr); [lia|lia|].
  rewrite H. split; [|exact Herr]. exists (xorb sx sy), m, e. repeat split; try assumption; lia.
Qed.

Lemma SFdiv_normal (x y : spec_float) (lo1 hi1 lo2 hi2 : Z) :
  normal x lo1 hi1 -> normal y lo2 hi2 ->
  -300 <= lo1 -> hi1 <= 300 -> -300 <= lo2 -> hi2 <= 300 ->
  normal (SFdiv prec emax x y) (lo1 - hi2 - 53) (hi1 - lo2 - 51) /\
  (Rabs (F2R (SFdiv prec emax x y) - F2R x / F2R y) <= u64 * Rabs (F2R x / F2R y))%R.
Proof.
  intros (sx & mx & ex & -> & Hdx & Hex) (sy & my & ey & -> & Hdy & Hey) H1 H2 H3 H4.
  destruct (SFdiv_real sx sy mx my ex ey Hdx Hdy) as (m & e & H & Hd & He & Herr); [lia|lia|].
  rewrite H. split; [|exact Herr]. exists (xorb sx sy), m, e. repeat split; try assumption; lia.
Qed.

Lemma SFadd_normal (x y : spec_float) (lo1 hi1 lo2 hi2 : Z) :
  normal x lo1 hi1 -> normal y lo2 hi2 ->
  -300 <= lo1 -> hi1 <= 300 -> -300 <= lo2 -> hi2 <= 300 ->
  ((F2R x + F2R y)%R = 0%R /\ SFadd prec emax x y = S754_zero false) \/
  (normal (SFadd prec emax x y) (Z.min lo1 lo2 - 52) (Z.max hi1 hi2 + 2) /\
   (Rabs (F2R (SFadd prec emax x y) - (F2R x + F2R y)) <= u64 * Rabs (F2R x + F2R y))%R).
Proof.
  intros (sx & mx & ex & -> & Hdx & Hex) (sy & my & ey & -> & Hdy & Hey) H1 H2 H3 H4.
  destruct (SFadd_real sx sy mx my ex ey Hdx Hdy) as [H0|(s & m & e & H & Hd & He & Herr)];
    [lia|lia|left; exact H0|right].
  rewrite H. split; [|exact Herr]. exists s, m, e. repeat split; try assumption; lia.
Qed.

Lemma SFsub_normal (x y : spec_float) (lo1 hi1 lo2 hi2 : Z) :
  normal x lo1 hi1 -> normal y lo2 hi2 ->
  -300 <= lo1 -> hi1 <= 300 -> -300 <= lo2 -> hi2 <= 300 ->
  ((F2R x - F2R y)%R = 0%R /\ SFsub prec emax x y = S754_zero false) \/
  (normal (SFsub prec emax x y) (Z.min lo1 lo2 - 52) (Z.max hi1 hi2 + 2) /\
   (Rabs (F2R (SFsub prec emax x y) - (F2R x - F2R y)) <= u64 * Rabs (F2R x - F2R y))%R).
Proof.
  intros Hx (sy & my & ey & -> & Hdy & Hey) H1 H2 H3 H4.
  assert (normal (S754_finite (negb sy) my ey) lo2 hi2) as Hy'
    by (exists (negb sy), my, ey; repeat split; try assumption; lia).
  pose proof (SFadd_normal x _ lo1 hi1 lo2 hi2 Hx Hy' H1 H2 H3 H4) as H.
  destruct Hx as (sx & mx & ex & -> & Hdx & Hex).
  rewrite SFsub_as_add. rewrite F2R_negb in H. exact H.
Qed.

(** ** The rounding errors of the round trip, in the reals *)

Lemma Rabs_bound (a b : R) : (Rabs a <= b -> - b <= a <= b)%R.
Proof. unfold Rabs. destruct (Rcase_abs a); lra. Qed.

Lemma rel_err (X Y Z M u : R) :
  (0 <= u -> Rabs (X - Y) <= u * Rabs Z -> - M <= Z <= M ->
   - (u * M) <= X - Y <= u * M)%R.
Proof.
  intros Hu H HZ. apply Rabs_bound.
  apply Rle_trans with (1 := H). apply Rmult_le_compat_l; [exact Hu|].
  apply Rabs_le. exact HZ.
Qed.

Lemma chain_D (u r A B C D : R) :
  (0 < u <= / 1000 -> 0 <= r <= 1 ->
   Rabs (A - r) <= u * Rabs r ->
   Rabs (B - A * 200) <= u * Rabs (A * 200) ->
   Rabs (C - (B - 100)) <= u * Rabs (B - 100) ->
   Rabs (D - (C + 100)) <= u * Rabs (C + 100) ->
   - (703 * u) <= D - 200 * r <= 703 * u)%R.
Proof.
  intros Hu Hr H1 H2 H3 H4.
  apply (rel_err _ _ _ 1) in H1; [|lra|lra].
  apply (rel_err _ _ _ 201) in H2; [|lra|lra].
  apply (rel_err _ _ _ 101) in H3; [|lra|lra].
  apply (rel_err _ _ _ 201) in H4; [|lra|lra].
  lra.
Qed.

Lemma chain_G (u r n D E G : R) :
  (0 < u <= / 1000 -> 0 <= r <= 1 -> 1 <= n -> u * n <= / 8 ->
   - (703 * u) <= D - 200 * r <= 703 * u ->
   Rabs (E - D / 200) <= u * Rabs (D / 200) ->
   Rabs (G - E * n) <= u * Rabs (E * n) ->
   - (7 / 8) <= G - r * n <= 7 / 8)%R.
Proof.
  intros Hu Hr Hn Hun HD H5 H6.
  apply (rel_err _ _ _ (201 / 200)) in H5; [|lra|lra].
  assert (- (5 * u) <= E - r <= 5 * u)%R as HE by lra.
  apply (rel_err _ _ _ (201 / 200 * n)) in H6; [|lra|split; nra].
  assert (- (5 * u * n) <= E * n - r * n <= 5 * u * n)%R by (split; nra).
  lra.
Qed.

(** ** The constants 100 and 200 *)

Lemma c200_SF : Prim2SF 200 = S754_finite false 7036874417766400 (-45).
Proof. reflexivity. Qed.

Lemma c100_SF : Prim2SF 100 = S754_finite false 7036874417766400 (-46).
Proof. reflexivity. Qed.

Lemma c200_normal : normal (Prim2SF 200) (-45) (-45).
Proof. rewrite c200_SF. exists false, 7036874417766400%positive, (-45). repeat split; lia. Qed.

Lemma c100_normal : normal (Prim2SF 100) (-46) (-46).
Proof. rewrite c100_SF. exists false, 7036874417766400%positive, (-46). repeat split; lia. Qed.

Lemma c200_val : F2R (Prim2SF 200) = 200%R.
Proof.
  rewrite c200_SF, F2R_finite. unfold sgn. change (-45) with (- (45)).
  unfold pow2. rewrite powerRZ_neg'. fold (pow2 45). rewrite pow2_IZR by lia.
  change (2 ^ 45) with 35184372088832.
  change 7036874417766400 with (200 * 35184372088832). rewrite mult_IZR. field.
Qed.

Lemma c100_val : F2R (Prim2SF 100) = 100%R.
Proof.
  rewrite c100_SF, F2R_finite. unfold sgn. change (-46) with (- (46)).
  unfold pow2. rewrite powerRZ_neg'. fold (pow2 46). rewrite pow2_IZR by lia.
  change (2 ^ 46) with 70368744177664.
  change 7036874417766400 with (100 * 70368744177664). rewrite mult_IZR. field.
Qed.

Lemma u64_small : (0 < u64 <= / 1000)%R.
Proof.
  unfold u64. split; [apply pow2_pos|].
  apply Rle_trans with (pow2 (-10)); [apply pow2_le; lia|].
  unfold pow2. simpl. lra.
Qed.

Lemma u64_pow50 : (u64 * IZR (2 ^ 50) = / 8)%R.
Proof.
  unfold u64. rewrite <- pow2_IZR, <- pow2_add by lia. change (-53 + 50) with (-3).
  unfold pow2. simpl. lra.
Qed.

Lemma F2R_pos_sign (s : bool) (m : positive) (e : Z) :
  (0 < F2R (S754_finite s m e))%R -> s = false.
Proof.
  rewrite F2R_finite. destruct s; [|reflexivity]. unfold sgn. intros H.
  assert (0 < IZR (Zpos m) * pow2 e)%R
    by (apply Rmult_lt_0_compat; [apply IZR_lt; lia|apply pow2_pos]).
  lra.
Qed.

(** ** The round trip on normal floats *)

Lemma roundtrip_chain (xk xN : spec_float) (k N : Z) :
  normal xk (-52) 0 -> normal xN (-52) 0 ->
  F2R xk = IZR k -> F2R xN = IZR N -> 1 <= k <= N -> N <= 2 ^ 50 ->
  exists m e,
    SFmul prec emax
      (SFdiv prec emax
         (SFadd prec emax
            (SFsub prec emax (SFmul prec emax (SFdiv prec emax xk xN) (Prim2SF 200))
               (Prim2SF 100))
            (Prim2SF 100))
         (Prim2SF 200))
      xN = S754_finite false m e /\
    (- (7 / 8) <= IZR (Zpos m) * pow2 e - IZR k <= 7 / 8)%R.
Proof.
  intros Hxk HxN Hk HN Hkn Hn.
  pose proof u64_small as Hu.
  assert (1 <= IZR k)%R as Hk1 by (apply IZR_le; lia).
  assert (IZR k <= IZR N)%R as HkN by (apply IZR_le; lia).
  assert (1 <= IZR N)%R as HN1 by (apply IZR_le; lia).
  assert (u64 * IZR N <= / 8)%R as HuN.
  { rewrite <- u64_pow50. apply Rmult_le_compat_l; [lra|]. apply IZR_le. exact Hn. }
  set (r := (IZR k / IZR N)%R).
  assert (r * IZR N = IZR k)%R as HrN by (unfold r; field; lra).
  assert (0 <= r <= 1)%R as Hr.
  { split.
    - unfold r. apply Rmult_le_pos; [lra|]. left. apply Rinv_0_lt_compat. lra.
    - apply (Rmult_le_reg_r (IZR N)); [lra|]. rewrite HrN. lra. }
  assert (8 * u64 <= r)%R as Hur.
  { apply (Rmult_le_reg_r (IZR N)); [lra|]. rewrite HrN. lra. }
  (* a = xk / xN *)
  destruct (SFdiv_normal xk xN _ _ _ _ Hxk HxN) as [Ha H1]; try lia.
  rewrite Hk, HN in H1. fold r in H1.
  set (a := SFdiv prec emax xk xN) in *.
  (* b = a * 200 *)
  destruct (SFmul_normal a (Prim2SF 200) _ _ _ _ Ha c200_normal) as [Hb H2]; try lia.
  rewrite c200_val in H2.
  set (b := SFmul prec emax a (Prim2SF 200)) in *.
  (* c = b - 100, d = c + 100 *)
  assert (normal (SFadd prec emax (SFsub prec emax b (Prim2SF 100)) (Prim2SF 100)) (-202) 14 /\
          - (703 * u64) <= F2R (SFadd prec emax (SFsub prec emax b (Prim2SF 100)) (Prim2SF 100))
                            - 200 * r <= 703 * u64)%R as [Hd HD].
  { destruct (SFsub_normal b (Prim2SF 100) _ _ _ _ Hb c100_normal) as [[Hc0 Hc]|[Hc H3]];
      try lia.
    - rewrite Hc. rewrite c100_val in Hc0. rewrite c100_SF. cbn [SFadd]. rewrite <- c100_SF.
      split; [apply (normal_weaken _ _ _ _ _ c100_normal); lia|].
      rewrite c100_val.
      apply (chain_D u64 r (F2R a) (F2R b) 0 100 Hu Hr H1 H2).
      + replace (0 - (F2R b - 100))%R with 0%R by lra. rewrite Hc0, Rabs_R0. lra.
      + replace (100 - (0 + 100))%R with 0%R by lra. rewrite Rabs_R0.
        apply Rmult_le_pos; [lra|apply Rabs_pos].
    - rewrite c100_val in H3.
      set (c := SFsub prec emax b (Prim2SF 100)) in *.
      destruct (SFadd_normal c (Prim2SF 100) _ _ _ _ Hc c100_normal) as [[Hd0 Hdz]|[Hd H4]];
        try lia.
      + exfalso. rewrite c100_val in Hd0.
        assert (- (703 * u64) <= 0 - 200 * r <= 703 * u64)%R as Hbad; [|lra].
        apply (chain_D u64 r (F2R a) (F2R b) (F2R c) 0 Hu Hr H1 H2 H3).
        rewrite Hd0. replace (0 - 0)%R with 0%R by lra. rewrite !Rabs_R0. lra.
      + rewrite c100_val in H4. split; [apply (normal_weaken _ _ _ _ _ Hd); lia|].
        apply (chain_D u64 r (F2R a) (F2R b) (F2R c) _ Hu Hr H1 H2 H3 H4). }
  set (d := SFadd prec emax (SFsub prec emax b (Prim2SF 100)) (Prim2SF 100)) in *.
  (* e = d / 200, g = e * xN *)
  destruct (SFdiv_normal d (Prim2SF 200) _ _ _ _ Hd c200_normal) as [He H5]; try lia.
  rewrite c200_val in H5.
  set (e := SFdiv prec emax d (Prim2SF 200)) in *.
  destruct (SFmul_normal e xN _ _ _ _ He HxN) as [Hg H6]; try lia.
  rewrite HN in H6.
  pose proof (chain_G u64 r (IZR N) (F2R d) (F2R e) _ Hu Hr HN1 HuN HD H5 H6) as HG.
  rewrite HrN in HG.
  destruct Hg as (s & m & eg & Hg & _ & _). rewrite Hg in HG |- *.
  assert (s = false) as -> by (apply (F2R_pos_sign s m eg); lra).
  exists m, eg. split; [reflexivity|].
  rewrite F2R_finite in HG. unfold sgn in HG. lra.
Qed.

Lemma of_uint63_normal (j : Z) :
  0 < j < 2 ^ 53 ->
  normal (Prim2SF (of_uint63 (Uint63.of_Z j))) (-52) 0 /\
  F2R (Prim2SF (of_uint63 (Uint63.of_Z j))) = IZR j.
Proof.
  intros Hj. destruct (of_uint63_small j Hj) as (m & E & HE & Hm & Hb & H).
  rewrite H. split.
  - exists false, m, (- E). split; [reflexivity|split; [|lia]].
    apply digits_unique. exact Hb.
  - rewrite F2R_finite. unfold sgn. rewrite Hm, mult_IZR, <- pow2_IZR by lia.
    rewrite Rmult_1_l, Rmult_assoc, <- pow2_add. replace (E + - E) with 0 by lia.
    rewrite pow2_0. ring.
Qed.

(** The operand of [int(...)] in [Denormalize (Normalize raw)], for
    [raw - rangeMin = k] and [rangeMax - rangeMin = N]. *)
Lemma roundtrip_offset (k N : Z) :
  1 <= k <= N -> N <= 2 ^ 50 ->
  exists j,
    int_of_float64
      ((of_uint63 (Uint63.of_Z k) / of_uint63 (Uint63.of_Z N) * 200 - 100 + 100) / 200
       * of_uint63 (Uint63.of_Z N)) = Some j /\ (j = k \/ j = k - 1).
Proof.
  intros Hk HN.
  assert (2 ^ 50 < 2 ^ 53) as Hpow by reflexivity.
  destruct (of_uint63_normal k ltac:(lia)) as [Hnk Hvk].
  destruct (of_uint63_normal N ltac:(lia)) as [HnN HvN].
  destruct (roundtrip_chain _ _ k N Hnk HnN Hvk HvN Hk HN) as (m & e & Hg & HG).
  unfold int_of_float64.
  rewrite FloatAxioms.mul_spec, FloatAxioms.div_spec, FloatAxioms.add_spec,
    FloatAxioms.sub_spec, FloatAxioms.mul_spec, FloatAxioms.div_spec.
  unfold SF64mul, SF64div, SF64add, SF64sub. rewrite Hg. cbv zeta.
  pose proof (trunc_real m e) as [Ht1 Ht2].
  set (t := trunc_finite false m e) in *.
  assert (k - 2 < t < k + 1) as Ht.
  { split; apply lt_IZR; [rewrite minus_IZR|rewrite plus_IZR]; lra. }
  assert ((int_min <=? t) && (t <=? int_max) = true) as ->.
  { apply andb_true_intro. unfold int_min, int_max. split; apply Z.leb_le; lia. }
  exists t. split; [reflexivity|lia].
Qed.

(** The same operand when [raw = rangeMin]. *)
Lemma roundtrip_offset_zero (N : Z) :
  0 < N < 2 ^ 53 ->
  int_of_float64
    ((of_uint63 (Uint63.of_Z 0) / of_uint63 (Uint63.of_Z N) * 200 - 100 + 100) / 200
     * of_uint63 (Uint63.of_Z N)) = Some 0.
Proof.
  intros HN. destruct (of_uint63_small N HN) as (m & E & _ & _ & _ & H).
  change (of_uint63 (Uint63.of_Z 0)) with 0%float.
  rewrite (div_zero_scaled _ _ _ _ H).
  change ((-100 + 100) / 200)%float with 0%float.
  unfold int_of_float64. rewrite FloatAxioms.mul_spec, H. reflexivity.
Qed.

Lemma float64_of_int_nonneg (z : Z) :
  0 <= z <= int_max -> float64_of_int z = of_uint63 (Uint63.of_Z z).
Proof.
  unfold float64_of_int, int_min, int_max. intros H.
  destruct (Z.eqb_spec z (- 2 ^ 63)); [lia|].
  destruct (Z.leb_spec 0 z); [reflexivity|lia].
Qed.

(** C1, as the code has it.  For every calibration whose bounds are ints
    with [0 <= rangeMax - rangeMin <= 2^50], whatever the offset, and every
    raw value within the bounds, [Denormalize (Normalize raw)] is an int
    that differs from [raw] by at most 1: the six roundings of the round
    trip move the operand of [int(...)] by less than 7/8. *)
Theorem roundtrip_within_one (c : MotorCalibration) (raw : Z) :
  is_int (RangeMin c) -> is_int (RangeMax c) ->
  0 <= RangeMax c - RangeMin c <= 2 ^ 50 ->
  RangeMin c <= raw <= RangeMax c ->
  exists back, Denormalize c (Normalize c raw) = Some back /\ -1 <= back - raw <= 1.
Proof.
  intros Hlo Hhi Hspan Hraw.
  assert (2 ^ 50 = 1125899906842624) as Hpow by reflexivity.
  assert (is_int (RangeMax c - RangeMin c)) as HiN
    by (unfold is_int, int_min, int_max in *; lia).
  assert (is_int (raw - RangeMin c)) as Hik
    by (unfold is_int, int_min, int_max in *; lia).
  destruct (Z.eq_dec (RangeMin c) (RangeMax c)) as [Heq|Hne].
  - rewrite Normalize_degenerate by assumption.
    unfold Denormalize, scaled_offset. rewrite Heq, Z.sub_diag.
    change (int_of_float64 ((0 + 100) / 200 * float64_of_int (wrap 0))) with (Some 0).
    exists (RangeMax c). cbn [Z.add]. rewrite wrap_int by assumption.
    split; [reflexivity|lia].
  - rewrite Normalize_formula by assumption.
    unfold Denormalize, scaled_offset.
    rewrite (wrap_int _ HiN), (wrap_int _ Hik).
    rewrite !float64_of_int_nonneg by (unfold int_max; lia).
    destruct (Z.eq_dec raw (RangeMin c)) as [->|Hk].
    + rewrite Z.sub_diag, roundtrip_offset_zero by lia.
      exists (RangeMin c). cbn [Z.add]. rewrite wrap_int by assumption.
      split; [reflexivity|lia].
    + destruct (roundtrip_offset (raw - RangeMin c) (RangeMax c - RangeMin c))
        as (j & Hj & Hor); [lia|lia|].
      rewrite Hj. exists (wrap (j + RangeMin c)). split; [reflexivity|].
      rewrite wrap_int by (unfold is_int, int_min, int_max in *; lia). lia.
Qed.

Lemma roundtrip_within_one_witness :
  exists back,
    Denormalize (cal 823 3540) (Normalize (cal 823 3540) 1023) = Some back /\
    -1 <= back - 1023 <= 1.
Proof.
  apply (roundtrip_within_one (cal 823 3540) 1023).
  - unfold is_int, int_min, int_max. simpl. lia.
  - unfold is_int, int_min, int_max. simpl. lia.
  - simpl. lia.
  - simpl. lia.
Defined.

(** ** Denormalize *)

Lemma trunc_sum_nonneg (m : positive) (e z : Z) :
  0 <= z ->
  trunc_sum (S754_finite false m e) z = Some (trunc_finite false m e + z).
Proof.
  intros Hz. unfold trunc_sum, trunc_finite, cond_Zopp. destruct e as [|p|p]; try reflexivity.
  f_equal. rewrite Z.shiftr_div_pow2 by lia.
  assert (0 < 2 ^ Zpos p) by (apply Z.pow_pos_nonneg; lia).
  rewrite Z.quot_div_nonneg by nia.
  rewrite Z.div_add by lia. reflexivity.
Qed.

(** C8, as the code has it.  [Denormalize norm] is
    [rangeMin + int(((norm + 100) / 200) * (rangeMax - rangeMin))]: the
    [float64] product alone is truncated toward zero, and [rangeMin] is
    added afterwards as an int.  When the product is not negative,
    [rangeMin] is not negative and the sum is an int, this is the integer
    part of the whole expression. *)
Theorem Denormalize_truncates_scaled_offset (c : MotorCalibration) (norm : float) :
  Denormalize c norm
  = option_map (fun t => wrap (t + RangeMin c))
      (int_of_float64
         ((norm + 100) / 200 * float64_of_int (wrap (RangeMax c - RangeMin c)))%float) /\
  forall t,
    int_of_float64 (scaled_offset c norm) = Some t ->
    (0 <=? scaled_offset c norm)%float = true ->
    0 <= RangeMin c -> t + RangeMin c <= int_max ->
    Denormalize c norm = Some (t + RangeMin c) /\
    Denormalize_spec c norm = Some (t + RangeMin c).
Proof.
  split.
  - unfold Denormalize, scaled_offset. now destruct (int_of_float64 _).
  - intros t Ht Hpos Hmin Hmax. unfold Denormalize, Denormalize_spec. rewrite Ht.
    rewrite FloatAxioms.leb_spec in Hpos. unfold int_of_float64 in Ht.
    destruct (Prim2SF (scaled_offset c norm)) as [s|s| |s m e]; try discriminate.
    + injection Ht as <-. cbn [trunc_sum Z.add].
      rewrite wrap_int by (unfold is_int, int_min, int_max in *; lia). now split.
    + destruct s; [discriminate|].
      destruct (_ && _) eqn:Hrange; [|discriminate].
      assert (t = trunc_finite false m e) as -> by congruence. clear Ht.
      apply andb_prop in Hrange as [_ Hle]. apply Z.leb_le in Hle.
      assert (0 <= trunc_finite false m e) as Hnn.
      { unfold trunc_finite, cond_Zopp. destruct e as [|p|p]; [lia| |].
        - apply Z.mul_nonneg_nonneg; [lia|apply Z.pow_nonneg; lia].
        - apply Z.shiftr_nonneg. lia. }
      rewrite wrap_int by (unfold is_int, int_min, int_max in *; lia).
      split; [reflexivity|]. now apply trunc_sum_nonneg.
Qed.

Lemma Denormalize_truncates_scaled_offset_witness :
  Denormalize (cal 1000 3000) (-50)%float = Some 1500 /\
  Denormalize_spec (cal 1000 3000) (-50)%float = Some 1500.
Proof.
  apply (proj2 (Denormalize_truncates_scaled_offset (cal 1000 3000) (-50)%float) 500).
  - reflexivity.
  - reflexivity.
  - simpl. lia.
  - unfold int_max. simpl. lia.
Defined.

(** C8 as the claim words it fails: with overtravel below the range the
    product is negative, and truncating it before [rangeMin] is added gives
    1000 where the integer part of the whole expression, 999.375, is 999. *)
Lemma Denormalize_differs_from_formula :
  Denormalize (cal 1000 3000) (-100.0625)%float = Some 1000 /\
  Denormalize_spec (cal 1000 3000) (-100.0625)%float = Some 999 /\
  Denormalize (cal 1000 3000) (-100.0625)%float
    <> Denormalize_spec (cal 1000 3000) (-100.0625)%float.
Proof.
  assert (Denormalize (cal 1000 3000) (-100.0625)%float = Some 1000) as H1
    by (vm_compute; reflexivity).
  assert (Denormalize_spec (cal 1000 3000) (-100.0625)%float = Some 999) as H2
    by (vm_compute; reflexivity).
  split; [exact H1|split; [exact H2|]]. rewrite H1, H2. discriminate.
Qed.

(** C1 as the claim words it fails: on the range 0 .. 2^62 the raw value
    2^61 + 300 comes back as 2^61 + 512, which is 212 away. *)
Lemma roundtrip_fails_on_wide_range :
  let c := cal 0 (2 ^ 62) in
  let raw := 2 ^ 61 + 300 in
  RangeMin c <= raw <= RangeMax c /\
  Denormalize c (Normalize c raw) = Some (2 ^ 61 + 512) /\
  ~ (exists back, Denormalize c (Normalize c raw) = Some back /\ -1 <= back - raw <= 1).
Proof.
  intros c raw.
  assert (Denormalize c (Normalize c raw) = Some (2 ^ 61 + 512)) as H
    by (vm_compute; reflexivity).
  split; [subst c raw; simpl; lia|split; [exact H|]].
  intros (back & Hb & Hd). rewrite H in Hb. injection Hb as <-. subst raw. lia.
Qed.

(** C7 as the claim words it fails: on the range -2^62 .. 2^62 the
    difference of the bounds overflows, and the midpoint 0 normalises to
    -200. *)
Lemma midpoint_fails_on_overflow :
  let c := cal (- 2 ^ 62) (2 ^ 62) in
  RangeMax c - RangeMin c = 2 * 2 ^ 62 /\
  Normalize c (RangeMin c + 2 ^ 62) = (-200)%float /\
  Normalize c (RangeMin c + 2 ^ 62) <> 0%float.
Proof.
  intros c.
  assert (Normalize c (RangeMin c + 2 ^ 62) = (-200)%float) as H
    by (vm_compute; reflexivity).
  split; [reflexivity|split; [exact H|]]. rewrite H. intros H0.
  apply (f_equal (fun x => PrimFloat.eqb x 0)) in H0. vm_compute in H0. discriminate.
Qed.

End calibration.

(* ===================================================================== *)
(** * Facts about the calibration recorder                                *)
(* ===================================================================== *)

Section recorder.
Import robot setup.

Lemma get_insert_eq (m : gmap string Z) k v : get (<[k := v]> m) k = v.
Proof. unfold get. by rewrite lookup_insert_eq. Qed.

Lemma get_insert_ne (m : gmap string Z) k k' v :
  k ≠ k' → get (<[k := v]> m) k' = get m k'.
Proof. intros. unfold get. by rewrite lookup_insert_ne. Qed.

Lemma seed_loop_other p ms : ∀ i cur mn mx name,
  name ∉ ms →
  let '(cur', mn', mx') := seed_loop p i ms cur mn mx in
  view cur' mn' mx' name = view cur mn mx name.
Proof.
  induction ms as [|m ms IH]; intros i cur mn mx name Hn; simpl; [done|].
  apply not_elem_of_cons in Hn as [Hne Hn].
  specialize (IH (i + 1) (<[m:=pos (p (i + 1))]> cur) (<[m:=pos (p (i + 1))]> mn)
                (<[m:=pos (p (i + 1))]> mx) name Hn).
  destruct (seed_loop _ _ _ _ _ _) as [[c a] b]. rewrite IH.
  unfold view. by rewrite !get_insert_ne.
Qed.

Lemma seed_loop_at p ms : ∀ i cur mn mx (j : nat) name,
  NoDup ms → ms !! j = Some name →
  let '(cur', mn', mx') := seed_loop p i ms cur mn mx in
  let v := pos (p (i + Z.of_nat j + 1)) in
  view cur' mn' mx' name = (v, v, v).
Proof.
  induction ms as [|m ms IH]; intros i cur mn mx j name Hnd Hj; [done|].
  apply NoDup_cons in Hnd as [Hm Hnd]. simpl.
  destruct j as [|j]; simpl in Hj.
  - injection Hj as ->.
    pose proof (seed_loop_other p ms (i + 1) (<[name:=pos (p (i + 1))]> cur)
                  (<[name:=pos (p (i + 1))]> mn) (<[name:=pos (p (i + 1))]> mx) name Hm) as H.
    destruct (seed_loop _ _ _ _ _ _) as [[c a] b]. rewrite H.
    unfold view. rewrite !get_insert_eq. by replace (i + Z.of_nat 0 + 1) with (i + 1) by lia.
  - specialize (IH (i + 1) (<[m:=pos (p (i + 1))]> cur) (<[m:=pos (p (i + 1))]> mn)
                  (<[m:=pos (p (i + 1))]> mx) j name Hnd Hj).
    destruct (seed_loop _ _ _ _ _ _) as [[c a] b].
    by replace (i + Z.of_nat (S j) + 1) with (i + 1 + Z.of_nat j + 1) by lia.
Qed.

Lemma tick_step_view (r : PositionResult) cur mn mx m name :
  err r = None →
  view (<[m := pos r]> cur)
       (if pos r <? get mn m then <[m := pos r]> mn else mn)
       (if pos r >? get mx m then <[m := pos r]> mx else mx) name
  = if decide (m = name) then widen (view cur mn mx name) (pos r)
    else view cur mn mx name.
Proof.
  intros _. unfold view, widen. case_decide as Hd.
  - subst m. rewrite get_insert_eq. f_equal; [f_equal|].
    + destruct (Z.ltb_spec (pos r) (get mn name)); [rewrite get_insert_eq|]; lia.
    + rewrite Z.gtb_ltb.
      destruct (Z.ltb_spec (get mx name) (pos r)); [rewrite get_insert_eq|]; lia.
  - rewrite get_insert_ne by done. f_equal; [f_equal|].
    + destruct (_ <? _); [by rewrite get_insert_ne|done].
    + destruct (_ >? _); [by rewrite get_insert_ne|done].
Qed.

Lemma tick_loop_other p ms : ∀ i cur mn mx name,
  name ∉ ms →
  let '(cur', mn', mx') := tick_loop p i ms cur mn mx in
  view cur' mn' mx' name = view cur mn mx name.
Proof.
  induction ms as [|m ms IH]; intros i cur mn mx name Hn; simpl; [done|].
  apply not_elem_of_cons in Hn as [Hne Hn].
  destruct (err (p (i + 1))) eqn:He.
  - by apply IH.
  - specialize (IH (i + 1) (<[m:=pos (p (i + 1))]> cur)
      (if pos (p (i + 1)) <? get mn m then <[m:=pos (p (i + 1))]> mn else mn)
      (if pos (p (i + 1)) >? get mx m then <[m:=pos (p (i + 1))]> mx else mx) name Hn).
    destruct (tick_loop _ _ _ _ _ _) as [[c a] b]. rewrite IH.
    rewrite tick_step_view by done. by rewrite decide_False by done.
Qed.

Lemma tick_loop_at p ms : ∀ i cur mn mx (j : nat) name,
  NoDup ms → ms !! j = Some name →
  let '(cur', mn', mx') := tick_loop p i ms cur mn mx in
  view cur' mn' mx' name = poll1 (p (i + Z.of_nat j + 1)) (view cur mn mx name).
Proof.
  induction ms as [|m ms IH]; intros i cur mn mx j name Hnd Hj; [done|].
  apply NoDup_cons in Hnd as [Hm Hnd]. simpl.
  destruct j as [|j]; simpl in Hj.
  - injection Hj as ->.
    replace (i + Z.of_nat 0 + 1) with (i + 1) by lia. unfold poll1.
    destruct (err (p (i + 1))) eqn:He.
    + by apply tick_loop_other.
    + pose proof (tick_loop_other p ms (i + 1) (<[name:=pos (p (i + 1))]> cur)
        (if pos (p (i + 1)) <? get mn name then <[name:=pos (p (i + 1))]> mn else mn)
        (if pos (p (i + 1)) >? get mx name then <[name:=pos (p (i + 1))]> mx else mx)
        name Hm) as H.
      destruct (tick_loop _ _ _ _ _ _) as [[c a] b]. rewrite H.
      rewrite tick_step_view by done. by rewrite decide_True by done.
  - replace (i + Z.of_nat (S j) + 1) with (i + 1 + Z.of_nat j + 1) by lia.
    assert (m ≠ name) as Hne.
    { intros ->. apply Hm. by eapply list_elem_of_lookup_2. }
    destruct (err (p (i + 1))) eqn:He.
    + by apply IH.
    + specialize (IH (i + 1) (<[m:=pos (p (i + 1))]> cur)
        (if pos (p (i + 1)) <? get mn m then <[m:=pos (p (i + 1))]> mn else mn)
        (if pos (p (i + 1)) >? get mx m then <[m:=pos (p (i + 1))]> mx else mx)
        j name Hnd Hj).
      destruct (tick_loop _ _ _ _ _ _) as [[c a] b]. rewrite IH.
      rewrite tick_step_view by done. by rewrite decide_False by done.
Qed.

Lemma last_cons_seed (l : list Z) : ∀ x c, List.last (x :: l) c = List.last l x.
Proof.
  induction l as [|y l IH]; intros x c; [done|].
  change (List.last (x :: y :: l) c) with (List.last (y :: l) c).
  by rewrite !IH.
Qed.

Lemma foldl_widen (l : list Z) : ∀ c a b,
  foldl widen (c, a, b) l = (List.last l c, foldl Z.min a l, foldl Z.max b l).
Proof.
  induction l as [|v l IH]; intros c a b; [done|].
  cbn [foldl widen]. by rewrite IH, last_cons_seed.
Qed.

Lemma foldl_min_spec (l : list Z) : ∀ a,
  foldl Z.min a l ∈ a :: l ∧ ∀ v, v ∈ a :: l → foldl Z.min a l ≤ v.
Proof.
  induction l as [|x l IH]; intros a; cbn [foldl].
  - split; [set_solver|]. intros v Hv. apply list_elem_of_singleton in Hv. lia.
  - destruct (IH (Z.min a x)) as [Hin Hle]. split.
    + apply elem_of_cons in Hin as [Heq|Hin]; [|set_solver].
      rewrite Heq. destruct (Z.min_spec a x) as [[_ ->]|[_ ->]]; set_solver.
    + intros v Hv. apply elem_of_cons in Hv as [->|Hv].
      * assert (foldl Z.min (Z.min a x) l ≤ Z.min a x) by (apply Hle; set_solver). lia.
      * apply elem_of_cons in Hv as [->|Hv]; [|apply Hle; set_solver].
        assert (foldl Z.min (Z.min a x) l ≤ Z.min a x) by (apply Hle; set_solver). lia.
Qed.

Lemma foldl_max_spec (l : list Z) : ∀ b,
  foldl Z.max b l ∈ b :: l ∧ ∀ v, v ∈ b :: l → v ≤ foldl Z.max b l.
Proof.
  induction l as [|x l IH]; intros b; cbn [foldl].
  - split; [set_solver|]. intros v Hv. apply list_elem_of_singleton in Hv. lia.
  - destruct (IH (Z.max b x)) as [Hin Hle]. split.
    + apply elem_of_cons in Hin as [Heq|Hin]; [|set_solver].
      rewrite Heq. destruct (Z.max_spec b x) as [[_ ->]|[_ ->]]; set_solver.
    + intros v Hv. apply elem_of_cons in Hv as [->|Hv].
      * assert (Z.max b x ≤ foldl Z.max (Z.max b x) l) by (apply Hle; set_solver). lia.
      * apply elem_of_cons in Hv as [->|Hv]; [|apply Hle; set_solver].
        assert (Z.max b x ≤ foldl Z.max (Z.max b x) l) by (apply Hle; set_solver). lia.
Qed.

Lemma last_in_cons (l : list Z) (c : Z) : List.last l c ∈ c :: l.
Proof.
  revert c. induction l as [|x l IH]; intros c; [set_solver|].
  rewrite last_cons_seed. specialize (IH x). set_solver.
Qed.

Lemma Update_motors m msg : motors (Update m msg).1 = motors m.
Proof.
  destruct msg as [key|p|]; simpl; [by destruct (is_quit_key key)| |done].
  by destruct (tick_loop _ _ _ _ _ _) as [[c a] b].
Qed.

Lemma run_view msgs : ∀ m (j : nat) name,
  NoDup (motors m) → motors m !! j = Some name →
  model_view (run m msgs) name
  = foldl widen (model_view m name) (samples (Z.of_nat j + 1) msgs).
Proof.
  induction msgs as [|msg msgs IH]; intros m j name Hnd Hj; [done|].
  destruct msg as [key|p|]; cbn [run Update samples].
  - destruct (is_quit_key key); [done|]. by apply IH.
  - pose proof (tick_loop_at p (motors m) 0 (curPositions m) (minPositions m)
                  (maxPositions m) j name Hnd Hj) as Ht.
    destruct (tick_loop _ _ _ _ _ _) as [[c a] b].
    rewrite (IH _ j name); [|done|done].
    unfold model_view at 1. cbn [curPositions minPositions maxPositions].
    rewrite Ht. replace (0 + Z.of_nat j + 1) with (Z.of_nat j + 1) by lia.
    unfold poll1. by destruct (err (p (Z.of_nat j + 1))).
  - by apply IH.
Qed.

Lemma AllMotors_NoDup : NoDup AllMotors.
Proof. apply (bool_decide_unpack (NoDup AllMotors)). by vm_compute. Qed.

(** C6. Seeded from the read taken right after torque is disabled, the
    recorder keeps, for every motor and after any sequence of messages,
    [min] and [max] equal to the least and the greatest of the samples
    recorded so far, [current] equal to the latest one, and hence
    [min <= current <= max]. *)
Theorem recorder_tracks_min_max (order : list Z) (p0 : Poll) (msgs : list Msg)
    (j : nat) (name : string) :
  AllMotors !! j = Some name →
  let servoID := Z.of_nat j + 1 in
  let m0 := (calibrateArm_init order p0).2 in
  let m := run m0 msgs in
  let seed := pos (p0 servoID) in
  let recorded := seed :: samples servoID msgs in
  (calibrateArm_init order p0).1
    = map HwDisable order ++ map HwPosition [1; 2; 3; 4; 5; 6] ∧
  model_view m0 name = (seed, seed, seed) ∧
  get (curPositions m) name = List.last recorded seed ∧
  (get (minPositions m) name ∈ recorded ∧
   ∀ v, v ∈ recorded → get (minPositions m) name ≤ v) ∧
  (get (maxPositions m) name ∈ recorded ∧
   ∀ v, v ∈ recorded → v ≤ get (maxPositions m) name) ∧
  get (minPositions m) name ≤ get (curPositions m) name ≤ get (maxPositions m) name.
Proof.
  intros Hj servoID m0 m seed recorded.
  assert (model_view m0 name = (seed, seed, seed)) as H0.
  { subst m0. unfold calibrateArm_init.
    pose proof (seed_loop_at p0 AllMotors 0 ∅ ∅ ∅ j name AllMotors_NoDup Hj) as Hs.
    destruct (seed_loop _ _ _ _ _ _) as [[c a] b]. cbn [snd].
    unfold model_view, newCalibrationModel. cbn [curPositions minPositions maxPositions].
    rewrite Hs. subst seed servoID. by replace (0 + Z.of_nat j + 1) with (Z.of_nat j + 1) by lia. }
  assert (motors m0 = AllMotors) as Hm0.
  { subst m0. unfold calibrateArm_init.
    by destruct (seed_loop _ _ _ _ _ _) as [[c a] b]. }
  assert (model_view m name
          = (List.last (samples servoID msgs) seed,
             foldl Z.min seed (samples servoID msgs),
             foldl Z.max seed (samples servoID msgs))) as Hv.
  { subst m. rewrite (run_view msgs m0 j name); [|by rewrite Hm0; apply AllMotors_NoDup|by rewrite Hm0].
    by rewrite H0, foldl_widen. }
  unfold model_view, view in Hv. injection Hv as Hc Ha Hb.
  destruct (foldl_min_spec (samples servoID msgs) seed) as [Hmin1 Hmin2].
  destruct (foldl_max_spec (samples servoID msgs) seed) as [Hmax1 Hmax2].
  pose proof (last_in_cons (samples servoID msgs) seed) as Hl.
  assert (List.last recorded seed = List.last (samples servoID msgs) seed) as Hlast.
  { subst recorded. by destruct (samples servoID msgs). }
  rewrite Hc, Ha, Hb, Hlast.
  split; [|split; [done|split; [done|split; [done|split; [done|]]]]].
  - unfold calibrateArm_init. by destruct (seed_loop _ _ _ _ _ _) as [[c a] b].
  - split; [by apply Hmin2|by apply Hmax2].
Qed.

Lemma recorder_tracks_min_max_witness :
  let p0 : Poll := fun _ => {| pos := 1500; err := None |} in
  let tick v : Msg := tickMsg (fun _ => {| pos := v; err := None |}) in
  let m := run (calibrateArm_init [1; 2; 3; 4; 5; 6] p0).2
               [tick 1200; tick 1800; tick 1600; KeyMsg "enter"] in
  get (minPositions m) Gripper = 1200 ∧ get (maxPositions m) Gripper = 1800 ∧
  get (minPositions m) Gripper ≤ get (curPositions m) Gripper
    ≤ get (maxPositions m) Gripper.
Proof.
  intros p0 tick m.
  pose proof (recorder_tracks_min_max [1; 2; 3; 4; 5; 6] p0
    [tick 1200; tick 1800; tick 1600; KeyMsg "enter"] 5 Gripper eq_refl)
    as (_ & _ & _ & _ & _ & H).
  split; [by vm_compute|split; [by vm_compute|exact H]].
Defined.

End recorder.

(* ===================================================================== *)
(** * Facts about the teleoperation controller                            *)
(* ===================================================================== *)

Section controller.
Import robot world arm teleop.

(** ** Channels *)

Lemma try_send_room {A} (q : chan A) (v : A) :
  (length (buf q) < capacity q)%nat →
  try_send q v = Some {| capacity := capacity q; buf := buf q ++ [v] |}.
Proof. intros H. unfold try_send. by rewrite (proj2 (Nat.ltb_lt _ _) H). Qed.

Lemma try_send_full {A} (q : chan A) (v : A) :
  (capacity q ≤ length (buf q))%nat → try_send q v = None.
Proof. intros H. unfold try_send. by rewrite (proj2 (Nat.ltb_ge _ _) H). Qed.

Lemma one_slot_cases (q : chan State) :
  one_slot q → q = make_chan 1 ∨ ∃ x, q = slot_with x.
Proof.
  destruct q as [n [|x [|y l]]]; intros [Hc Hl]; simpl in *; subst.
  - by left.
  - right. by exists x.
  - lia.
Qed.

Lemma one_slot_with s : one_slot (slot_with s).
Proof. split; simpl; lia. Qed.

Lemma sendState_one_slot (c : Controller) (s : State) :
  one_slot (stateCh c) → sendState c s = Some (set_stateCh (slot_with s) c).
Proof.
  intros H. unfold sendState.
  destruct (one_slot_cases _ H) as [->|[x ->]]; reflexivity.
Qed.

(** ** [log] and [Now] leave the hardware alone *)

Lemma log_frame (c : Controller) (w : World) (m : LogMsg) :
  let '(c', w') := log c w m in
  calls w' = calls w ∧ opened w' = opened w ∧ clock_reads w' = S (clock_reads w) ∧
  env_now w' = env_now w ∧ env_read w' = env_read w ∧ env_write w' = env_write w ∧
  stateCh c' = stateCh c ∧ running c' = running c ∧ mirror c' = mirror c ∧
  leader c' = leader c ∧ follower c' = follower c ∧ hz c' = hz c ∧
  logCh c' = default (logCh c)
               (try_send (logCh c)
                  {| log_time := env_now w (clock_reads w); log_msg := m |}).
Proof. unfold log, Now. by destruct (try_send _ _). Qed.

(** ** One control cycle, written out *)

Lemma step_on_read_error (c : Controller) (w : World) (e : error) :
  one_slot (stateCh c) →
  env_read w (length (calls w)) = inr e →
  step c w =
    let err := "read positions: " +:+ e in
    let '(c1, w1) := log c (record_call w (ReadCall (bus (leader c)))) (MsgReadError err) in
    Some (set_stateCh (slot_with (error_state w1 err)) c1, (Now w1).2).
Proof.
  intros Hs Hr. unfold step, ReadPositions. rewrite Hr. cbv zeta.
  pose proof (log_frame c (record_call w (ReadCall (bus (leader c))))
                (MsgReadError ("read positions: " +:+ e))) as Hl.
  destruct (log _ _ _) as [c1 w1]. destruct Hl as (_ & _ & _ & _ & _ & _ & Hch & _).
  unfold Now at 1. rewrite sendState_one_slot by (by rewrite Hch). reflexivity.
Qed.

Lemma step_on_read_ok (c : Controller) (w : World) (positions : gmap string float) :
  one_slot (stateCh c) →
  env_read w (length (calls w)) = inl positions →
  step c w =
    let target := follower_target (mirror c) positions in
    let '(werr, w0) := WritePositions (follower c) target
                         (record_call w (ReadCall (bus (leader c)))) in
    let '(c1, w1) := match werr with
                     | Some e => log c w0 (MsgWriteError e)
                     | None => (c, w0)
                     end in
    Some (set_stateCh (slot_with (ok_state w1 positions)) c1, (Now w1).2).
Proof.
  intros Hs Hr. unfold step, ReadPositions. rewrite Hr. cbv zeta.
  unfold follower_target. destruct (WritePositions _ _ _) as [werr w0].
  destruct werr as [e|].
  - pose proof (log_frame c w0 (MsgWriteError e)) as Hl.
    destruct (log _ _ _) as [c1 w1]. destruct Hl as (_ & _ & _ & _ & _ & _ & Hch & _).
    unfold Now at 1. rewrite sendState_one_slot by (by rewrite Hch). reflexivity.
  - unfold Now at 1. rewrite sendState_one_slot by done. reflexivity.
Qed.

(** Every tick attempts a read first, and a write when the read succeeded;
    a controller with a one-slot state channel completes the step. *)
Lemma step_total (c : Controller) (w : World) :
  one_slot (stateCh c) →
  ∃ c' w',
    step c w = Some (c', w') ∧
    one_slot (stateCh c') ∧
    leader c' = leader c ∧ follower c' = follower c ∧
    mirror c' = mirror c ∧ running c' = running c ∧
    calls w' = calls w ++ ReadCall (bus (leader c)) ::
               match env_read w (length (calls w)) with
               | inl positions =>
                   [WriteCall (bus (follower c)) (follower_target (mirror c) positions)]
               | inr _ => []
               end.
Proof.
  intros Hs. destruct (env_read w (length (calls w))) as [positions|e] eqn:Hr.
  - rewrite (step_on_read_ok c w positions Hs Hr). cbv zeta.
    unfold WritePositions.
    destruct (env_write _ _) as [e|].
    + pose proof (log_frame c (record_call (record_call w (ReadCall (bus (leader c))))
                    (WriteCall (bus (follower c)) (follower_target (mirror c) positions)))
                    (MsgWriteError ("write positions: " +:+ e))) as Hl.
      destruct (log _ _ _) as [c1 w1].
      destruct Hl as (Hc & _ & _ & _ & _ & _ & _ & Hrun & Hmi & Hle & Hfo & _).
      eexists _, _. split; [reflexivity|].
      cbn. rewrite Hc, Hrun, Hmi, Hle, Hfo. cbn. rewrite <- app_assoc.
      split; [apply one_slot_with|done].
    + eexists _, _. split; [reflexivity|]. cbn. rewrite <- app_assoc.
      split; [apply one_slot_with|done].
  - rewrite (step_on_read_error c w e Hs Hr). cbv zeta.
    pose proof (log_frame c (record_call w (ReadCall (bus (leader c))))
                  (MsgReadError ("read positions: " +:+ e))) as Hl.
    destruct (log _ _ _) as [c1 w1].
    destruct Hl as (Hc & _ & _ & _ & _ & _ & _ & Hrun & Hmi & Hle & Hfo & _).
    eexists _, _. split; [reflexivity|].
    cbn. rewrite Hc, Hrun, Hmi, Hle, Hfo. cbn.
    split; [apply one_slot_with|done].
Qed.

(** ** Mirroring *)

Lemma mirrored_lookup (positions : gmap string float) (name : string) :
  mirrored positions !! name = mirror_value name <$> positions !! name.
Proof.
  unfold mirrored. rewrite map_lookup_imap. by destruct (positions !! name).
Qed.

Lemma mirrored_dom (positions : gmap string float) :
  dom (mirrored positions) = dom positions.
Proof.
  apply set_eq. intros name. rewrite !elem_of_dom, mirrored_lookup.
  by rewrite fmap_is_Some.
Qed.

(** C2. In a step whose read succeeds, the positions written to the
    follower are [follower_target (mirror c) positions]: the leader
    positions themselves without mirroring, and with mirroring the same
    map with exactly the shoulder_pan and wrist_roll entries negated.  The
    target is a function of the flag and of this tick's positions only. *)
Theorem step_writes_mirrored_positions (c : Controller) (w : World)
    (positions : gmap string float) :
  one_slot (stateCh c) →
  env_read w (length (calls w)) = inl positions →
  ∃ c' w',
    step c w = Some (c', w') ∧
    calls w' = calls w ++ [ReadCall (bus (leader c));
                           WriteCall (bus (follower c))
                             (follower_target (mirror c) positions)] ∧
    follower_target false positions = positions ∧
    dom (follower_target true positions) = dom positions ∧
    ∀ name : string,
      follower_target true positions !! name =
        if bool_decide (name = ShoulderPan ∨ name = WristRoll)
        then PrimFloat.opp <$> positions !! name
        else positions !! name.
Proof.
  intros Hs Hr.
  destruct (step_total c w Hs) as (c' & w' & Hstep & _ & _ & _ & _ & _ & Hcalls).
  rewrite Hr in Hcalls. exists c', w'.
  split; [done|split; [done|split; [done|split; [apply mirrored_dom|]]]].
  intros name. cbn [follower_target]. rewrite mirrored_lookup.
  unfold mirror_value. case_bool_decide; [done|].
  by destruct (positions !! name).
Qed.

Lemma step_writes_mirrored_positions_witness :
  ∃ c' w',
    step (demo.controller true) (demo.quiet (inl demo.positions)) = Some (c', w') ∧
    calls w' = [ReadCall 0; WriteCall 1 (follower_target true demo.positions)] ∧
    follower_target true demo.positions !! ShoulderPan = Some (-10)%float ∧
    follower_target true demo.positions !! ShoulderLift = Some 20%float ∧
    follower_target true demo.positions !! WristRoll = Some 5%float ∧
    follower_target true demo.positions !! Gripper = Some 0%float.
Proof.
  destruct (step_writes_mirrored_positions (demo.controller true)
              (demo.quiet (inl demo.positions)) demo.positions)
    as (c' & w' & Hstep & Hcalls & _ & _ & Hm).
  - split; simpl; lia.
  - reflexivity.
  - exists c', w'. split; [exact Hstep|split; [exact Hcalls|]].
    rewrite !Hm. by vm_compute.
Defined.

(** ** What a step publishes *)

Lemma step_published_ok (c : Controller) (w : World) (positions : gmap string float) :
  one_slot (stateCh c) →
  env_read w (length (calls w)) = inl positions →
  ∃ c' w',
    step c w = Some (c', w') ∧
    buf (stateCh c') =
      [{| Positions := Some positions;
          Timestamp := env_now w (clock_reads w +
                         match env_write w (S (length (calls w))) with
                         | Some _ => 1 | None => 0
                         end)%nat;
          Error := None |}].
Proof.
  intros Hs Hr. rewrite (step_on_read_ok c w positions Hs Hr). cbv zeta.
  unfold WritePositions.
  change (env_write (record_call w (ReadCall (bus (leader c))))) with (env_write w).
  replace (length (calls (record_call w (ReadCall (bus (leader c))))))
    with (S (length (calls w))) by (cbn; rewrite length_app; cbn; lia).
  destruct (env_write w (S (length (calls w)))) as [e|].
  - pose proof (log_frame c (record_call (record_call w (ReadCall (bus (leader c))))
                  (WriteCall (bus (follower c)) (follower_target (mirror c) positions)))
                  (MsgWriteError ("write positions: " +:+ e))) as Hl.
    destruct (log _ _ _) as [c1 w1].
    destruct Hl as (_ & _ & Hclk & Hnow & _).
    eexists _, _. split; [reflexivity|]. cbn. unfold ok_state.
    rewrite Hclk, Hnow. cbn. by rewrite Nat.add_1_r.
  - eexists _, _. split; [reflexivity|]. cbn. unfold ok_state. cbn.
    by rewrite Nat.add_0_r.
Qed.

(** C9. After a step whose read succeeds, the state channel holds exactly
    one snapshot: the leader positions as read, a timestamp taken from the
    clock, and no error.  The snapshot is the same whatever the mirror
    flag: the values computed for the follower never reach it. *)
Theorem step_publishes_leader_positions (c : Controller) (w : World)
    (positions : gmap string float) :
  one_slot (stateCh c) →
  env_read w (length (calls w)) = inl positions →
  ∃ t : Z,
    t = env_now w (clock_reads w +
          match env_write w (S (length (calls w))) with
          | Some _ => 1 | None => 0
          end)%nat ∧
    ∀ b : bool, ∃ c' w',
      step (set_mirror b c) w = Some (c', w') ∧
      buf (stateCh c') =
        [{| Positions := Some positions; Timestamp := t; Error := None |}].
Proof.
  intros Hs Hr. eexists. split; [reflexivity|]. intros b.
  by apply (step_published_ok (set_mirror b c) w positions).
Qed.

Lemma step_publishes_leader_positions_witness :
  ∃ c' w',
    step (demo.controller true) (demo.quiet (inl demo.positions)) = Some (c', w') ∧
    buf (stateCh c') =
      [{| Positions := Some demo.positions; Timestamp := 0; Error := None |}].
Proof.
  destruct (step_publishes_leader_positions (demo.controller false)
              (demo.quiet (inl demo.positions)) demo.positions)
    as (t & Ht & H).
  - split; simpl; lia.
  - reflexivity.
  - destruct (H true) as (c' & w' & Hstep & Hbuf).
    exists c', w'. split; [exact Hstep|]. rewrite Hbuf, Ht. reflexivity.
Defined.

(** C3. A step whose read fails sends the error to the log (queued unless
    the log channel is full), publishes a snapshot holding only the error
    and a timestamp, issues no write, and comes back to the loop, which
    goes on with the next event: the following tick reads again, and
    writes if that read succeeds. *)
Theorem step_read_failure_keeps_looping (c : Controller) (w : World)
    (e : string) (evs : list LoopEvent) :
  one_slot (stateCh c) →
  env_read w (length (calls w)) = inr e →
  let err := "read positions: " +:+ e in
  ∃ c' w',
    step c w = Some (c', w') ∧
    logCh c' = default (logCh c)
                 (try_send (logCh c)
                    {| log_time := env_now w (clock_reads w);
                       log_msg := MsgReadError err |}) ∧
    buf (stateCh c') =
      [{| Positions := None; Timestamp := env_now w (S (clock_reads w));
          Error := Some err |}] ∧
    calls w' = calls w ++ [ReadCall (bus (leader c))] ∧
    running c' = running c ∧
    loop c w (TickerC :: evs) = loop c' w' evs ∧
    ∃ c'' w'',
      step c' w' = Some (c'', w'') ∧
      calls w'' = calls w' ++ ReadCall (bus (leader c)) ::
                  match env_read w' (length (calls w')) with
                  | inl positions =>
                      [WriteCall (bus (follower c))
                         (follower_target (mirror c) positions)]
                  | inr _ => []
                  end.
Proof.
  intros Hs Hr err.
  destruct (step_total c w Hs) as (c' & w' & Hstep & Hs' & Hle & Hfo & Hmi & Hrun & Hcalls).
  rewrite Hr in Hcalls. exists c', w'.
  assert (logCh c' = default (logCh c)
                 (try_send (logCh c)
                    {| log_time := env_now w (clock_reads w);
                       log_msg := MsgReadError err |}) ∧
          buf (stateCh c') =
            [{| Positions := None; Timestamp := env_now w (S (clock_reads w));
                Error := Some err |}]) as [Hlog Hbuf].
  { rewrite (step_on_read_error c w e Hs Hr) in Hstep. cbv zeta in Hstep.
    pose proof (log_frame c (record_call w (ReadCall (bus (leader c))))
                  (MsgReadError ("read positions: " +:+ e))) as Hl.
    destruct (log _ _ _) as [c1 w1].
    destruct Hl as (_ & _ & Hclk & Hnow & _ & _ & _ & _ & _ & _ & _ & _ & Hlg).
    injection Hstep as <- <-. cbn. unfold error_state. rewrite Hclk, Hnow.
    split; [exact Hlg|reflexivity]. }
  split; [done|split; [done|split; [done|split; [done|split; [done|split]]]]].
  - cbn [loop]. by rewrite Hstep.
  - destruct (step_total c' w' Hs') as (c'' & w'' & Hstep' & _ & _ & _ & _ & _ & Hcalls').
    exists c'', w''. split; [done|]. by rewrite Hcalls', Hle, Hfo, Hmi.
Qed.

Lemma step_read_failure_keeps_looping_witness :
  ∃ c' w',
    step (demo.controller false) (demo.quiet (inr "timeout")) = Some (c', w') ∧
    buf (stateCh c') =
      [{| Positions := None; Timestamp := 1;
          Error := Some "read positions: timeout" |}] ∧
    calls w' = [ReadCall 0] ∧
    loop (demo.controller false) (demo.quiet (inr "timeout")) [TickerC; TickerC]
      = loop c' w' [TickerC].
Proof.
  destruct (step_read_failure_keeps_looping (demo.controller false)
              (demo.quiet (inr "timeout")) "timeout" [TickerC])
    as (c' & w' & Hstep & _ & Hbuf & Hcalls & _ & Hloop & _).
  - split; simpl; lia.
  - reflexivity.
  - exists c', w'. split; [exact Hstep|split; [exact Hbuf|split; [exact Hcalls|exact Hloop]]].
Defined.

(** ** Publishing never blocks *)

Lemma publish_all_last (l : list State) : ∀ c : Controller,
  one_slot (stateCh c) →
  ∃ c', publish_all c l = Some c' ∧
        stateCh c' = match last l with
                     | Some s => slot_with s
                     | None => stateCh c
                     end.
Proof.
  induction l as [|s l IH]; intros c Hs; [by exists c|].
  cbn [publish_all]. rewrite sendState_one_slot by done.
  destruct (IH (set_stateCh (slot_with s) c) (one_slot_with s)) as (c' & Hp & Hc).
  exists c'. split; [done|]. rewrite Hc. destruct l as [|x l]; [reflexivity|].
  change (last (s :: x :: l)) with (last (x :: l)).
  destruct (last (x :: l)) eqn:E; [done|]. by apply last_None in E.
Qed.

Lemma sys_step_inv (s : State) (k k' : sendcfg) :
  send_inv k → sys_step s k k' → send_inv k'.
Proof.
  intros [Hs He] Hstep. destruct k as [q p]. cbn [ch pc] in *.
  destruct (one_slot_cases _ Hs) as [->|[x ->]];
    inversion Hstep as [? k2 Hn|? y q' Hrecv]; subst.
  all: try (destruct p; cbn in Hn; simplify_eq).
  all: try (cbn in Hrecv; simplify_eq).
  all: split; [split; cbn; lia|cbn; by intros].
Qed.

Lemma send_inv_reachable (s : State) (q : chan State) (k : sendcfg) :
  one_slot q → rtc (sys_step s) {| ch := q; pc := AtSelect |} k → send_inv k.
Proof.
  intros Hs Hr. revert k Hr. apply (rtc_ind_r (fun k => send_inv k)).
  - by split.
  - intros y z _ Hyz IH. by eapply sys_step_inv.
Qed.

Lemma producer_progress (s : State) (k : sendcfg) :
  send_inv k → pc k = Finished ∨ is_Some (producer_next s k).
Proof.
  intros [Hs He]. destruct k as [q p]. unfold producer_next. cbn [pc ch] in *.
  destruct p; [right|right|right|by left].
  - by destruct (try_send q s).
  - by destruct (try_recv q) as [[??]|].
  - destruct (one_slot_cases _ Hs) as [->|[x ->]]; [done|].
    by specialize (He eq_refl).
Qed.

Lemma producer_finishes_with (s : State) (k k' : sendcfg) :
  send_inv k → producer_next s k = Some k' → pc k' = Finished → ch k' = slot_with s.
Proof.
  intros [Hs He] Hn Hf. destruct k as [q p]. cbn [ch pc] in *.
  destruct (one_slot_cases _ Hs) as [->|[x ->]]; destruct p; cbn in Hn;
    simplify_eq; first [done|by cbn in Hf].
Qed.

Lemma pub_inv_start (c : Controller) (l : list State) :
  one_slot (stateCh c) → pub_inv (stateCh c) l (publishing c l).
Proof.
  intros Hs. unfold pub_inv, publishing. cbn.
  split; [by split|]. split; [done|]. split; [done|]. split; [done|].
  exists []. split; [done|]. intros _ x. done.
Qed.

Lemma take_turn_inv (q0 : chan State) (l : list State) (k : pubcfg) (t : Turn) :
  pub_inv q0 l k → pub_inv q0 l (take_turn k t).
Proof.
  intros ([Hs He] & Hnf & Hnil & Hsub & published & Hl & Hlast).
  destruct k as [[q p] td rc]. cbn [sending todo received ch pc] in *.
  destruct t.
  - (* the producer *)
    destruct td as [|s rest].
    { cbn. split; [by split|]. split; [done|]. split; [done|]. split; [done|].
      by exists published. }
    unfold take_turn. cbn [todo sending received].
    destruct (one_slot_cases _ Hs) as [->|[x ->]]; destruct p; try done; cbn.
    + (* select, empty slot: sent *)
      split; [split; [apply one_slot_with|done]|]. split; [done|]. split; [done|].
      split; [done|]. exists (published ++ [s]).
      split; [by rewrite <- app_assoc|]. intros _ y. rewrite last_snoc.
      intros [= <-]. by left.
    + (* drain, empty slot *)
      split; [split; [done|done]|]. split; [done|]. split; [done|].
      split; [done|]. exists published. split; [done|]. done.
    + (* send, empty slot: sent *)
      split; [split; [apply one_slot_with|done]|]. split; [done|]. split; [done|].
      split; [done|]. exists (published ++ [s]).
      split; [by rewrite <- app_assoc|]. intros _ y. rewrite last_snoc.
      intros [= <-]. by left.
    + (* select, full slot: default branch *)
      split; [split; [apply one_slot_with|done]|]. split; [done|]. split; [done|].
      split; [done|]. exists published. split; [done|]. done.
    + (* drain, full slot: the stale state goes *)
      split; [split; [split; cbn; lia|done]|]. split; [done|]. split; [done|].
      split.
      * etrans; [|exact Hsub]. apply sublist_app; [done|]. cbn. by apply sublist_cons.
      * exists published. split; [done|]. done.
    + (* send, full slot: excluded *)
      by specialize (He eq_refl).
  - (* an observer *)
    unfold take_turn. cbn [todo sending received ch pc].
    destruct (one_slot_cases _ Hs) as [->|[x ->]]; cbn.
    + split; [by split|]. split; [done|]. split; [done|]. split; [done|].
      by exists published.
    + split; [split; [split; cbn; lia|done]|]. split; [done|]. split; [done|].
      split; [cbn in *; by rewrite <- app_assoc|].
      exists published. split; [done|]. cbn. intros Hp y Hy.
      destruct (Hlast Hp y Hy) as [Hx|[Hx _]]; [|done].
      injection Hx as ->. right. split; [done|]. by rewrite last_snoc.
Qed.

Lemma run_turns_inv (q0 : chan State) (l : list State) (sched : list Turn) :
  ∀ k, pub_inv q0 l k → pub_inv q0 l (run_turns k sched).
Proof.
  unfold run_turns. induction sched as [|t sched IH]; intros k Hk; [done|].
  cbn [foldl]. apply IH. by apply take_turn_inv.
Qed.

(** The producer never waits: with a state left to publish, its next
    operation can be made. *)
Lemma pub_inv_progress (q0 : chan State) (l : list State) (k : pubcfg) (s : State)
    (rest : list State) :
  pub_inv q0 l k → todo k = s :: rest → is_Some (producer_next s (sending k)).
Proof.
  intros (Hi & Hnf & _) _.
  destruct (producer_progress s (sending k) Hi) as [?|?]; done.
Qed.

(** Every turn of the producer is one operation less. *)
Lemma take_turn_operations (q0 : chan State) (l : list State) (k : pubcfg) (t : Turn) :
  pub_inv q0 l k →
  (operations_left (take_turn k t)
   ≤ operations_left k - (match t with ProducerTurn => 1 | ObserverTurn => 0 end))%nat.
Proof.
  intros ([Hs He] & Hnf & Hnil & _).
  destruct k as [[q p] td rc]. cbn [sending todo received ch pc] in *.
  unfold operations_left. destruct t.
  - destruct td as [|s rest].
    + cbn. lia.
    + unfold take_turn. cbn [todo sending received].
      destruct (one_slot_cases _ Hs) as [->|[x ->]]; destruct p; try done; cbn; try lia.
      by specialize (He eq_refl).
  - unfold take_turn. cbn [todo sending received ch pc].
    destruct (try_recv q) as [[y q']|]; cbn; lia.
Qed.

Lemma run_turns_operations (q0 : chan State) (l : list State) (sched : list Turn) :
  ∀ k, pub_inv q0 l k →
  (operations_left (run_turns k sched) ≤ operations_left k - producer_turns sched)%nat.
Proof.
  unfold run_turns. induction sched as [|t sched IH]; intros k Hk; [cbn; lia|].
  cbn [foldl]. pose proof (take_turn_operations q0 l k t Hk) as H1.
  pose proof (IH _ (take_turn_inv q0 l k t Hk)) as H2.
  destruct t; cbn [producer_turns]; lia.
Qed.

Lemma operations_left_0 (q0 : chan State) (l : list State) (k : pubcfg) :
  pub_inv q0 l k → operations_left k = 0%nat → todo k = [].
Proof.
  intros _. unfold operations_left. destruct (todo k); [done|].
  cbn [length]. destruct (pc (sending k)); lia.
Qed.

(** A publish that completes leaves its state in the slot. *)
Lemma take_turn_publishes (q0 : chan State) (l : list State) (k : pubcfg) (s : State)
    (rest : list State) :
  pub_inv q0 l k → todo k = s :: rest → todo (take_turn k ProducerTurn) = rest →
  ch (sending (take_turn k ProducerTurn)) = slot_with s.
Proof.
  intros ([Hs He] & Hnf & Hnil & _) Htd.
  destruct k as [[q p] td rc]. cbn [sending todo received ch pc] in *. subst td.
  unfold take_turn. cbn [todo sending received].
  destruct (one_slot_cases _ Hs) as [->|[x ->]]; destruct p; try done; cbn;
    try done; try (intros H; exfalso; apply (f_equal length) in H; cbn in H; lia).
Qed.

(** C4. With its one-slot state channel, [sendState] never blocks the
    control loop.  Alone, any number of publishes complete and leave the
    last state in the slot, and a publish into an occupied slot replaces
    the stale snapshot.  With observers receiving at arbitrary points of
    a single publish, the producer always has a next operation until it
    has finished.  And for every schedule of producer and observer turns
    while the states [l] are published in turn: the producer never waits;
    each of its turns is one of at most three operations per state, so
    that [3 * length l] turns publish all of [l]; a publish that completes
    leaves its state in the slot; the observers receive, in order and
    without repetition, some of the states that were in the channel or
    published; and once everything is published, the latest state is in
    the slot or is the last one an observer received. *)
Theorem sendState_never_blocks (c : Controller) (l : list State) (s old : State)
    (sched : list Turn) :
  one_slot (stateCh c) →
  (∃ c', publish_all c (l ++ [s]) = Some c' ∧ stateCh c' = slot_with s) ∧
  sendState (set_stateCh (slot_with old) c) s = Some (set_stateCh (slot_with s) c) ∧
  (∀ k, rtc (sys_step s) {| ch := stateCh c; pc := AtSelect |} k →
     (pc k = Finished ∨ is_Some (producer_next s k)) ∧
     ∀ k', producer_next s k = Some k' → pc k' = Finished → ch k' = slot_with s) ∧
  let k := run_turns (publishing c l) sched in
  (∀ s' rest, todo k = s' :: rest → is_Some (producer_next s' (sending k))) ∧
  (operations_left k ≤ 3 * length l - producer_turns sched)%nat ∧
  ((3 * length l ≤ producer_turns sched)%nat → todo k = []) ∧
  (∀ s' rest, todo k = s' :: rest → todo (take_turn k ProducerTurn) = rest →
     ch (sending (take_turn k ProducerTurn)) = slot_with s') ∧
  received k `sublist_of` buf (stateCh c) ++ l ∧
  (todo k = [] → ∀ x, last l = Some x →
     ch (sending k) = slot_with x ∨
     (buf (ch (sending k)) = [] ∧ last (received k) = Some x)).
Proof.
  intros Hs. split; [|split; [|split]].
  - destruct (publish_all_last (l ++ [s]) c Hs) as (c' & Hp & Hc).
    exists c'. split; [done|]. by rewrite Hc, last_snoc.
  - by rewrite sendState_one_slot by apply one_slot_with.
  - intros k Hk. pose proof (send_inv_reachable s _ k Hs Hk) as Hi. split.
    + by apply producer_progress.
    + intros k'. by apply producer_finishes_with.
  - intros k.
    pose proof (run_turns_inv _ l sched _ (pub_inv_start c l Hs)) as Hk. fold k in Hk.
    pose proof (run_turns_operations _ l sched _ (pub_inv_start c l Hs)) as Hops.
    fold k in Hops.
    assert (operations_left (publishing c l) = (3 * length l)%nat) as Hstart
      by (unfold operations_left, publishing; cbn [todo sending pc]; lia).
    rewrite Hstart in Hops.
    split; [|split; [|split; [|split; [|split]]]].
    + intros s' rest. by eapply pub_inv_progress.
    + exact Hops.
    + intros Hn. eapply operations_left_0; [exact Hk|]. lia.
    + intros s' rest. by eapply take_turn_publishes.
    + destruct Hk as (_ & _ & _ & Hsub & _).
      etrans; [|exact Hsub]. by apply sublist_inserts_r.
    + intros Htd x Hx. destruct Hk as (_ & _ & Hnil & _ & published & Hl & Hlast).
      rewrite Htd, app_nil_r in Hl. subst published. by apply Hlast; [apply Hnil|].
Qed.

Lemma sendState_never_blocks_witness :
  let s1 := {| Positions := None; Timestamp := 1; Error := Some "e" |} in
  let s2 := {| Positions := Some demo.positions; Timestamp := 2; Error := None |} in
  (∃ c', publish_all (demo.controller false) [s1; s1; s2] = Some c' ∧
         stateCh c' = slot_with s2) ∧
  todo (run_turns (publishing (demo.controller false) [s1; s2])
          [ProducerTurn; ProducerTurn; ObserverTurn; ProducerTurn; ProducerTurn;
           ProducerTurn; ProducerTurn]) = [].
Proof.
  intros s1 s2.
  pose proof (sendState_never_blocks (demo.controller false) [s1; s1] s2 s1 []
                (conj eq_refl (le_S _ _ (le_n 0)))) as H1.
  pose proof (sendState_never_blocks (demo.controller false) [s1; s2] s2 s1
                [ProducerTurn; ProducerTurn; ObserverTurn; ProducerTurn; ProducerTurn;
                 ProducerTurn; ProducerTurn]
                (conj eq_refl (le_S _ _ (le_n 0)))) as H2.
  split; [exact (proj1 H1)|].
  apply H2. vm_compute. lia.
Defined.

(** ** Lifecycle *)

Lemma sendState_running (c c' : Controller) (s : State) :
  sendState c s = Some c' → running c' = running c.
Proof.
  unfold sendState. intros H.
  destruct (try_send (stateCh c) s); [by simplify_eq|].
  destruct (try_send _ s); by simplify_eq.
Qed.

Lemma step_running (c c' : Controller) (w w' : World) :
  step c w = Some (c', w') → running c' = running c.
Proof.
  unfold step. destruct (ReadPositions _ _) as [[positions|e] w0].
  - destruct (WritePositions _ _ _) as [[e|] w1].
    + pose proof (log_frame c w1 (MsgWriteError e)) as Hl.
      destruct (log _ _ _) as [c1 w2]. destruct Hl as (_&_&_&_&_&_&_&Hrun&_).
      destruct (Now w2) as [t w3]. destruct (sendState _ _) eqn:Hsend; [|done].
      intros [= <- <-]. apply sendState_running in Hsend. congruence.
    + destruct (Now w1) as [t w3]. destruct (sendState _ _) eqn:Hsend; [|done].
      intros [= <- <-]. by apply sendState_running in Hsend.
  - pose proof (log_frame c w0 (MsgReadError e)) as Hl.
    destruct (log _ _ _) as [c1 w2]. destruct Hl as (_&_&_&_&_&_&_&Hrun&_).
    destruct (Now w2) as [t w3]. destruct (sendState _ _) eqn:Hsend; [|done].
    intros [= <- <-]. apply sendState_running in Hsend. congruence.
Qed.

(** Ticks leave the running flag as it is. *)
Lemma loop_ticks_running (n : nat) : ∀ (c : Controller) (w : World),
  running (loop c w (replicate n TickerC)).1.1 = running c.
Proof.
  induction n as [|n IH]; intros c w; [done|].
  cbn [replicate loop]. destruct (step c w) as [[c' w']|] eqn:Hstep; [|done].
  rewrite IH. by eapply step_running.
Qed.

Lemma shutdown_running (c : Controller) (w : World) :
  running (shutdown c w).1 = false.
Proof.
  unfold shutdown. destruct (Disable _ _) as [r w0].
  destruct r as [e|].
  - pose proof (log_frame (set_running false c) w0 (MsgWarnDisableFollower e)) as Hl.
    destruct (log _ _ _) as [c1 w1]. destruct Hl as (_&_&_&_&_&_&_&Hrun&_).
    pose proof (log_frame c1 w1 MsgStopped) as Hl.
    destruct (log _ _ _) as [c2 w2]. destruct Hl as (_&_&_&_&_&_&_&Hrun2&_).
    cbn in *. congruence.
  - pose proof (log_frame (set_running false c) w0 MsgFollowerDisabled) as Hl.
    destruct (log _ _ _) as [c1 w1]. destruct Hl as (_&_&_&_&_&_&_&Hrun&_).
    pose proof (log_frame c1 w1 MsgStopped) as Hl.
    destruct (log _ _ _) as [c2 w2]. destruct Hl as (_&_&_&_&_&_&_&Hrun2&_).
    cbn in *. congruence.
Qed.

Lemma Close_running (c : Controller) (w : World) :
  running (Controller_Close c w).1.1 = false.
Proof.
  unfold Controller_Close. destruct (Close _ _) as [e1 w1].
  by destruct (Close _ _) as [e2 w2].
Qed.

Lemma Start_enter_stopped (c : Controller) :
  running c = false → Start_enter c = (set_running true c, None).
Proof. intros H. unfold Start_enter. by rewrite H. Qed.

(** C5, as the code has it.  The running flag is the controller's only
    lifecycle state.  [Start] on a running controller fails with "already
    running" and changes nothing, also after any number of ticks; of two
    calls of [Start] on a controller that is not running, the first enters
    the loop and the second is refused; [shutdown] and [Close] clear the
    flag; and a controller whose flag is clear, stopped or not, is started
    by the next [Start]. *)
Theorem start_guarded_by_running_flag (c : Controller) (w : World)
    (evs : list LoopEvent) (n : nat) :
  Start (set_running true c) w evs
    = (set_running true c, w, Returned "already running") ∧
  (let c' := (loop (set_running true c) w (replicate n TickerC)).1.1 in
   Start_enter c' = (c', Some "already running")) ∧
  (let first := Start_enter (set_running false c) in
   let second := Start_enter first.1 in
   first.2 = None ∧ running first.1 = true ∧
   second = (first.1, Some "already running")) ∧
  running (shutdown c w).1 = false ∧
  running (Controller_Close c w).1.1 = false ∧
  Start_enter (shutdown c w).1 = (set_running true (shutdown c w).1, None) ∧
  Start_enter (Controller_Close c w).1.1
    = (set_running true (Controller_Close c w).1.1, None).
Proof.
  split; [done|split; [|split; [done|split; [|split; [|split]]]]].
  - cbv zeta. unfold Start_enter. by rewrite loop_ticks_running.
  - apply shutdown_running.
  - apply Close_running.
  - apply Start_enter_stopped, shutdown_running.
  - apply Start_enter_stopped, Close_running.
Qed.

(** C5 as the claim words it fails: a controller that has stopped goes
    back to running.  Here a running controller is shut down, then closed,
    and each time the next [Start] enters the loop. *)
Lemma start_after_stop_runs_again :
  let c0 := set_running true (demo.controller false) in
  let w0 := demo.quiet (inl ∅) in
  let stopped := (shutdown c0 w0).1 in
  let closed := (Controller_Close stopped (shutdown c0 w0).2).1.1 in
  running stopped = false ∧
  (Start stopped (shutdown c0 w0).2 []).2 = Looping ∧
  running (Start stopped (shutdown c0 w0).2 []).1.1 = true ∧
  running closed = false ∧
  (Start closed w0 []).2 = Looping ∧
  running (Start closed w0 []).1.1 = true.
Proof. by vm_compute. Qed.

(** ** Construction *)

Lemma NewArm_ok (port : string) (cal : gmap string MotorCalibration) (w : World) :
  env_open w port = None →
  NewArm port cal w =
    (inl {| bus := next_handle w; calibration := cal |},
     record_call (with_opened w ({[next_handle w]} ∪ opened w) (S (next_handle w)))
       (BusOpen port (next_handle w))).
Proof. intros H. unfold NewArm, NewBus. by rewrite H. Qed.

Lemma NewArm_fails (port : string) (cal : gmap string MotorCalibration) (w : World)
    (e : string) :
  env_open w port = Some e → NewArm port cal w = (inr ("open bus: " +:+ e), w).
Proof. intros H. unfold NewArm, NewBus. by rewrite H. Qed.

(** The channels of a controller that [NewController] returns. *)
Lemma NewController_channels NewArmFrom (cfg : Config) (w w' : World) (c : Controller) :
  NewController NewArmFrom cfg w = (inl c, w') →
  stateCh c = make_chan 1 ∧ logCh c = make_chan 10 ∧ running c = false ∧ 0 < hz c.
Proof.
  unfold NewController. destruct (NewArmFrom _ w) as [[ldr|e] w1]; [|done].
  destruct (NewArmFrom _ w1) as [[flw|e] w2].
  - intros [= <- <-]. cbn. repeat split. destruct (Z.leb_spec (Hz cfg) 0); lia.
  - by destruct (Close ldr w2).
Qed.

(** C10. When the leader arm is constructed and the follower arm is not,
    [NewController] closes the leader's bus as its last action, and
    returns the error and no controller.  The leader's handle is then not
    open; if constructing the leader opened exactly that handle and the
    failed construction of the follower opened none, the open handles are
    those from before the call. *)
Theorem NewController_closes_leader_on_failure
    (NewArmFrom : ArmConfig → World → (Arm + string) * World)
    (cfg : Config) (w w1 w2 : World) (ldr : Arm) (e : string) :
  NewArmFrom {| Port := LeaderPort cfg; CalibrationPath := LeaderCalib cfg |} w
    = (inl ldr, w1) →
  NewArmFrom {| Port := FollowerPort cfg; CalibrationPath := FollowerCalib cfg |} w1
    = (inr e, w2) →
  ∃ w3,
    NewController NewArmFrom cfg w = (inr ("create follower arm: " +:+ e), w3) ∧
    calls w3 = calls w2 ++ [BusClose (bus ldr)] ∧
    opened w3 = opened w2 ∖ {[bus ldr]} ∧
    (bus ldr ∉ opened w3) ∧
    (opened w1 = {[bus ldr]} ∪ opened w → (bus ldr ∉ opened w) →
     opened w2 = opened w1 → opened w3 = opened w).
Proof.
  intros H1 H2. unfold NewController. rewrite H1, H2.
  eexists. split; [reflexivity|]. cbn.
  split; [done|split; [done|split; [set_solver|]]].
  intros Ho Hn ->. rewrite Ho. set_solver.
Qed.

Lemma NewController_closes_leader_on_failure_witness :
  ∃ w3,
    NewController (NewArm_of_config (fun _ => ∅)) (demo.config false)
      demo.follower_unplugged
      = (inr "create follower arm: open bus: no such device", w3) ∧
    calls w3 = [BusOpen "/dev/leader" 0; BusClose 0] ∧
    opened w3 = opened demo.follower_unplugged.
Proof.
  destruct (NewController_closes_leader_on_failure (NewArm_of_config (fun _ => ∅))
              (demo.config false) demo.follower_unplugged
              (NewArm_of_config (fun _ => ∅)
                 {| Port := "/dev/leader"; CalibrationPath := "leader.json" |}
                 demo.follower_unplugged).2
              (NewArm_of_config (fun _ => ∅)
                 {| Port := "/dev/leader"; CalibrationPath := "leader.json" |}
                 demo.follower_unplugged).2
              {| bus := 0; calibration := ∅ |} "open bus: no such device")
    as (w3 & Hnew & Hcalls & _ & _ & Hopened).
  - reflexivity.
  - reflexivity.
  - exists w3. split; [exact Hnew|split; [exact Hcalls|]].
    apply Hopened.
    + reflexivity.
    + apply (bool_decide_unpack (0%nat ∉ (∅ : gset nat))). by vm_compute.
    + reflexivity.
Defined.

(** With [NewArm] of arm.go, whose only failure is a bus that does not
    open, construction is atomic in every world. *)
Lemma NewController_atomic_with_NewArm
    (load : string → gmap string MotorCalibration) (cfg : Config) (w : World)
    (e : string) :
  fresh_ok w →
  env_open w (LeaderPort cfg) = None →
  env_open w (FollowerPort cfg) = Some e →
  ∃ w3,
    NewController (NewArm_of_config load) cfg w
      = (inr ("create follower arm: " +:+ ("open bus: " +:+ e)), w3) ∧
    calls w3 = calls w ++ [BusOpen (LeaderPort cfg) (next_handle w);
                           BusClose (next_handle w)] ∧
    opened w3 = opened w.
Proof.
  intros Hf Hl Hfo. unfold NewController, NewArm_of_config. cbn [Port CalibrationPath].
  rewrite (NewArm_ok _ _ _ Hl). rewrite (NewArm_fails _ _ _ e) by (cbn; exact Hfo).
  eexists. split; [reflexivity|]. cbn. split; [by rewrite <- app_assoc|].
  assert (next_handle w ∉ opened w) by (intros Hin; apply Hf in Hin; lia).
  set_solver.
Qed.

End controller.

(* ===================================================================== *)
(** * Facts about calibration maps                                        *)
(* ===================================================================== *)

Section calibration_maps.
Import robot calib.

(** ** [MotorIDs] *)

Lemma MotorIDs_loop_spec (c : gmap string MotorCalibration) (names : list MotorName) :
  ∀ ids, MotorIDs_loop c names ids = ids ++ omap (λ name, ID <$> c !! name) names.
Proof.
  induction names as [|name names IH]; intros ids; simpl.
  - by rewrite app_nil_r.
  - destruct (c !! name) as [mc|]; simpl; rewrite IH; [by rewrite <- app_assoc|done].
Qed.

Lemma omap_ext_in {A B} (f g : A → option B) (l : list A) :
  (∀ x, x ∈ l → f x = g x) → omap f l = omap g l.
Proof.
  induction l as [|x l IH]; intros H; [done|].
  assert (omap f l = omap g l) as IH' by (apply IH; intros y Hy; apply H; set_solver).
  assert (f x = g x) as Hx by (apply H; set_solver).
  change (omap f (x :: l)) with (match f x with Some y => y :: omap f l | None => omap f l end).
  change (omap g (x :: l)) with (match g x with Some y => y :: omap g l | None => omap g l end).
  by rewrite Hx, IH'.
Qed.

Lemma omap_length_le {A B} (f : A → option B) (l : list A) :
  (length (omap f l) ≤ length l)%nat.
Proof.
  induction l as [|x l IH]; [simpl; lia|].
  change (omap f (x :: l)) with (match f x with Some y => y :: omap f l | None => omap f l end).
  destruct (f x); simpl length; lia.
Qed.

(** X1. [MotorIDs] lists the IDs of the motors of [AllMotors] that the
    calibration knows, in the order of [AllMotors] (not of the IDs); it
    never has more than six entries, and an entry filed under any other
    name is left out. *)
Theorem MotorIDs_lists_known_motors (c : gmap string MotorCalibration) :
  MotorIDs c = omap (λ name, ID <$> c !! name) AllMotors ∧
  (length (MotorIDs c) ≤ 6)%nat ∧
  (∀ id, id ∈ MotorIDs c ↔
         ∃ name mc, name ∈ AllMotors ∧ c !! name = Some mc ∧ ID mc = id) ∧
  (∀ name mc, name ∉ AllMotors → MotorIDs (<[name := mc]> c) = MotorIDs c).
Proof.
  assert (∀ c', MotorIDs c' = omap (λ name, ID <$> c' !! name) AllMotors) as Heq
    by (intros c'; unfold MotorIDs; by rewrite MotorIDs_loop_spec).
  split; [apply Heq|split; [|split]].
  - rewrite Heq. apply (omap_length_le _ AllMotors).
  - intros id. rewrite Heq, list_elem_of_omap. split.
    + intros (name & Hin & Hf). destruct (c !! name) as [mc|] eqn:E; [|done].
      simpl in Hf. exists name, mc. by simplify_eq.
    + intros (name & mc & Hin & Hc & <-). exists name. by rewrite Hc.
  - intros name mc Hn. rewrite !Heq. apply omap_ext_in.
    intros x Hx. rewrite lookup_insert_ne; [done|]. by intros ->.
Qed.

(** ** [ByID] *)

Lemma ByID_found (entries : list (MotorName * MotorCalibration)) (id : Z) name mc :
  ByID entries id = (name, mc, true) → (name, mc) ∈ entries ∧ ID mc = id.
Proof.
  induction entries as [|[n m] entries IH]; simpl; [done|].
  destruct (Z.eqb_spec (ID m) id) as [Heq|Hne].
  - intros [= <- <-]. split; [left|done].
  - intros H. destruct (IH H) as [Hin Hid]. split; [by right|done].
Qed.

Lemma ByID_missing (entries : list (MotorName * MotorCalibration)) (id : Z) name mc :
  ByID entries id = (name, mc, false) →
  name = "" ∧ mc = zero_calibration ∧ ∀ n m, (n, m) ∈ entries → ID m ≠ id.
Proof.
  induction entries as [|[n m] entries IH]; simpl.
  - intros [= <- <-]. split; [done|split; [done|]]. intros n m H. by apply elem_of_nil in H.
  - destruct (Z.eqb_spec (ID m) id) as [Heq|Hne]; [done|].
    intros H. destruct (IH H) as (Hn & Hm & Hall). split; [done|split; [done|]].
    intros n' m' [[= -> ->]|Hin]%elem_of_cons; [done|by eapply Hall].
Qed.

Lemma ranges_over_elem `{Countable K} {A} (m : gmap K A) entries k v :
  ranges_over m entries → (k, v) ∈ entries ↔ m !! k = Some v.
Proof. intros Hp. unfold ranges_over in Hp. rewrite Hp. apply elem_of_map_to_list. Qed.

Lemma ByID_ranges (c : gmap string MotorCalibration)
    (entries : list (MotorName * MotorCalibration)) (id : Z) :
  ranges_over c entries →
  (∀ name mc, ByID entries id = (name, mc, true) → c !! name = Some mc ∧ ID mc = id) ∧
  (∀ name mc, ByID entries id = (name, mc, false) →
     ∀ n m, c !! n = Some m → ID m ≠ id).
Proof.
  intros Hr. split.
  - intros name mc [Hin Hid]%ByID_found. split; [|done].
    by apply (ranges_over_elem c entries).
  - intros name mc (_ & _ & Hall)%ByID_missing n m Hc.
    apply (Hall n m). by apply (ranges_over_elem c entries).
Qed.

(** X2. Whatever the order in which the map is visited, [ByID] answers [true]
    with a motor of the calibration that has the ID asked for, and
    [("", MotorCalibration{}, false)] exactly when no motor has it. *)
Theorem ByID_finds_a_motor_with_the_id (c : gmap string MotorCalibration)
    (entries : list (MotorName * MotorCalibration)) (id : Z) :
  ranges_over c entries →
  match ByID entries id with
  | (name, mc, true) => c !! name = Some mc ∧ ID mc = id
  | (name, mc, false) =>
      name = "" ∧ mc = zero_calibration ∧ ∀ n m, c !! n = Some m → ID m ≠ id
  end.
Proof.
  intros Hr. destruct (ByID entries id) as [[name mc] [|]] eqn:E.
  - apply ByID_found in E as [Hin Hid]. split; [|done].
    by apply (ranges_over_elem c entries).
  - apply ByID_missing in E as (Hn & Hm & Hall). split; [done|split; [done|]].
    intros n m Hc. apply (Hall n m). by apply (ranges_over_elem c entries).
Qed.

Lemma ByID_finds_a_motor_with_the_id_witness :
  let c := test_calibration in
  (c !! (ByID (map_to_list c) 6).1.1 = Some (ByID (map_to_list c) 6).1.2) ∧
  (ByID (map_to_list c) 99).2 = false.
Proof.
  intros c.
  pose proof (ByID_finds_a_motor_with_the_id c (map_to_list c) 6 (reflexivity _)) as H6.
  pose proof (ByID_finds_a_motor_with_the_id c (map_to_list c) 99 (reflexivity _)) as H99.
  split.
  - destruct (ByID (map_to_list c) 6) as [[name mc] [|]] eqn:E; [by destruct H6|].
    exfalso. destruct H6 as (_ & _ & Hall). by apply (Hall Gripper _ eq_refl).
  - destruct (ByID (map_to_list c) 99) as [[name mc] [|]] eqn:E; [|done].
    exfalso. destruct H99 as [Hc Hid].
    assert (ID mc = 1 ∨ ID mc = 6) as [?|?]; [|lia|lia].
    unfold c, test_calibration in Hc. apply lookup_insert_Some in Hc as [[_ <-]|[_ Hc]]; [by left|].
    apply lookup_singleton_Some in Hc as [_ <-]. by right.
Defined.

Lemma unique_ids_inj (c : gmap string MotorCalibration) n1 m1 n2 m2 :
  unique_ids c → c !! n1 = Some m1 → c !! n2 = Some m2 → ID m1 = ID m2 → n1 = n2.
Proof.
  unfold unique_ids. intros Hnd H1 H2 Hid.
  apply elem_of_map_to_list in H1, H2.
  apply list_elem_of_lookup in H1 as [i1 H1]. apply list_elem_of_lookup in H2 as [i2 H2].
  assert (i1 = i2) as ->.
  { eapply NoDup_lookup; [exact Hnd| |]; rewrite list_lookup_fmap.
    - rewrite H1. reflexivity.
    - rewrite H2. simpl. by rewrite Hid. }
  congruence.
Qed.

Lemma ByID_unique (c : gmap string MotorCalibration) entries id name mc :
  unique_ids c → ranges_over c entries →
  c !! name = Some mc → ID mc = id → ByID entries id = (name, mc, true).
Proof.
  intros Hu Hr Hc Hid.
  destruct (ByID_ranges c entries id Hr) as [Hfound Hmissing].
  destruct (ByID entries id) as [[n m] [|]].
  - destruct (Hfound n m eq_refl) as [Hn Hm].
    assert (n = name) as -> by (eapply unique_ids_inj; eauto; congruence).
    congruence.
  - by destruct (Hmissing n m eq_refl name mc Hc).
Qed.

(** X3. When no two motors share an ID, the answer of [ByID] does not depend
    on the order in which the map is visited. *)
Theorem ByID_deterministic_on_unique_ids (c : gmap string MotorCalibration)
    (e1 e2 : list (MotorName * MotorCalibration)) (id : Z) :
  unique_ids c → ranges_over c e1 → ranges_over c e2 → ByID e1 id = ByID e2 id.
Proof.
  intros Hu H1 H2.
  destruct (ByID_ranges c e1 id H1) as [Hfound1 Hmissing1].
  destruct (ByID e1 id) as [[n m] [|]] eqn:E1.
  - destruct (Hfound1 n m eq_refl) as [Hc Hid]. symmetry. by eapply ByID_unique.
  - pose proof (Hmissing1 n m eq_refl) as Hall.
    apply ByID_missing in E1 as (-> & -> & _).
    destruct (ByID_ranges c e2 id H2) as [Hfound2 _].
    destruct (ByID e2 id) as [[n m] [|]] eqn:E2.
    + destruct (Hfound2 n m eq_refl) as [Hc Hid]. by destruct (Hall n m Hc).
    + by apply ByID_missing in E2 as (-> & -> & _).
Qed.

Lemma test_calibration_unique : unique_ids test_calibration.
Proof. apply (bool_decide_unpack (unique_ids test_calibration)). by vm_compute. Qed.

Lemma ByID_deterministic_on_unique_ids_witness :
  ByID (map_to_list test_calibration) 6 = ByID (reverse (map_to_list test_calibration)) 6.
Proof.
  apply (ByID_deterministic_on_unique_ids test_calibration).
  - apply (bool_decide_unpack (unique_ids test_calibration)). by vm_compute.
  - unfold ranges_over. reflexivity.
  - unfold ranges_over. apply reverse_Permutation.
Defined.

(** X4. When two motors share an ID, the map can be visited in two orders on
    which [ByID] names the one and the other. *)
Theorem ByID_shared_id_depends_on_order (c : gmap string MotorCalibration)
    (n1 n2 : MotorName) (m1 m2 : MotorCalibration) :
  c !! n1 = Some m1 → c !! n2 = Some m2 → n1 ≠ n2 → ID m1 = ID m2 →
  ∃ e1 e2, ranges_over c e1 ∧ ranges_over c e2 ∧
           ByID e1 (ID m1) = (n1, m1, true) ∧ ByID e2 (ID m1) = (n2, m2, true).
Proof.
  intros H1 H2 Hne Hid.
  exists ((n1, m1) :: map_to_list (delete n1 c)), ((n2, m2) :: map_to_list (delete n2 c)).
  split; [by apply map_to_list_delete|split; [by apply map_to_list_delete|]].
  simpl. rewrite Z.eqb_refl, <- Hid, Z.eqb_refl. done.
Qed.

(** ** The conversion loops of [ReadPositions] and [WritePositions] *)

Lemma ranges_over_list_to_map `{Countable K} {A} (m : gmap K A) (entries : list (K * A)) :
  ranges_over m entries → NoDup entries.*1 ∧ list_to_map entries = m.
Proof.
  unfold ranges_over. intros Hp.
  assert (NoDup entries.*1) as Hnd by (rewrite Hp; apply NoDup_fst_map_to_list).
  split; [exact Hnd|].
  rewrite (list_to_map_proper _ _ Hnd Hp). apply list_to_map_to_list.
Qed.

Lemma normalize_positions_union (c : gmap string MotorCalibration)
    (order : Z → list (MotorName * MotorCalibration)) (raws : list (Z * Z)) :
  unique_ids c → (∀ id, ranges_over c (order id)) → NoDup raws.*1 →
  ∀ acc,
    normalize_positions order raws acc
    = omap (λ mc, Normalize mc <$> (list_to_map raws : gmap Z Z) !! ID mc) c ∪ acc.
Proof.
  intros Hu Hord. induction raws as [|[id raw] rest IH]; intros Hnd acc.
  - simpl. apply map_eq. intros name.
    rewrite lookup_union, lookup_omap. destruct (c !! name) as [mc|]; simpl.
    + rewrite lookup_empty. simpl. by destruct (acc !! name).
    + by destruct (acc !! name).
  - apply NoDup_cons in Hnd as [Hnotin Hnd]. simpl in Hnotin.
    assert ((list_to_map rest : gmap Z Z) !! id = None) as Hrest
      by (by apply not_elem_of_list_to_map_1).
    cbn [normalize_positions]. rewrite list_to_map_cons.
    destruct (ByID_ranges c (order id) id (Hord id)) as [Hfound Hmissing].
    destruct (ByID (order id) id) as [[n mc] [|]].
    + destruct (Hfound n mc eq_refl) as [Hc Hid]. rewrite IH by exact Hnd.
      apply map_eq. intros name. rewrite !lookup_union, !lookup_omap.
      destruct (decide (name = n)) as [->|Hne].
      * rewrite Hc. simpl. rewrite Hid, Hrest, lookup_insert_eq. simpl.
        rewrite lookup_insert_eq. by destruct (acc !! n).
      * rewrite (lookup_insert_ne acc) by done.
        destruct (c !! name) as [mc'|] eqn:E; simpl; [|done].
        rewrite lookup_insert_ne; [done|].
        intros Heq. apply Hne. symmetry.
        eapply (unique_ids_inj c n mc name mc'); eauto. congruence.
    + pose proof (Hmissing n mc eq_refl) as Hall. rewrite IH by exact Hnd.
      apply map_eq. intros name. rewrite !lookup_union, !lookup_omap.
      destruct (c !! name) as [mc'|] eqn:E; simpl; [|done].
      rewrite lookup_insert_ne; [done|]. intros Heq. by apply (Hall name mc').
Qed.

(** X5. [ReadPositions] on a calibration without shared IDs: whatever the
    orders in which the maps are visited, the result holds, for each motor
    of the calibration whose ID the bus answered, [Normalize] of the raw
    value, and nothing else; an ID the calibration does not know is
    skipped. *)
Theorem ReadPositions_normalizes_each_known_motor (c : gmap string MotorCalibration)
    (order : Z → list (MotorName * MotorCalibration))
    (rawPositions : gmap Z Z) (raws : list (Z * Z)) :
  unique_ids c → (∀ id, ranges_over c (order id)) → ranges_over rawPositions raws →
  normalize_positions order raws ∅
  = omap (λ mc, Normalize mc <$> rawPositions !! ID mc) c.
Proof.
  intros Hu Hord Hr. apply ranges_over_list_to_map in Hr as [Hnd Hmap].
  rewrite (normalize_positions_union c order raws Hu Hord Hnd), Hmap.
  apply map_eq. intros name. rewrite lookup_union, lookup_empty.
  by destruct (omap _ c !! name).
Qed.

Lemma denormalize_positions_lookup (c : gmap string MotorCalibration)
    (targets : list (MotorName * float)) :
  unique_ids c → NoDup targets.*1 →
  ∀ acc,
    (∀ name mc, c !! name = Some mc →
       denormalize_positions c targets acc !! ID mc
       = match (list_to_map targets : gmap string float) !! name with
         | Some norm => Some (Denormalize mc norm)
         | None => acc !! ID mc
         end) ∧
    (∀ id, (∀ name mc, c !! name = Some mc → ID mc ≠ id) →
       denormalize_positions c targets acc !! id = acc !! id).
Proof.
  intros Hu. induction targets as [|[n norm] rest IH]; intros Hnd acc.
  - simpl. split; [intros name mc _; by rewrite lookup_empty|done].
  - apply NoDup_cons in Hnd as [Hnotin Hnd]. simpl in Hnotin.
    assert ((list_to_map rest : gmap string float) !! n = None) as Hrest
      by (by apply not_elem_of_list_to_map_1).
    cbn [denormalize_positions]. rewrite list_to_map_cons.
    destruct (c !! n) as [cal|] eqn:Hcn.
    + destruct (IH Hnd (<[ID cal := Denormalize cal norm]> acc)) as [IH1 IH2]. split.
      * intros name mc Hc. rewrite (IH1 name mc Hc).
        destruct (decide (name = n)) as [->|Hne].
        -- assert (mc = cal) as -> by congruence.
           by rewrite Hrest, !lookup_insert_eq.
        -- rewrite (lookup_insert_ne _ n name) by done.
           destruct (list_to_map rest !! name); [done|].
           rewrite lookup_insert_ne; [done|]. intros Heq. apply Hne. symmetry.
           by eapply (unique_ids_inj c n cal name mc).
      * intros id Hall. rewrite (IH2 id Hall).
        rewrite lookup_insert_ne; [done|]. by apply (Hall n cal).
    + destruct (IH Hnd acc) as [IH1 IH2]. split; [|exact IH2].
      intros name mc Hc. rewrite (IH1 name mc Hc).
      rewrite lookup_insert_ne; [done|]. intros ->. congruence.
Qed.

(** X6. [WritePositions] on a calibration without shared IDs: whatever the
    order in which the targets are visited, the raw map sent to the bus
    holds, under the ID of each motor of the calibration that has a
    target, [Denormalize] of that target, and nothing under any other ID;
    a target for a name the calibration does not know is dropped. *)
Theorem WritePositions_denormalizes_each_known_motor (c : gmap string MotorCalibration)
    (positions : gmap string float) (targets : list (MotorName * float)) :
  unique_ids c → ranges_over positions targets →
  (∀ name mc, c !! name = Some mc →
     denormalize_positions c targets ∅ !! ID mc
     = Denormalize mc <$> positions !! name) ∧
  (∀ id, (∀ name mc, c !! name = Some mc → ID mc ≠ id) →
     denormalize_positions c targets ∅ !! id = None).
Proof.
  intros Hu Hr. apply ranges_over_list_to_map in Hr as [Hnd Hmap].
  destruct (denormalize_positions_lookup c targets Hu Hnd ∅) as [H1 H2]. split.
  - intros name mc Hc. rewrite (H1 name mc Hc), Hmap, lookup_empty.
    by destruct (positions !! name).
  - intros id Hall. by rewrite (H2 id Hall), lookup_empty.
Qed.

Lemma ByID_shared_id_depends_on_order_witness :
  ∃ e1 e2, ranges_over clashing_calibration e1 ∧ ranges_over clashing_calibration e2 ∧
           (ByID e1 1).1.1 = ShoulderPan ∧ (ByID e2 1).1.1 = WristRoll.
Proof.
  destruct (ByID_shared_id_depends_on_order clashing_calibration ShoulderPan WristRoll
              {| ID := 1; DriveMode := 0; HomingOffset := 0; RangeMin := 823; RangeMax := 3540 |}
              {| ID := 1; DriveMode := 0; HomingOffset := 0; RangeMin := 0; RangeMax := 4095 |})
    as (e1 & e2 & H1 & H2 & Hb1 & Hb2).
  - by vm_compute.
  - by vm_compute.
  - by vm_compute.
  - reflexivity.
  - exists e1, e2. simpl in Hb1, Hb2. rewrite Hb1, Hb2. done.
Defined.

Lemma ReadPositions_normalizes_each_known_motor_witness :
  let rawPositions : gmap Z Z := {[ 1 := 1023; 6 := 3000; 9 := 2000 ]} in
  normalize_positions (λ _, map_to_list test_calibration) (map_to_list rawPositions) ∅
  = omap (λ mc, Normalize mc <$> rawPositions !! ID mc) test_calibration.
Proof.
  intros rawPositions.
  apply (ReadPositions_normalizes_each_known_motor test_calibration).
  - apply (bool_decide_unpack (unique_ids test_calibration)). by vm_compute.
  - intros id. unfold ranges_over. reflexivity.
  - unfold ranges_over. reflexivity.
Defined.

Lemma WritePositions_denormalizes_each_known_motor_witness :
  let positions : gmap string float := {[ ShoulderPan := 50%float; ElbowFlex := 0%float ]} in
  denormalize_positions test_calibration (map_to_list positions) ∅ !! 1
  = Some (Denormalize {| ID := 1; DriveMode := 0; HomingOffset := 978;
                         RangeMin := 823; RangeMax := 3540 |} 50) ∧
  denormalize_positions test_calibration (map_to_list positions) ∅ !! 3 = None.
Proof.
  intros positions.
  destruct (WritePositions_denormalizes_each_known_motor test_calibration positions
              (map_to_list positions)) as [H1 H2].
  - apply (bool_decide_unpack (unique_ids test_calibration)). by vm_compute.
  - unfold ranges_over. reflexivity.
  - split.
    + pose proof (H1 ShoulderPan _ eq_refl) as H. cbn [ID] in H. rewrite H. reflexivity.
    + apply H2. intros name mc Hc Hid.
      unfold test_calibration in Hc. apply lookup_insert_Some in Hc as [[_ <-]|[_ Hc]]; [done|].
      apply lookup_singleton_Some in Hc as [_ <-]. done.
Defined.

End calibration_maps.

Section calibration_exact.
Import robot calib.

(** ** Exact products *)

(** Multiplying a normal float by a power of two only moves its exponent. *)
Lemma SFmul_pow2_l (j : Z) (s : bool) (m : positive) (e : Z) :
  Zpos (digits2_pos m) = 53 → -300 <= e <= 300 → -200 <= j <= 200 →
  SFmul prec emax (S754_finite false 4503599627370496 (j - 52)) (S754_finite s m e)
  = S754_finite s m (e + j).
Proof.
  intros Hd He Hj. cbn [SFmul xorb].
  pose proof (digits_bounds m) as [Hm1 Hm2]. rewrite Hd in Hm1, Hm2.
  change (2 ^ (53 - 1)) with 4503599627370496 in Hm1.
  change (2 ^ 53) with 9007199254740992 in Hm2.
  set (p := (4503599627370496 * m)%positive).
  assert (Zpos p = 4503599627370496 * Zpos m) as Hp by (unfold p; lia).
  assert (Zpos (digits2_pos p) = 105) as Hdp.
  { apply digits_unique. rewrite Hp.
    change (2 ^ (105 - 1)) with (4503599627370496 * 4503599627370496).
    change (2 ^ 105) with (4503599627370496 * 9007199254740992). lia. }
  destruct (binary_round_aux_value s p (j - 52 + e) loc_Exact (Zpos p) 1
              (Rep_exact (Zpos p) ltac:(lia)))
    as (m' & n & Hres & Hdm' & Hn & Herr); [lia|lia|lia|].
  rewrite Hres. rewrite Hdp in Hn, Herr.
  pose proof (digits_bounds m') as [Hm1' Hm2']. rewrite Hdm' in Hm1', Hm2'.
  change (2 ^ (53 - 1)) with 4503599627370496 in Hm1'.
  change (2 ^ 53) with 9007199254740992 in Hm2'.
  change (2 ^ (105 - 53)) with 4503599627370496 in Herr.
  assert (n = 52 ∨ n = 53) as [->| ->] by lia.
  - change (2 ^ 52) with 4503599627370496 in Herr.
    assert (m' = m) as -> by lia. f_equal. lia.
  - change (2 ^ 53) with 9007199254740992 in Herr. lia.
Qed.

(** The integer part of [N * 2^E * 2^(-(E + k))] is [N / 2^k]. *)
Lemma trunc_finite_scaled (m : positive) (N E k : Z) :
  Zpos m = N * 2 ^ E → 0 <= E → 0 <= k →
  trunc_finite false m (- (E + k)) = N / 2 ^ k.
Proof.
  intros Hm HE Hk. unfold trunc_finite, cond_Zopp.
  assert (0 < 2 ^ E) by (apply Z.pow_pos_nonneg; lia).
  destruct (- (E + k)) as [|q|q] eqn:Eq; [|lia|].
  - assert (E = 0) as -> by lia. assert (k = 0) as -> by lia.
    rewrite Hm. change (2 ^ 0) with 1. rewrite Z.div_1_r. lia.
  - rewrite Z.shiftr_div_pow2 by lia. replace (Zpos q) with (E + k) by lia.
    rewrite Hm, Z.pow_add_r by lia. rewrite (Z.mul_comm N), Z.div_mul_cancel_l; lia.
Qed.

Lemma int_of_float64_scaled (g : float) (m : positive) (N E k : Z) :
  Prim2SF g = S754_finite false m (- (E + k)) →
  Zpos m = N * 2 ^ E → 0 <= E → 0 <= k → 0 <= N <= int_max →
  int_of_float64 g = Some (N / 2 ^ k).
Proof.
  intros Hg Hm HE Hk HN. unfold int_of_float64. rewrite Hg. cbv zeta.
  rewrite (trunc_finite_scaled m N E k Hm HE Hk).
  assert (0 < 2 ^ k) by (apply Z.pow_pos_nonneg; lia).
  assert (0 <= N / 2 ^ k <= N) as Hq.
  { split; [apply Z.div_pos; lia|]. apply Z.div_le_upper_bound; [lia|]. nia. }
  assert ((int_min <=? N / 2 ^ k) && (N / 2 ^ k <=? int_max) = true) as ->; [|done].
  apply andb_true_intro. unfold int_min, int_max in *. split; apply Z.leb_le; lia.
Qed.

(** [Denormalize] of a float whose half-sum with 100 is the power of two
    [2^j] ([j] is 0 or -1), on a span that [float64] holds exactly. *)
Lemma Denormalize_pow2 (c : MotorCalibration) (norm : float) (k : Z) :
  is_int (RangeMin c) → is_int (RangeMax c) →
  0 <= RangeMax c - RangeMin c < 2 ^ 53 → 0 <= k <= 1 →
  Prim2SF ((norm + 100) / 200) = S754_finite false 4503599627370496 (- k - 52) →
  Denormalize c norm = Some (RangeMin c + (RangeMax c - RangeMin c) / 2 ^ k).
Proof.
  intros Hlo Hhi Hspan Hk Hq.
  assert (2 ^ 53 = 9007199254740992) as Hpow by reflexivity.
  set (N := RangeMax c - RangeMin c) in *.
  assert (is_int N) as HiN by (unfold is_int, int_min, int_max in *; lia).
  assert (0 < 2 ^ k) by (apply Z.pow_pos_nonneg; lia).
  assert (0 <= N / 2 ^ k <= N) as Hhalf.
  { split; [apply Z.div_pos; lia|]. apply Z.div_le_upper_bound; [lia|]. nia. }
  unfold Denormalize, scaled_offset. fold N.
  rewrite (wrap_int _ HiN), float64_of_int_nonneg by (unfold int_max; lia).
  assert (int_of_float64 ((norm + 100) / 200 * of_uint63 (Uint63.of_Z N)) = Some (N / 2 ^ k))
    as ->.
  { destruct (Z.eq_dec N 0) as [HN0|HN0].
    - rewrite HN0. change (Uint63.of_Z 0) with 0%uint63.
      unfold int_of_float64. rewrite FloatAxioms.mul_spec, Hq.
      change (Prim2SF (of_uint63 0)) with (S754_zero false).
      cbn [SF64mul SFmul xorb]. by rewrite Z.div_0_l by lia.
    - destruct (of_uint63_small N ltac:(lia)) as (m & E & HE & Hm & Hb & Hx).
      assert (Zpos (digits2_pos m) = 53) as Hd by (by apply digits_unique).
      apply (int_of_float64_scaled _ m N E k); [|done|lia|lia|unfold int_max; lia].
      rewrite FloatAxioms.mul_spec, Hx, Hq. unfold SF64mul.
      rewrite SFmul_pow2_l by lia. f_equal. lia. }
  f_equal. rewrite Z.add_comm. apply wrap_int.
  unfold is_int, int_min, int_max in *. unfold N in *. lia.
Qed.

Lemma Denormalize_minus_100 (c : MotorCalibration) :
  is_int (RangeMin c) → is_int (RangeMax c) → Denormalize c (-100) = Some (RangeMin c).
Proof.
  intros Hlo Hhi. unfold Denormalize, scaled_offset.
  change ((-100 + 100) / 200)%float with 0%float.
  assert (int_of_float64 (0 * float64_of_int (wrap (RangeMax c - RangeMin c))) = Some 0) as ->.
  { unfold int_of_float64. rewrite FloatAxioms.mul_spec.
    destruct (Z.eq_dec (wrap (RangeMax c - RangeMin c)) 0) as [->|Hnz]; [done|].
    destruct (float64_of_int_finite _ (wrap_is_int _) Hnz) as (m & e & ->).
    by destruct (_ <? 0). }
  by rewrite Z.add_0_l, wrap_int.
Qed.

(** X7. [Denormalize] at the ends and at the middle of the normalised range:
    -100 gives [rangeMin] on every calibration; on one with
    [0 <= rangeMax - rangeMin < 2^53], 100 gives [rangeMax] and 0 gives the
    midpoint, rounded toward [rangeMin]; all three exactly. *)
Theorem Denormalize_endpoints_exact (c : MotorCalibration) :
  is_int (RangeMin c) → is_int (RangeMax c) →
  Denormalize c (-100) = Some (RangeMin c) ∧
  (0 <= RangeMax c - RangeMin c < 2 ^ 53 →
   Denormalize c 100 = Some (RangeMax c) ∧
   Denormalize c 0 = Some (RangeMin c + (RangeMax c - RangeMin c) / 2)).
Proof.
  intros Hlo Hhi. split; [by apply Denormalize_minus_100|].
  intros Hspan. split.
  - rewrite (Denormalize_pow2 c 100 0) by (try done; lia).
    change (2 ^ 0) with 1. rewrite Z.div_1_r. f_equal. lia.
  - by rewrite (Denormalize_pow2 c 0 1) by (try done; lia).
Qed.

Lemma Denormalize_endpoints_exact_witness :
  Denormalize (cal 1000 3001) (-100) = Some 1000 ∧
  Denormalize (cal 1000 3001) 100 = Some 3001 ∧
  Denormalize (cal 1000 3001) 0 = Some (1000 + (3001 - 1000) / 2).
Proof.
  destruct (Denormalize_endpoints_exact (cal 1000 3001)) as [H1 H2].
  - unfold is_int, int_min, int_max. simpl. lia.
  - unfold is_int, int_min, int_max. simpl. lia.
  - split; [exact H1|]. apply H2. simpl. lia.
Defined.

(** ** The round trip, case by case *)

Lemma roundtrip_cases (c : MotorCalibration) (raw : Z) :
  is_int (RangeMin c) → is_int (RangeMax c) →
  0 <= RangeMax c - RangeMin c <= 2 ^ 50 →
  RangeMin c <= raw <= RangeMax c →
  ∃ back, Denormalize c (Normalize c raw) = Some back ∧ (back = raw ∨ back = raw - 1).
Proof.
  intros Hlo Hhi Hspan Hraw.
  assert (2 ^ 50 = 1125899906842624) as Hpow by reflexivity.
  assert (is_int (RangeMax c - RangeMin c)) as HiN
    by (unfold is_int, int_min, int_max in *; lia).
  assert (is_int (raw - RangeMin c)) as Hik
    by (unfold is_int, int_min, int_max in *; lia).
  destruct (Z.eq_dec (RangeMin c) (RangeMax c)) as [Heq|Hne].
  - rewrite Normalize_degenerate by assumption.
    unfold Denormalize, scaled_offset. rewrite Heq, Z.sub_diag.
    change (int_of_float64 ((0 + 100) / 200 * float64_of_int (wrap 0))) with (Some 0).
    exists (RangeMax c). cbn [Z.add]. rewrite wrap_int by assumption.
    split; [reflexivity|lia].
  - rewrite Normalize_formula by assumption.
    unfold Denormalize, scaled_offset.
    rewrite (wrap_int _ HiN), (wrap_int _ Hik).
    rewrite !float64_of_int_nonneg by (unfold int_max; lia).
    destruct (Z.eq_dec raw (RangeMin c)) as [->|Hk].
    + rewrite Z.sub_diag, roundtrip_offset_zero by lia.
      exists (RangeMin c). cbn [Z.add]. rewrite wrap_int by assumption.
      split; [reflexivity|lia].
    + destruct (roundtrip_offset (raw - RangeMin c) (RangeMax c - RangeMin c))
        as (j & Hj & Hor); [lia|lia|].
      rewrite Hj. exists (wrap (j + RangeMin c)). split; [reflexivity|].
      rewrite wrap_int by (unfold is_int, int_min, int_max in *; lia). lia.
Qed.

Lemma Normalize_rangeMax (c : MotorCalibration) :
  is_int (RangeMin c) → is_int (RangeMax c) →
  0 < RangeMax c - RangeMin c < 2 ^ 53 → Normalize c (RangeMax c) = 100%float.
Proof.
  intros Hlo Hhi Hspan.
  assert (2 ^ 53 = 9007199254740992) as Hpow by reflexivity.
  assert (is_int (RangeMax c - RangeMin c)) as HiN
    by (unfold is_int, int_min, int_max in *; lia).
  rewrite Normalize_formula by (try done; lia).
  destruct (float64_of_int_finite _ (wrap_is_int (RangeMax c - RangeMin c)))
    as (m & e & Hx); [rewrite wrap_int by done; lia|].
  by rewrite (div_self_scaled _ _ _ _ Hx).
Qed.

(** X8. The round trip never comes back above the raw value: for a
    calibration with [0 <= rangeMax - rangeMin <= 2^50] and a raw value
    within its bounds, [Denormalize (Normalize raw)] is [raw] or [raw - 1],
    and it is [raw] at both bounds. *)
Theorem roundtrip_raw_or_one_below (c : MotorCalibration) (raw : Z) :
  is_int (RangeMin c) → is_int (RangeMax c) →
  0 <= RangeMax c - RangeMin c <= 2 ^ 50 →
  RangeMin c <= raw <= RangeMax c →
  ∃ back, Denormalize c (Normalize c raw) = Some back ∧
          (back = raw ∨ back = raw - 1) ∧
          (raw = RangeMin c ∨ raw = RangeMax c → back = raw).
Proof.
  intros Hlo Hhi Hspan Hraw.
  assert (2 ^ 50 = 1125899906842624) as Hpow by reflexivity.
  assert (2 ^ 53 = 9007199254740992) as Hpow' by reflexivity.
  destruct (roundtrip_cases c raw Hlo Hhi Hspan Hraw) as (back & Hback & Hor).
  exists back. split; [exact Hback|split; [exact Hor|]].
  intros Hends.
  destruct (Z.eq_dec (RangeMin c) (RangeMax c)) as [Heq|Hne].
  - rewrite Normalize_degenerate in Hback by done.
    rewrite (Denormalize_pow2 c 0 1) in Hback by (try done; lia).
    replace (RangeMax c - RangeMin c) with 0 in Hback by lia.
    change (0 / 2 ^ 1) with 0 in Hback. injection Hback as <-. lia.
  - destruct Hends as [->| ->].
    + assert (Normalize c (RangeMin c) = (-100)%float) as HN.
      { rewrite Normalize_formula by done. rewrite Z.sub_diag.
        change (float64_of_int (wrap 0)) with 0%float.
        destruct (float64_of_int_finite _ (wrap_is_int (RangeMax c - RangeMin c)))
          as (m & e & Hx).
        - rewrite wrap_int by (unfold is_int, int_min, int_max in *; lia). lia.
        - by rewrite (div_zero_scaled _ _ _ _ Hx). }
      rewrite HN, Denormalize_minus_100 in Hback by done. by injection Hback as <-.
    + rewrite Normalize_rangeMax in Hback by (try done; lia).
      rewrite (Denormalize_pow2 c 100 0) in Hback by (try done; lia).
      change (2 ^ 0) with 1 in Hback. rewrite Z.div_1_r in Hback.
      injection Hback as <-. lia.
Qed.

Lemma roundtrip_raw_or_one_below_witness :
  ∃ back, Denormalize (cal 0 3) (Normalize (cal 0 3) 1) = Some back ∧
          (back = 1 ∨ back = 1 - 1) ∧
          (1 = RangeMin (cal 0 3) ∨ 1 = RangeMax (cal 0 3) → back = 1).
Proof.
  apply (roundtrip_raw_or_one_below (cal 0 3) 1).
  - unfold is_int, int_min, int_max. simpl. lia.
  - unfold is_int, int_min, int_max. simpl. lia.
  - simpl. lia.
  - simpl. lia.
Defined.

End calibration_exact.

Section calibration_compose.
Import robot setup calib.

(** ** Reading one arm and writing the other *)

(** X9. Leader and follower under one calibration without shared IDs: what
    [WritePositions] sends for the positions [ReadPositions] returned is,
    for every motor whose raw value [raw] lies within its bounds (span at
    most [2^50]), [raw] or [raw - 1], whatever the orders in which the maps
    are visited. *)
Theorem read_then_write_returns_raw (c : gmap string MotorCalibration)
    (order : Z → list (MotorName * MotorCalibration))
    (rawPositions : gmap Z Z) (raws : list (Z * Z)) (targets : list (MotorName * float))
    (name : MotorName) (mc : MotorCalibration) (raw : Z) :
  unique_ids c → (∀ id, ranges_over c (order id)) → ranges_over rawPositions raws →
  ranges_over (normalize_positions order raws ∅) targets →
  c !! name = Some mc → rawPositions !! ID mc = Some raw →
  is_int (RangeMin mc) → is_int (RangeMax mc) →
  0 <= RangeMax mc - RangeMin mc <= 2 ^ 50 → RangeMin mc <= raw <= RangeMax mc →
  ∃ back, denormalize_positions c targets ∅ !! ID mc = Some (Some back) ∧
          (back = raw ∨ back = raw - 1).
Proof.
  intros Hu Hord Hraws Htargets Hc Hraw Hlo Hhi Hspan Hin.
  apply ranges_over_list_to_map in Hraws as [Hnd Hmap].
  apply ranges_over_list_to_map in Htargets as [Hnd' Hmap'].
  rewrite (normalize_positions_union c order raws Hu Hord Hnd), Hmap in Hmap'.
  destruct (denormalize_positions_lookup c targets Hu Hnd' ∅) as [H1 _].
  rewrite (H1 name mc Hc), Hmap'.
  rewrite lookup_union, lookup_omap, Hc, lookup_empty. simpl. rewrite Hraw. simpl.
  destruct (roundtrip_cases mc raw Hlo Hhi Hspan Hin) as (back & -> & Hor).
  by exists back.
Qed.

Lemma read_then_write_returns_raw_witness :
  let c := test_calibration in
  let rawPositions : gmap Z Z := {[ 1 := 1023; 6 := 3000 ]} in
  let order := λ _ : Z, map_to_list c in
  let targets := map_to_list (normalize_positions order (map_to_list rawPositions) ∅) in
  ∃ back, denormalize_positions c targets ∅ !! 6 = Some (Some back) ∧
          (back = 3000 ∨ back = 3000 - 1).
Proof.
  intros c rawPositions order targets.
  apply (read_then_write_returns_raw c order rawPositions (map_to_list rawPositions)
           targets Gripper
           {| ID := 6; DriveMode := 0; HomingOffset := 1025;
              RangeMin := 2041; RangeMax := 3275 |} 3000).
  - apply (bool_decide_unpack (unique_ids test_calibration)). by vm_compute.
  - intros id. unfold ranges_over. reflexivity.
  - unfold ranges_over. reflexivity.
  - unfold ranges_over. reflexivity.
  - by vm_compute.
  - by vm_compute.
  - unfold is_int, int_min, int_max. simpl. lia.
  - unfold is_int, int_min, int_max. simpl. lia.
  - simpl. lia.
  - simpl. lia.
Defined.

(** ** The calibration [calibrateArm] stores *)

Lemma build_calibration_other (ms : list MotorName) : ∀ i m acc name,
  name ∉ ms → build_calibration i ms m acc !! name = acc !! name.
Proof.
  induction ms as [|n ms IH]; intros i m acc name Hn; simpl; [done|].
  apply not_elem_of_cons in Hn as [Hne Hn].
  rewrite IH by done. by rewrite lookup_insert_ne.
Qed.

Lemma build_calibration_at (ms : list MotorName) : ∀ i m acc (j : nat) name,
  NoDup ms → ms !! j = Some name →
  build_calibration i ms m acc !! name
  = Some {| ID := i + Z.of_nat j + 1; DriveMode := 0; HomingOffset := 0;
            RangeMin := get (minPositions m) name;
            RangeMax := get (maxPositions m) name |}.
Proof.
  induction ms as [|n ms IH]; intros i m acc j name Hnd Hj; [done|].
  apply NoDup_cons in Hnd as [Hnotin Hnd]. destruct j as [|j]; simpl in *.
  - injection Hj as ->. rewrite build_calibration_other by done.
    rewrite lookup_insert_eq. do 2 f_equal. lia.
  - rewrite (IH (i + 1) m _ j name Hnd Hj). do 2 f_equal. lia.
Qed.

Lemma recorded_min_le_max (order : list Z) (p0 : Poll) (msgs : list Msg)
    (j : nat) (name : string) :
  AllMotors !! j = Some name →
  let m := run (calibrateArm_init order p0).2 msgs in
  get (minPositions m) name ≤ get (maxPositions m) name.
Proof.
  intros Hj m. set (m0 := (calibrateArm_init order p0).2) in *.
  set (seed := pos (p0 (Z.of_nat j + 1))).
  assert (model_view m0 name = (seed, seed, seed)) as H0.
  { subst m0. unfold calibrateArm_init.
    pose proof (seed_loop_at p0 AllMotors 0 ∅ ∅ ∅ j name AllMotors_NoDup Hj) as Hs.
    destruct (seed_loop _ _ _ _ _ _) as [[c a] b]. cbn [snd].
    unfold model_view, newCalibrationModel. cbn [curPositions minPositions maxPositions].
    rewrite Hs. subst seed. by replace (0 + Z.of_nat j + 1) with (Z.of_nat j + 1) by lia. }
  assert (motors m0 = AllMotors) as Hm0.
  { subst m0. unfold calibrateArm_init.
    by destruct (seed_loop _ _ _ _ _ _) as [[c a] b]. }
  assert (model_view m name
          = (List.last (samples (Z.of_nat j + 1) msgs) seed,
             foldl Z.min seed (samples (Z.of_nat j + 1) msgs),
             foldl Z.max seed (samples (Z.of_nat j + 1) msgs))) as Hv.
  { subst m. rewrite (run_view msgs m0 j name); [|by rewrite Hm0; apply AllMotors_NoDup|by rewrite Hm0].
    by rewrite H0, foldl_widen. }
  unfold model_view, view in Hv. injection Hv as _ Ha Hb. rewrite Ha, Hb.
  destruct (foldl_min_spec (samples (Z.of_nat j + 1) msgs) seed) as [_ Hmin].
  destruct (foldl_max_spec (samples (Z.of_nat j + 1) msgs) seed) as [_ Hmax].
  transitivity seed; [apply Hmin|apply Hmax]; left.
Qed.

Lemma calibrateArm_lookup (a : ArmConfig) (order : list Z) (p0 : Poll) (msgs : list Msg)
    (j : nat) (name : string) :
  AllMotors !! j = Some name →
  ∃ mn mx, Calibration (calibrateArm a order p0 msgs) !! name
           = Some {| ID := Z.of_nat j + 1; DriveMode := 0; HomingOffset := 0;
                     RangeMin := mn; RangeMax := mx |} ∧ mn ≤ mx.
Proof.
  intros Hj. unfold calibrateArm. cbn [Calibration].
  rewrite (build_calibration_at AllMotors 0 _ ∅ j name AllMotors_NoDup Hj).
  eexists _, _. split; [reflexivity|]. by apply (recorded_min_le_max order p0 msgs j name).
Qed.

Lemma calibrateArm_lookup_inv (a : ArmConfig) (order : list Z) (p0 : Poll)
    (msgs : list Msg) (name : string) (mc : MotorCalibration) :
  Calibration (calibrateArm a order p0 msgs) !! name = Some mc →
  ∃ j : nat, AllMotors !! j = Some name ∧ ID mc = Z.of_nat j + 1.
Proof.
  intros Hc. destruct (decide (name ∈ AllMotors)) as [Hin|Hnotin].
  - apply list_elem_of_lookup in Hin as [j Hj]. exists j. split; [done|].
    destruct (calibrateArm_lookup a order p0 msgs j name Hj) as (mn & mx & Hl & _).
    rewrite Hl in Hc. by injection Hc as <-.
  - unfold calibrateArm in Hc. cbn [Calibration] in Hc.
    by rewrite build_calibration_other in Hc.
Qed.

(** X10. After [calibrateArm] the arm configuration keeps its port and is
    calibrated: its calibration, built afresh, holds exactly the six motors
    of [AllMotors], the [j]-th under servo ID [j], with drive mode and
    homing offset 0 and [RangeMin <= RangeMax]. *)
Theorem calibrateArm_stores_six_motors (a : ArmConfig) (order : list Z) (p0 : Poll)
    (msgs : list Msg) :
  let a' := calibrateArm a order p0 msgs in
  Port a' = Port a ∧ IsCalibrated a' = true ∧
  dom (Calibration a') = list_to_set AllMotors ∧
  ∀ (j : nat) name, AllMotors !! j = Some name →
    ∃ mn mx, Calibration a' !! name
             = Some {| ID := Z.of_nat j + 1; DriveMode := 0; HomingOffset := 0;
                       RangeMin := mn; RangeMax := mx |} ∧ mn ≤ mx.
Proof.
  intros a'.
  assert (dom (Calibration a') = list_to_set AllMotors) as Hdom.
  { apply set_eq. intros name. rewrite elem_of_dom, elem_of_list_to_set. split.
    - intros [mc Hc]. apply calibrateArm_lookup_inv in Hc as (j & Hj & _).
      by eapply list_elem_of_lookup_2.
    - intros [j Hj]%list_elem_of_lookup.
      destruct (calibrateArm_lookup a order p0 msgs j name Hj) as (mn & mx & Hl & _).
      by eexists. }
  split; [done|split; [|split; [exact Hdom|]]].
  - unfold IsCalibrated. apply Nat.ltb_lt.
    rewrite <- size_dom, Hdom, size_list_to_set by apply AllMotors_NoDup. simpl. lia.
  - intros j name Hj. by apply calibrateArm_lookup.
Qed.

(** X11. The calibration [calibrateArm] stores has no shared ID: [MotorIDs]
    lists 1 to 6 in order, and [ByID], in whatever order it visits the map,
    names the [j]-th motor of [AllMotors] for ID [j] and finds nothing for
    any other ID. *)
Theorem calibrateArm_ids_are_one_to_six (a : ArmConfig) (order : list Z) (p0 : Poll)
    (msgs : list Msg) (entries : list (MotorName * MotorCalibration)) (id : Z) :
  let c := Calibration (calibrateArm a order p0 msgs) in
  ranges_over c entries →
  unique_ids c ∧ MotorIDs c = [1; 2; 3; 4; 5; 6] ∧
  (ByID entries id).2 = bool_decide (1 ≤ id ≤ 6) ∧
  (1 ≤ id ≤ 6 → AllMotors !! Z.to_nat (id - 1) = Some (ByID entries id).1.1).
Proof.
  intros c Hr.
  assert (unique_ids c) as Hu.
  { unfold unique_ids. apply NoDup_fmap_2_strong; [|apply NoDup_map_to_list].
    intros [n1 m1] [n2 m2] H1%elem_of_map_to_list H2%elem_of_map_to_list Hid.
    simpl in Hid.
    destruct (calibrateArm_lookup_inv a order p0 msgs _ _ H1) as (j1 & Hj1 & Hi1).
    destruct (calibrateArm_lookup_inv a order p0 msgs _ _ H2) as (j2 & Hj2 & Hi2).
    assert (j1 = j2) as -> by lia. assert (n1 = n2) as -> by congruence.
    f_equal. congruence. }
  split; [exact Hu|split; [|split]].
  - unfold MotorIDs. rewrite MotorIDs_loop_spec. unfold AllMotors.
    destruct (calibrateArm_lookup a order p0 msgs 0 ShoulderPan eq_refl) as (? & ? & H0 & _).
    destruct (calibrateArm_lookup a order p0 msgs 1 ShoulderLift eq_refl) as (? & ? & H1 & _).
    destruct (calibrateArm_lookup a order p0 msgs 2 ElbowFlex eq_refl) as (? & ? & H2 & _).
    destruct (calibrateArm_lookup a order p0 msgs 3 WristFlex eq_refl) as (? & ? & H3 & _).
    destruct (calibrateArm_lookup a order p0 msgs 4 WristRoll eq_refl) as (? & ? & H4 & _).
    destruct (calibrateArm_lookup a order p0 msgs 5 Gripper eq_refl) as (? & ? & H5 & _).
    fold c in H0, H1, H2, H3, H4, H5. cbn [omap list_omap].
    by rewrite H0, H1, H2, H3, H4, H5.
  - destruct (ByID_ranges c entries id Hr) as [Hfound Hmissing].
    destruct (ByID entries id) as [[n m] [|]]; cbn [snd].
    + destruct (Hfound n m eq_refl) as [Hc Hid].
      apply calibrateArm_lookup_inv in Hc as (j & Hj & Hi).
      apply lookup_lt_Some in Hj. simpl in Hj.
      symmetry. apply bool_decide_eq_true. lia.
    + pose proof (Hmissing n m eq_refl) as Hall.
      symmetry. apply bool_decide_eq_false. intros Hid.
      assert (is_Some (AllMotors !! Z.to_nat (id - 1))) as [name Hj]
        by (apply lookup_lt_is_Some; simpl; lia).
      destruct (calibrateArm_lookup a order p0 msgs _ name Hj) as (mn & mx & Hl & _).
      apply (Hall name _ Hl). simpl. lia.
  - intros Hid.
    assert (is_Some (AllMotors !! Z.to_nat (id - 1))) as [name Hj]
      by (apply lookup_lt_is_Some; simpl; lia).
    destruct (calibrateArm_lookup a order p0 msgs _ name Hj) as (mn & mx & Hl & _).
    rewrite (ByID_unique c entries id name _ Hu Hr Hl); [done|]. simpl. lia.
Qed.

Lemma calibrateArm_ids_are_one_to_six_witness :
  let p0 : Poll := fun _ => {| pos := 1500; err := None |} in
  let a := calibrateArm {| Port := "/dev/ttyACM0"; Calibration := ∅ |}
             [1; 2; 3; 4; 5; 6] p0 [KeyMsg "enter"] in
  MotorIDs (Calibration a) = [1; 2; 3; 4; 5; 6] ∧
  (ByID (map_to_list (Calibration a)) 7).2 = false.
Proof.
  intros p0 a.
  destruct (calibrateArm_ids_are_one_to_six {| Port := "/dev/ttyACM0"; Calibration := ∅ |}
              [1; 2; 3; 4; 5; 6] p0 [KeyMsg "enter"] (map_to_list (Calibration a)) 7)
    as (_ & Hids & Hby & _).
  - unfold ranges_over. reflexivity.
  - split; [exact Hids|]. rewrite Hby. reflexivity.
Defined.

End calibration_compose.

Section controller_runs.
Import robot world arm teleop teleop_runs.

(** ** The ticker *)

Lemma Start_init_frame (c : Controller) (w : World) :
  let '(c', w') := Start_init c w in
  calls w' = calls w ++ [TorqueDisable (bus (leader c)); TorqueEnable (bus (follower c))] ∧
  leader c' = leader c ∧ follower c' = follower c ∧ hz c' = hz c ∧
  stateCh c' = stateCh c ∧ running c' = running c ∧ mirror c' = mirror c.
Proof.
  unfold Start_init, Disable, Enable, log, Now.
  destruct (env_torque w _); cbn;
    (destruct (try_send (logCh c) _); cbn;
     (destruct (env_torque _ _); cbn;
      (destruct (try_send _ _); cbn;
       (destruct (try_send _ _); cbn; by rewrite <- app_assoc)))).
Qed.

(** X12. [Start] of a controller that is not running ends in a panic exactly
    when its frequency is zero, negative or above 10^9 Hz: the ticker
    interval [time.Second / time.Duration(hz)] is then not positive.  With
    the frequency [NewController] sets (60 unless the configuration gives a
    positive one) this happens exactly for a configured [Hz] above 10^9. *)
Theorem Start_panics_iff_no_tick_interval (c : Controller) (w : World)
    (evs : list LoopEvent) :
  running c = false → one_slot (stateCh c) →
  ((Start c w evs).2 = Panicked ↔ hz c ≤ 0 ∨ 1000000000 < hz c) ∧
  (∀ NewArmFrom cfg w0, NewController NewArmFrom cfg w0 = (inl c, w) →
     ((Start c w evs).2 = Panicked ↔ 1000000000 < Hz cfg)).
Proof.
  intros Hrun Hslot.
  assert ((Start c w evs).2 = Panicked ↔ hz c ≤ 0 ∨ 1000000000 < hz c) as Hiff.
  { unfold Start. rewrite (Start_enter_stopped c Hrun).
    pose proof (Start_init_frame (set_running true c) w) as Hf.
    destruct (Start_init _ _) as [c1 w1].
    destruct Hf as (_ & _ & _ & Hz & Hs & _). cbn in Hz, Hs.
    assert ((hz c1 =? 0) || (1000000000 `quot` hz c1 <=? 0) = true
            ↔ hz c ≤ 0 ∨ 1000000000 < hz c) as Hcond.
    { rewrite Hz, orb_true_iff, Z.eqb_eq, Z.leb_le.
      destruct (Z.lt_trichotomy (hz c) 0) as [Hneg|[H0|Hpos]].
      - assert (1000000000 `quot` hz c ≤ 0); [|lia].
        rewrite <- (Z.opp_involutive (hz c)), Z.quot_opp_r by lia.
        assert (0 ≤ 1000000000 `quot` (- hz c)) by (apply Z.quot_pos; lia). lia.
      - lia.
      - rewrite Z.quot_div_nonneg by lia. split.
        + intros [?|Hq]; [lia|]. right.
          destruct (Z_lt_le_dec 1000000000 (hz c)) as [?|Hle]; [done|].
          assert (1 ≤ 1000000000 / hz c) by (apply Z.div_le_lower_bound; lia). lia.
        + intros [?|Hbig]; [lia|]. right. rewrite Z.div_small; lia. }
    destruct ((hz c1 =? 0) || (1000000000 `quot` hz c1 <=? 0)) eqn:E.
    - cbn [snd]. split; [intros _; by apply Hcond|done].
    - cbn [snd]. split.
      + intros Hp. exfalso. revert Hp. rewrite <- Hs in Hslot. clear -Hslot.
        revert c1 w1 Hslot. induction evs as [|[|e] evs IH]; intros c1 w1 Hslot; cbn [loop].
        * done.
        * destruct (step_total c1 w1 Hslot) as (c' & w' & -> & Hs' & _). by apply IH.
        * by destruct (shutdown c1 w1).
      + intros H. apply Hcond in H. congruence. }
  split; [exact Hiff|].
  intros NewArmFrom cfg w0 Hnew. rewrite Hiff.
  unfold NewController in Hnew.
  destruct (NewArmFrom _ w0) as [[ldr|e] w1]; [|done].
  destruct (NewArmFrom _ w1) as [[flw|e] w2]; [|by destruct (Close ldr w2)].
  injection Hnew as <- <-. cbn [hz].
  destruct (Z.leb_spec (Hz cfg) 0); lia.
Qed.

Lemma Start_panics_iff_no_tick_interval_witness :
  (Start (demo.controller false) (demo.quiet (inl ∅)) [TickerC]).2 = Panicked
  ↔ hz (demo.controller false) ≤ 0 ∨ 1000000000 < hz (demo.controller false).
Proof.
  apply (Start_panics_iff_no_tick_interval (demo.controller false) (demo.quiet (inl ∅))
           [TickerC]).
  - reflexivity.
  - split; simpl; lia.
Defined.

(** ** The bus traffic of a run *)

Lemma shutdown_calls (c : Controller) (w : World) :
  calls (shutdown c w).2 = calls w ++ [TorqueDisable (bus (follower c))].
Proof.
  unfold shutdown, Disable, log, Now.
  destruct (env_torque w _); cbn;
    (destruct (try_send (logCh c) _); cbn; by destruct (try_send _ _)).
Qed.

Lemma Start_init_env (c : Controller) (w : World) :
  env_read (Start_init c w).2 = env_read w.
Proof.
  unfold Start_init, Disable, Enable, log, Now.
  destruct (env_torque w _); cbn;
    (destruct (try_send (logCh c) _); cbn;
     (destruct (env_torque _ _); cbn;
      (destruct (try_send _ _); cbn;
       (destruct (try_send _ _); cbn; done)))).
Qed.

Lemma step_traffic (c : Controller) (w : World) :
  one_slot (stateCh c) →
  ∃ c' w',
    step c w = Some (c', w') ∧
    one_slot (stateCh c') ∧
    leader c' = leader c ∧ follower c' = follower c ∧ mirror c' = mirror c ∧
    env_read w' = env_read w ∧
    calls w' = calls w ++ tick_calls c (env_read w (length (calls w))).
Proof.
  intros Hs. unfold tick_calls.
  destruct (env_read w (length (calls w))) as [positions|e] eqn:Hr.
  - rewrite (step_on_read_ok c w positions Hs Hr). cbv zeta.
    unfold WritePositions.
    destruct (env_write _ _) as [e|].
    + pose proof (log_frame c (record_call (record_call w (ReadCall (bus (leader c))))
                    (WriteCall (bus (follower c)) (follower_target (mirror c) positions)))
                    (MsgWriteError ("write positions: " +:+ e))) as Hl.
      destruct (log _ _ _) as [c1 w1].
      destruct Hl as (Hc & _ & _ & _ & Her & _ & _ & _ & Hmi & Hle & Hfo & _).
      eexists _, _. split; [reflexivity|].
      cbn. rewrite Hc, Her, Hmi, Hle, Hfo. cbn. rewrite <- app_assoc.
      split; [apply one_slot_with|done].
    + eexists _, _. split; [reflexivity|]. cbn. rewrite <- app_assoc.
      split; [apply one_slot_with|done].
  - rewrite (step_on_read_error c w e Hs Hr). cbv zeta.
    pose proof (log_frame c (record_call w (ReadCall (bus (leader c))))
                  (MsgReadError ("read positions: " +:+ e))) as Hl.
    destruct (log _ _ _) as [c1 w1].
    destruct Hl as (Hc & _ & _ & _ & Her & _ & _ & _ & Hmi & Hle & Hfo & _).
    eexists _, _. split; [reflexivity|].
    cbn. rewrite Hc, Her, Hmi, Hle, Hfo. cbn.
    split; [apply one_slot_with|done].
Qed.

Lemma tick_calls_ext (c c' : Controller) (r : gmap string float + error) :
  leader c' = leader c → follower c' = follower c → mirror c' = mirror c →
  tick_calls c' r = tick_calls c r.
Proof. unfold tick_calls. by intros -> -> ->. Qed.

Lemma ticks_calls_ext (c c' : Controller) (answers : nat → gmap string float + error)
    (n : nat) :
  leader c' = leader c → follower c' = follower c → mirror c' = mirror c →
  ∀ made, ticks_calls c' answers made n = ticks_calls c answers made n.
Proof.
  intros Hl Hf Hm. induction n as [|n IH]; intros made; [done|].
  cbn [ticks_calls]. by rewrite (tick_calls_ext c c') , IH.
Qed.

Lemma loop_traffic (evs : list LoopEvent) : ∀ (c : Controller) (w : World),
  one_slot (stateCh c) →
  (loop c w evs).2 = loop_end evs ∧
  calls (loop c w evs).1.2
  = calls w ++ ticks_calls c (env_read w) (length (calls w)) (ticks_served evs)
      ++ final_calls c (loop_end evs).
Proof.
  induction evs as [|[|e] evs IH]; intros c w Hslot; cbn [loop loop_end ticks_served].
  - split; [done|]. by rewrite !app_nil_r.
  - destruct (step_traffic c w Hslot) as (c' & w' & -> & Hs' & Hl & Hf & Hm & Her & Hc).
    destruct (IH c' w' Hs') as (Hend & Heq). split; [done|].
    rewrite Heq, Her, Hc, length_app. cbn [ticks_calls].
    rewrite (ticks_calls_ext c c') by done.
    unfold final_calls. rewrite Hf. by rewrite <- !app_assoc.
  - pose proof (shutdown_calls c w) as Hsd.
    destruct (shutdown c w) as [c' w']. cbn [fst snd] in *. by rewrite Hsd.
Qed.

(** X13. The bus traffic of [Start] on a controller that is not running: the
    leader's torque is disabled and the follower's enabled; then every
    tick served before [ctx.Done()] reads the leader once and, exactly when
    that read succeeded, writes the follower once, with the (mirrored)
    positions just read, whether or not the write fails; and when [Start]
    returns, disabling the follower's torque is the last call.  [Start]
    panics before the first tick, returns the error of the first
    [ctx.Done()], or is still waiting in its [select].  So the leader is
    never powered or written, the follower is never read, and no bus is
    opened or closed. *)
Theorem Start_bus_traffic (c : Controller) (w : World) (evs : list LoopEvent) :
  running c = false → one_slot (stateCh c) →
  ((Start c w evs).2 = Panicked ∨ (Start c w evs).2 = loop_end evs) ∧
  calls (Start c w evs).1.2
  = calls w ++ [TorqueDisable (bus (leader c)); TorqueEnable (bus (follower c))]
      ++ match (Start c w evs).2 with
         | Panicked => []
         | _ => ticks_calls c (env_read w) (length (calls w) + 2) (ticks_served evs)
         end
      ++ final_calls c (Start c w evs).2.
Proof.
  intros Hrun Hslot. unfold Start. rewrite (Start_enter_stopped c Hrun).
  pose proof (Start_init_frame (set_running true c) w) as Hf.
  pose proof (Start_init_env (set_running true c) w) as He.
  destruct (Start_init _ _) as [c1 w1]. cbn [snd] in He.
  destruct Hf as (Hc & Hl & Hfo & _ & Hs & _ & Hm). cbn in Hc, Hl, Hfo, Hs, Hm.
  destruct ((hz c1 =? 0) || (1000000000 `quot` hz c1 <=? 0)).
  - cbn [fst snd final_calls]. split; [by left|]. by rewrite Hc, !app_nil_r.
  - destruct (loop_traffic evs c1 w1) as (Hend & Heq); [by rewrite Hs|].
    split; [by right|]. rewrite Heq, Hend, Hc, He, length_app.
    rewrite (ticks_calls_ext c c1) by done.
    unfold final_calls. rewrite Hfo. cbn [length].
    assert (loop_end evs ≠ Panicked) as Hnp
      by (clear; induction evs as [|[|e] evs IH]; done).
    destruct (loop_end evs); try done; by rewrite <- !app_assoc.
Qed.

Lemma Start_bus_traffic_witness :
  calls (Start (demo.controller true) (demo.quiet (inl demo.positions))
           [TickerC; TickerC; CtxDone "context canceled"]).1.2
  = [TorqueDisable 0%nat; TorqueEnable 1%nat;
     ReadCall 0%nat; WriteCall 1%nat (mirrored demo.positions);
     ReadCall 0%nat; WriteCall 1%nat (mirrored demo.positions);
     TorqueDisable 1%nat].
Proof.
  destruct (Start_bus_traffic (demo.controller true) (demo.quiet (inl demo.positions))
              [TickerC; TickerC; CtxDone "context canceled"]) as ([Hp|Hend] & Hcalls).
  - reflexivity.
  - split; simpl; lia.
  - exfalso. revert Hp. vm_compute. discriminate.
  - rewrite Hcalls, Hend. reflexivity.
Defined.

(** ** [Close] *)

(** X14. [Close] clears the running flag and closes the leader's bus, then the
    follower's, whether or not the first close fails; it returns an error
    exactly when one of the two closes does, and afterwards neither handle
    is open. *)
Theorem Close_closes_both_buses (c : Controller) (w : World) :
  let '(c', e, w') := Controller_Close c w in
  running c' = false ∧
  calls w' = calls w ++ [BusClose (bus (leader c)); BusClose (bus (follower c))] ∧
  opened w' = opened w ∖ {[bus (leader c)]} ∖ {[bus (follower c)]} ∧
  (e = None ↔ env_close w (bus (leader c)) = None ∧ env_close w (bus (follower c)) = None).
Proof.
  unfold Controller_Close, Close, BusCloseCall. cbn.
  split; [done|split; [by rewrite <- app_assoc|split; [done|]]].
  destruct (env_close w (bus (leader c))), (env_close w (bus (follower c))); cbn;
    split; try done; intros [? ?]; done.
Qed.

(** ** The log channel *)

Lemma log_all_frame (msgs : list LogMsg) : ∀ (c : Controller) (w : World),
  (length (buf (logCh c)) ≤ capacity (logCh c))%nat →
  let '(c', w') := log_all c w msgs in
  capacity (logCh c') = capacity (logCh c) ∧
  log_msg <$> buf (logCh c')
  = take (capacity (logCh c)) ((log_msg <$> buf (logCh c)) ++ msgs) ∧
  stateCh c' = stateCh c ∧ running c' = running c ∧
  calls w' = calls w ∧ clock_reads w' = (clock_reads w + length msgs)%nat.
Proof.
  induction msgs as [|m msgs IH]; intros c w Hlen; cbn [log_all].
  - rewrite app_nil_r, take_ge by (by rewrite length_fmap).
    repeat split; try done; lia.
  - pose proof (log_frame c w m) as Hl. destruct (log c w m) as [c1 w1].
    destruct Hl as (Hc & _ & Hclk & _ & _ & _ & Hs & Hr & _ & _ & _ & _ & Hlog).
    assert (capacity (logCh c1) = capacity (logCh c) ∧
            (length (buf (logCh c1)) ≤ capacity (logCh c))%nat ∧
            take (capacity (logCh c)) ((log_msg <$> buf (logCh c1)) ++ msgs)
            = take (capacity (logCh c)) ((log_msg <$> buf (logCh c)) ++ m :: msgs))
      as (Hcap & Hlen1 & Htake).
    { rewrite Hlog. unfold try_send.
      destruct (Nat.ltb_spec (length (buf (logCh c))) (capacity (logCh c))) as [Hlt|Hge];
        simpl.
      - rewrite length_app. simpl. split; [done|split; [lia|]].
        by rewrite fmap_app, <- app_assoc.
      - split; [done|split; [done|]].
        rewrite !take_app_le by (rewrite length_fmap; lia). done. }
    specialize (IH c1 w1). rewrite Hcap in IH. specialize (IH Hlen1).
    destruct (log_all c1 w1 msgs) as [c' w'].
    destruct IH as (Hcap' & Hbuf & Hs' & Hr' & Hc' & Hclk').
    rewrite Hcap', Hbuf, Htake, Hs', Hr', Hc', Hclk', Hs, Hr, Hc, Hclk. simpl.
    repeat split; try done; lia.
Qed.

(** X15. With nobody receiving, the log channel keeps the oldest lines: after
    any number of calls of [log] on a fresh controller it holds the first
    ten messages, every later one has been dropped, and the state channel,
    the running flag and the buses are untouched. *)
Theorem log_keeps_the_first_ten (c : Controller) (w : World) (msgs : list LogMsg) :
  logCh c = make_chan 10 →
  let '(c', w') := log_all c w msgs in
  log_msg <$> buf (logCh c') = take 10 msgs ∧
  stateCh c' = stateCh c ∧ running c' = running c ∧ calls w' = calls w.
Proof.
  intros Hch. pose proof (log_all_frame msgs c w) as H.
  rewrite Hch in H. cbn [make_chan buf capacity length] in H.
  specialize (H ltac:(lia)).
  destruct (log_all c w msgs) as [c' w'].
  destruct H as (_ & Hbuf & Hs & Hr & Hc & _). by rewrite Hbuf.
Qed.

Lemma log_keeps_the_first_ten_witness :
  log_msg <$> buf (logCh (log_all (demo.controller false) (demo.quiet (inl ∅))
                            (replicate 12 MsgStopped)).1)
  = replicate 10 MsgStopped.
Proof.
  pose proof (log_keeps_the_first_ten (demo.controller false) (demo.quiet (inl ∅))
                (replicate 12 MsgStopped) eq_refl) as H.
  destruct (log_all _ _ _) as [c' w']. destruct H as (H & _). exact H.
Defined.

(** ** Mirroring twice *)

Lemma float_opp_involutive (x : float) : (- - x)%float = x.
Proof.
  apply Prim2SF_inj. rewrite !FloatAxioms.opp_spec.
  destruct (Prim2SF x) as [s|s| |s m e]; simpl; try done; by rewrite negb_involutive.
Qed.

(** X16. The mirroring of [step] is an involution that keeps the set of motors:
    it negates [shoulder_pan] and [wrist_roll], leaves every other motor's
    position as it is, and applied twice gives back the positions. *)
Theorem mirroring_is_an_involution (positions : gmap string float) :
  mirrored (mirrored positions) = positions ∧
  dom (mirrored positions) = dom positions ∧
  ∀ name pos, positions !! name = Some pos →
    mirrored positions !! name
    = Some (if bool_decide (name = ShoulderPan ∨ name = WristRoll)
            then (- pos)%float else pos).
Proof.
  split; [|split; [apply mirrored_dom|]].
  - apply map_eq. intros name. rewrite !mirrored_lookup.
    destruct (positions !! name) as [pos|]; [|done]. simpl. f_equal.
    unfold mirror_value. destruct (bool_decide _); [apply float_opp_involutive|done].
  - intros name pos H. by rewrite mirrored_lookup, H.
Qed.

End controller_runs.

(* ===================================================================== *)
(** * Facts about the setup command                                       *)
(* ===================================================================== *)

Section setup_scan.
Import calib scan.

(** ** [isSOArm] *)

Lemma present_mark_ids (servos : list FoundServo) : ∀ (ids : gmap Z bool) (i : Z),
  present (mark_ids servos ids) i = true ↔ i ∈ ID <$> servos ∨ present ids i = true.
Proof.
  induction servos as [|s servos IH]; intros ids i; simpl.
  - split; [by right|]. intros [H|H]; [by apply elem_of_nil in H|done].
  - rewrite IH, elem_of_cons. unfold present.
    destruct (decide (i = ID s)) as [->|Hne].
    + rewrite lookup_insert_eq. simpl. naive_solver.
    + rewrite lookup_insert_ne by done. naive_solver.
Qed.

(** X17. [isSOArm] accepts exactly the scans that found servos 1 to 6, each
    once: six servos holding every ID from 1 to 6 leave no room for a
    seventh servo, a duplicate or a foreign ID. *)
Theorem isSOArm_iff_ids_one_to_six (servos : list FoundServo) :
  isSOArm servos = true ↔ ID <$> servos ≡ₚ [1; 2; 3; 4; 5; 6].
Proof.
  unfold isSOArm. split.
  - destruct (Nat.eqb_spec (length servos) 6) as [Hlen|Hlen]; [|done]. simpl negb.
    cbv iota. intros Hall. rewrite forallb_forall in Hall. symmetry.
    apply submseteq_length_Permutation; [|by rewrite length_fmap, Hlen].
    apply NoDup_submseteq.
    + apply (bool_decide_unpack (NoDup [1; 2; 3; 4; 5; 6])). by vm_compute.
    + intros i Hi. apply list_elem_of_In, Hall, present_mark_ids in Hi.
      destruct Hi as [Hi|Hi]; [done|]. unfold present in Hi. by rewrite lookup_empty in Hi.
  - intros Hp.
    assert (length servos = 6%nat) as ->
      by (rewrite <- (length_fmap ID), Hp; reflexivity).
    simpl negb. cbv iota. apply forallb_forall. intros i Hi.
    apply present_mark_ids. left. rewrite Hp. by apply list_elem_of_In.
Qed.

(** ** [findArms] *)

Lemma left_open_app (t t' : list BusEvent) : ∀ open,
  left_open (t ++ t') open = left_open t' (left_open t open).
Proof. induction t as [|[p|p|p] t IH]; intros open; simpl; by rewrite ?IH. Qed.

Lemma filter_other (p : string) (l : list string) :
  p ∉ l → filter (λ q, q ≠ p) l = l.
Proof.
  induction l as [|x l IH]; intros Hn; [done|].
  apply not_elem_of_cons in Hn as [Hne Hn].
  rewrite filter_cons_True by done. by rewrite IH.
Qed.

Lemma findArms_loop_inv (env : string → PortAnswer) (ports : list string) :
  ∀ arms trace,
    left_open trace [] = port <$> arms →
    Forall (λ a, isSOArm (servos a) = true ∧ Contains (port a) "Bluetooth" = false ∧
                 scan_result (env (port a)) = inl (servos a)) arms →
    (∀ p, Contains p "Bluetooth" = true → Opened p ∉ trace) →
    let '(arms', trace') := findArms_loop env ports arms trace in
    left_open trace' [] = port <$> arms' ∧
    Forall (λ a, isSOArm (servos a) = true ∧ Contains (port a) "Bluetooth" = false ∧
                 scan_result (env (port a)) = inl (servos a)) arms' ∧
    (∀ p, Contains p "Bluetooth" = true → Opened p ∉ trace').
Proof.
  induction ports as [|p ports IH]; intros arms trace Hopen Hgood Hblue; cbn [findArms_loop].
  - done.
  - destruct (Contains p "Bluetooth") eqn:Hbt; [by apply IH|].
    destruct (open_error (env p)); [by apply IH|].
    assert (∀ q, Contains q "Bluetooth" = true → ∀ tail,
              (∀ k, k ∈ tail → k = Opened p ∨ k = Scanned p ∨ k = Closed p) →
              Opened q ∉ trace ++ tail) as Hblue'.
    { intros q Hq tail Htail [Hin|Hin]%elem_of_app; [by apply (Hblue q)|].
      destruct (Htail _ Hin) as [[= ->]|[?|?]]; congruence. }
    assert ((∀ a, a ∈ arms → port a = p → isSOArm (servos a) = true ∧
                                 scan_result (env p) = inl (servos a))) as Hsame.
    { intros a Ha <-. rewrite Forall_forall in Hgood. by destruct (Hgood a Ha) as (? & _ & ?). }
    destruct (scan_result (env p)) as [found|e] eqn:Hscan.
    + destruct (isSOArm found) eqn:Hso.
      * apply IH.
        -- rewrite left_open_app, Hopen, fmap_app. reflexivity.
        -- apply Forall_app. split; [done|]. constructor; [|done]. simpl. by rewrite Hscan.
        -- intros q Hq. apply Hblue'; [done|]. intros k Hk. set_solver.
      * apply IH; [|done|].
        -- rewrite left_open_app, Hopen. simpl.
           rewrite filter_app, filter_other.
           ++ rewrite filter_cons_False by (intros H; by apply H). by rewrite app_nil_r.
           ++ intros (a & Hpa & Ha)%list_elem_of_fmap.
              destruct (Hsame a Ha (eq_sym Hpa)) as [Hso' Hsc]. congruence.
        -- intros q Hq. apply Hblue'; [done|]. intros k Hk. set_solver.
    + apply IH; [|done|].
      * rewrite left_open_app, Hopen. simpl.
        rewrite filter_app, filter_other.
        -- rewrite filter_cons_False by (intros H; by apply H). by rewrite app_nil_r.
        -- intros (a & Hpa & Ha)%list_elem_of_fmap.
           destruct (Hsame a Ha (eq_sym Hpa)) as [_ Hsc]. congruence.
      * intros q Hq. apply Hblue'; [done|]. intros k Hk. set_solver.
Qed.

(** X18. The buses [findArms] leaves open are exactly those of the arms it
    returns, in the same order: every other bus it opened has been closed.
    Each arm returned passed [isSOArm] with the servos stored for it, and a
    port whose name contains "Bluetooth" is never opened. *)
Theorem findArms_leaves_open_what_it_returns (ports : list string + string)
    (env : string → PortAnswer) :
  let '(arms, trace) := findArms ports env in
  left_open trace [] = port <$> arms ∧
  Forall (λ a, isSOArm (servos a) = true ∧ Contains (port a) "Bluetooth" = false ∧
               scan_result (env (port a)) = inl (servos a)) arms ∧
  (∀ p, Contains p "Bluetooth" = true → Opened p ∉ trace).
Proof.
  unfold findArms. destruct ports as [ports|e].
  - apply findArms_loop_inv; [done|done|]. intros p _ H. by apply elem_of_nil in H.
  - split; [done|split; [done|]]. intros p _ H. by apply elem_of_nil in H.
Qed.

(** ** [scanForArms] *)

Lemma identify_loop_inv (wiggled : armInfo → bool)
    (answer : armInfo → list string → Answer) (arms : list armInfo) :
  ∀ (seen : list string) (l f l' f' : string),
    NoDup (seen ++ (port <$> arms)) →
    (l = "" ∨ l ∈ seen) → (f = "" ∨ f ∈ seen) → (l ≠ "" → f ≠ "" → l ≠ f) →
    identify_loop wiggled answer arms l f = Some (l', f') →
    (l' = "" ∨ l' ∈ seen ++ (port <$> arms)) ∧
    (f' = "" ∨ f' ∈ seen ++ (port <$> arms)) ∧
    (l' ≠ "" → f' ≠ "" → l' ≠ f').
Proof.
  induction arms as [|arm arms IH]; intros seen l f l' f' Hnd Hl Hf Hne; cbn [identify_loop].
  - intros [= <- <-]. rewrite app_nil_r. done.
  - destruct (identifyArmWithWiggle _ _ _ _ _) as [role|]; [|done].
    set (l1 := if bool_decide (role = "leader") then port arm else l).
    set (f1 := if bool_decide (role = "leader") then f
               else if bool_decide (role = "follower") then port arm else f).
    assert (port arm ∉ seen) as Hfresh.
    { intros Hin. rewrite fmap_cons in Hnd. apply NoDup_app in Hnd as (_ & Hdis & _).
      apply (Hdis _ Hin). left. }
    assert ((l1 = "" ∨ l1 ∈ seen ++ [port arm]) ∧ (f1 = "" ∨ f1 ∈ seen ++ [port arm]) ∧
            (l1 ≠ "" → f1 ≠ "" → l1 ≠ f1)) as (Hl1 & Hf1 & Hne1).
    { unfold l1, f1. destruct (bool_decide (role = "leader")).
      - split; [right; set_solver|split; [set_solver|]].
        intros _ Hfn Heq. destruct Hf as [?|Hin]; [done|]. by rewrite <- Heq in Hin.
      - destruct (bool_decide (role = "follower")).
        + split; [set_solver|split; [right; set_solver|]].
          intros Hln _ Heq. destruct Hl as [?|Hin]; [done|]. by rewrite Heq in Hin.
        + split; [set_solver|split; [set_solver|done]]. }
    assert (seen ++ (port <$> arm :: arms) = (seen ++ [port arm]) ++ (port <$> arms)) as Happ
      by (by rewrite fmap_cons, <- app_assoc).
    destruct (bool_decide (l1 ≠ "") && bool_decide (f1 ≠ "")).
    + intros [= <- <-]. rewrite Happ. set_solver.
    + intros Hrest. rewrite Happ.
      apply (IH (seen ++ [port arm]) l1 f1 l' f'); try done. by rewrite <- Happ.
Qed.

(** X19. When [scanForArms] returns a configuration, both ports in it are
    non-empty ports of arms that were found, neither arm is calibrated yet,
    and, the ports of the arms found being distinct, the leader and the
    follower are two different arms. *)
Theorem scanForArms_names_two_arms (wiggled : armInfo → bool)
    (answer : armInfo → list string → Answer) (arms : list armInfo) (cfg : Config) :
  NoDup (port <$> arms) →
  scanForArms wiggled answer arms = Done cfg →
  Port (Leader cfg) ≠ "" ∧ Port (Follower cfg) ≠ "" ∧
  Port (Leader cfg) ∈ port <$> arms ∧ Port (Follower cfg) ∈ port <$> arms ∧
  Port (Leader cfg) ≠ Port (Follower cfg) ∧
  IsCalibrated (Leader cfg) = false ∧ IsCalibrated (Follower cfg) = false.
Proof.
  intros Hnd. unfold scanForArms. destruct (length arms =? 0)%nat; [done|].
  destruct (identify_loop wiggled answer arms "" "") as [[l f]|] eqn:Hloop; [|done].
  destruct (identify_loop_inv wiggled answer arms [] "" "" l f) as (Hl & Hf & Hne);
    [done|by left|by left|done|done|].
  destruct (decide (l = "")) as [->|Hln]; [done|].
  destruct (decide (f = "")) as [->|Hfn].
  { rewrite bool_decide_eq_false_2 by done. done. }
  rewrite !bool_decide_eq_false_2 by done. intros [= <-]. cbn.
  split; [done|split; [done|split; [|split; [|split; [by apply Hne|done]]]]].
  - by destruct Hl.
  - by destruct Hf.
Qed.

Lemma scanForArms_names_two_arms_witness :
  let arms := [ {| port := "/dev/ttyACM0"; servos := [] |};
                {| port := "/dev/ttyACM1"; servos := [] |} ] in
  let answer := λ (arm : armInfo) (opts : list string),
                  Chose (if bool_decide (port arm = "/dev/ttyACM0")
                         then "follower" else "leader") in
  ∃ cfg, scanForArms (λ _, true) answer arms = Done cfg ∧
         Port (Leader cfg) = "/dev/ttyACM1" ∧ Port (Leader cfg) ≠ Port (Follower cfg).
Proof.
  intros arms answer.
  eexists. split; [reflexivity|]. split; [reflexivity|].
  apply (scanForArms_names_two_arms (λ _, true) answer arms).
  - apply (bool_decide_unpack (NoDup (port <$> arms))). by vm_compute.
  - reflexivity.
Defined.

(** ** From [setup] to [teleoperate] *)

(** X20. A configuration that [setup] completes with passes the checks
    [teleoperate] makes before it creates the controller: both ports are
    set, both arms are calibrated, and the ports are those found by the
    scan. *)
Theorem setup_result_passes_teleoperate_checks (wiggled : armInfo → bool)
    (answer : armInfo → list string → Answer) (arms : list armInfo)
    (leader follower : Session) (cfg : Config) :
  Execute wiggled answer arms leader follower = Done cfg →
  teleoperate_checks cfg = None ∧
  ∃ scanned, scanForArms wiggled answer arms = Done scanned ∧
             Port (Leader cfg) = Port (Leader scanned) ∧
             Port (Follower cfg) = Port (Follower scanned).
Proof.
  unfold Execute. destruct (scanForArms wiggled answer arms) as [scanned|code] eqn:Hscan;
    [|done].
  intros [= <-]. split; [|by exists scanned].
  unfold scanForArms in Hscan. destruct (length arms =? 0)%nat; [done|].
  destruct (identify_loop wiggled answer arms "" "") as [[l f]|]; [|done].
  destruct (bool_decide (l = "")) eqn:El; [done|].
  destruct (bool_decide (f = "")) eqn:Ef; [done|].
  injection Hscan as <-. unfold teleoperate_checks. cbn [Leader Follower].
  assert (∀ a s, Port (calibrateArm a (disable_order s) (first_poll s) (messages s))
                 = Port a) as HP by done.
  rewrite !HP. cbn [Port]. rewrite El, Ef. cbn [orb].
  assert (∀ a s, IsCalibrated (calibrateArm a (disable_order s) (first_poll s) (messages s))
                 = true) as Hcal.
  { intros a s. unfold IsCalibrated. apply Nat.ltb_lt.
    destruct (calibrateArm_lookup a (disable_order s) (first_poll s) (messages s)
                0 robot.ShoulderPan eq_refl) as (mn & mx & Hl & _).
    assert (size (Calibration (calibrateArm a (disable_order s) (first_poll s) (messages s)))
            ≠ 0%nat); [|lia].
    intros H0. apply map_size_empty_iff in H0. by rewrite H0 in Hl. }
  by rewrite !Hcal.
Qed.

Lemma setup_result_passes_teleoperate_checks_witness :
  let arms := [ {| port := "/dev/ttyACM0"; servos := [] |};
                {| port := "/dev/ttyACM1"; servos := [] |} ] in
  let answer := λ (arm : armInfo) (opts : list string),
                  Chose (if bool_decide (port arm = "/dev/ttyACM0")
                         then "leader" else "follower") in
  let s := {| disable_order := [1; 2; 3; 4; 5; 6];
              first_poll := λ _, {| setup.pos := 2048; setup.err := None |};
              messages := [setup.KeyMsg "enter"] |} in
  ∃ cfg, Execute (λ _, true) answer arms s s = Done cfg ∧ teleoperate_checks cfg = None.
Proof.
  intros arms answer s. eexists. split; [reflexivity|].
  eapply (setup_result_passes_teleoperate_checks (λ _, true) answer arms s s).
  reflexivity.
Defined.

End setup_scan.

(* ===================================================================== *)
(** * Facts about the terminal interface                                  *)
(* ===================================================================== *)

Section terminal.
Import robot calib tui.

(** ** The log box *)

Lemma addLog_last (logs : list string) (msg : string) :
  addLog logs msg = drop (length (logs ++ [msg]) - 5) (logs ++ [msg]).
Proof.
  unfold addLog, maxLogs. cbv zeta.
  destruct (Nat.ltb_spec 5 (length (logs ++ [msg]))) as [H|H]; [done|].
  replace (length (logs ++ [msg]) - 5)%nat with 0%nat by lia. done.
Qed.

Lemma after_logs (msgs : list Msg) : ∀ m : teleopModel,
  logs (after m msgs)
  = foldl addLog (logs m)
      (omap (λ msg, match msg with logMsg line => Some line | _ => None end) msgs).
Proof.
  unfold after. induction msgs as [|msg msgs IH]; intros m; [done|].
  cbn [foldl]. rewrite IH.
  destruct msg as [W H|key|state entries|line|]; cbn [Update]; try done.
  - by destruct (bool_decide _).
  - destruct (teleop.Positions state); [|done]. by destruct (hasMovement _ _).
Qed.

Lemma foldl_addLog (lines : list string) : ∀ logs : list string,
  (length logs ≤ 5)%nat →
  foldl addLog logs lines = drop (length (logs ++ lines) - 5) (logs ++ lines).
Proof.
  induction lines as [|line lines IH]; intros logs Hlen; cbn [foldl].
  - rewrite app_nil_r. by replace (length logs - 5)%nat with 0%nat by lia.
  - rewrite IH.
    + rewrite addLog_last.
      replace (logs ++ line :: lines) with ((logs ++ [line]) ++ lines)
        by (by rewrite <- app_assoc).
      set (l := logs ++ [line]).
      destruct (decide (length l ≤ 5)%nat) as [Hle|Hgt].
      * by replace (length l - 5)%nat with 0%nat by lia.
      * replace (length (l ++ lines) - 5)%nat
          with ((length l - 5) + (length (drop (length l - 5) l ++ lines) - 5))%nat
          by (rewrite !length_app, length_drop; lia).
        rewrite <- drop_drop. by rewrite (drop_app_le l lines) by lia.
    + rewrite addLog_last, length_drop, length_app. simpl. lia.
Qed.

(** X21. The log box keeps the five most recent log lines, in the order they
    arrived: after any sequence of messages the model holds the last five
    lines logged (all of them when there were fewer), and messages of the
    other kinds leave the box alone. *)
Theorem log_box_keeps_the_last_five (msgs : list Msg) :
  let lines := omap (λ msg, match msg with logMsg line => Some line | _ => None end) msgs in
  logs (after initialTeleopModel msgs) = drop (length lines - 5) lines ∧
  (length (logs (after initialTeleopModel msgs)) ≤ 5)%nat.
Proof.
  intros lines. rewrite after_logs. fold lines. cbn [initialTeleopModel logs].
  rewrite foldl_addLog by (simpl; lia). rewrite app_nil_l.
  split; [done|]. rewrite length_drop. lia.
Qed.

(** ** Movement *)

Lemma SFcompare_refl (x : spec_float) : x ≠ S754_nan → SFcompare x x = Some Eq.
Proof.
  destruct x as [s|s| |s m e]; intros H; try done; destruct s; simpl; try done;
    by rewrite Z.compare_refl, Pos.compare_cont_refl.
Qed.

Lemma nan_differs_from_all (x y : float) :
  (x =? x)%float = false → (x =? y)%float = false.
Proof.
  rewrite !FloatAxioms.eqb_spec. unfold SFeqb. intros H.
  destruct (Prim2SF x) as [s|s| |s m e] eqn:E; try done;
    by rewrite SFcompare_refl in H.
Qed.

Lemma moved_iff (last : gmap string float) (e : MotorName * float) :
  moved last e = true ↔
  match last !! e.1 with
  | Some lastPos => (e.2 =? lastPos)%float = false
  | None => True
  end.
Proof.
  unfold moved. destruct (last !! e.1) as [lastPos|]; [|done].
  by rewrite negb_true_iff.
Qed.

(** X22. [hasMovement] finds movement on the first reading; afterwards it finds
    it exactly when some motor of the new positions is absent from the last
    drawn ones or compares different, whatever the order in which the
    positions are visited.  A motor that only the last positions hold
    counts for nothing, and a NaN position always counts as movement. *)
Theorem hasMovement_iff_some_motor_differs (last positions : gmap string float)
    (entries : list (MotorName * float)) :
  ranges_over positions entries →
  hasMovement None entries = true ∧
  (hasMovement (Some last) entries = true ↔ differs_from last positions) ∧
  (∀ name pos, positions !! name = Some pos → (pos =? pos)%float = false →
     hasMovement (Some last) entries = true).
Proof.
  intros Hr.
  assert (hasMovement (Some last) entries = true ↔ differs_from last positions) as Hiff.
  { unfold hasMovement, differs_from. rewrite existsb_exists. split.
    - intros ([name pos] & Hin & Hm). apply list_elem_of_In in Hin.
      apply (ranges_over_elem positions entries) in Hin; [|done].
      exists name, pos. split; [done|]. by apply (moved_iff last (name, pos)).
    - intros (name & pos & Hp & Hm). exists (name, pos). split.
      + apply list_elem_of_In. by apply (ranges_over_elem positions entries).
      + by apply (moved_iff last (name, pos)). }
  split; [done|split; [exact Hiff|]].
  intros name pos Hp Hnan. apply Hiff. exists name, pos. split; [done|].
  destruct (last !! name) as [lastPos|]; [|done]. by apply nan_differs_from_all.
Qed.

Lemma hasMovement_iff_some_motor_differs_witness :
  let last : gmap string float := {[ ShoulderPan := 10%float; Gripper := 3%float ]} in
  let positions : gmap string float := {[ ShoulderPan := 10%float ]} in
  hasMovement (Some last) (map_to_list positions) = false.
Proof.
  intros last positions.
  destruct (hasMovement_iff_some_motor_differs last positions (map_to_list positions))
    as (_ & Hiff & _).
  - unfold ranges_over. reflexivity.
  - destruct (hasMovement (Some last) (map_to_list positions)) eqn:E; [|done].
    exfalso. destruct (proj1 Hiff eq_refl) as (name & pos & Hp & Hm).
    unfold positions in Hp. apply lookup_singleton_Some in Hp as [<- <-].
    by vm_compute in Hm.
Defined.

(** ** The size of the chart *)

(** X23. [chartSize] never returns less than 40 columns by 10 rows: it is 80 by
    20 while a dimension of the terminal is 0 (its size is unknown); for a
    terminal of positive size it is the width less 4 and the height less
    13, raised to 40 and to 10 where they fall below. *)
Theorem chartSize_at_least_40_by_10 (width height : Z) :
  is_int width → is_int height →
  40 ≤ (chartSize width height).1 ∧ 10 ≤ (chartSize width height).2 ∧
  (width = 0 ∨ height = 0 → chartSize width height = (80, 20)) ∧
  (0 < width → 0 < height →
   chartSize width height = (Z.max 40 (width - 4), Z.max 10 (height - 13))).
Proof.
  intros Hw Hh. unfold chartSize, borderSize, headerHeight, legendHeight, footerHeight.
  destruct (Z.eqb_spec width 0) as [Hw0|Hw0]; cbn [orb].
  { cbn [fst snd]. repeat split; try lia. }
  destruct (Z.eqb_spec height 0) as [Hh0|Hh0]; cbn [orb].
  { cbn [fst snd]. repeat split; try lia. }
  cbv zeta. cbn [fst snd].
  set (w := wrap (wrap (width - 2) - 2)).
  set (h := wrap (wrap (wrap (wrap (height - 2) - 2) - 7) - 2)).
  split; [destruct (Z.ltb_spec w 40); lia|].
  split; [destruct (Z.ltb_spec h 10); lia|].
  split; [lia|]. intros Hwp Hhp.
  assert (w = width - 4) as ->.
  { unfold w. rewrite (wrap_int (width - 2)), wrap_int;
      unfold is_int, int_min, int_max in *; lia. }
  assert (h = height - 13) as ->.
  { unfold h. rewrite (wrap_int (height - 2)), (wrap_int (height - 2 - 2)),
      (wrap_int (height - 2 - 2 - 7)), wrap_int;
      unfold is_int, int_min, int_max in *; lia. }
  destruct (Z.ltb_spec (width - 4) 40), (Z.ltb_spec (height - 13) 10); f_equal; lia.
Qed.

Lemma chartSize_at_least_40_by_10_witness :
  chartSize 120 30 = (116, 17) ∧ chartSize 30 0 = (80, 20) ∧ (chartSize 30 12).1 = 40.
Proof.
  destruct (chartSize_at_least_40_by_10 120 30) as (_ & _ & _ & H).
  - unfold is_int, int_min, int_max. lia.
  - unfold is_int, int_min, int_max. lia.
  - split; [apply H; lia|]. split; reflexivity.
Defined.

(** ** What reaches the chart *)

Lemma frames_differ_snoc (frames : list (gmap string float)) (p : gmap string float) :
  frames_differ (frames ++ [p]) ↔
  frames_differ frames ∧
  match last frames with Some q => differs_from q p | None => True end.
Proof.
  induction frames as [|q [|r frames] IH].
  - simpl. tauto.
  - simpl. tauto.
  - change (frames_differ ((q :: r :: frames) ++ [p]))
      with (differs_from q r ∧ frames_differ ((r :: frames) ++ [p])).
    rewrite IH.
    change (frames_differ (q :: r :: frames))
      with (differs_from q r ∧ frames_differ (r :: frames)).
    change (last (q :: r :: frames)) with (last (r :: frames)). tauto.
Qed.

Lemma Update_keeps_chart_invariant (m : teleopModel) (msg : Msg) :
  visits_its_positions msg →
  lastPositions m = last (chart m) → frames_differ (chart m) →
  lastPositions (Update m msg).1 = last (chart (Update m msg).1) ∧
  frames_differ (chart (Update m msg).1).
Proof.
  intros Hv Hlast Hdiff.
  destruct msg as [W H|key|state entries|line|]; cbn [Update]; try done.
  - by destruct (bool_decide _).
  - simpl in Hv. destruct (teleop.Positions state) as [positions|]; [|done].
    destruct (hasMovement (lastPositions m) entries) eqn:Hmove; [|done].
    cbn [fst lastPositions chart]. rewrite last_snoc. split; [done|].
    apply frames_differ_snoc. split; [done|]. rewrite <- Hlast.
    destruct (lastPositions m) as [lastp|]; [|done].
    unfold hasMovement in Hmove. rewrite existsb_exists in Hmove.
    destruct Hmove as ([name pos] & Hin & Hm). apply list_elem_of_In in Hin.
    apply (ranges_over_elem positions entries) in Hin; [|done].
    exists name, pos. split; [done|]. by apply (moved_iff lastp (name, pos)).
Qed.

(** X24. The chart only ever receives movement: after any sequence of messages
    whose state messages visit their own positions, every frame pushed into
    the chart differs from the frame before in some motor, the model's
    last positions are the latest frame, and a state that carries an error
    or repeats the last frame adds nothing. *)
Theorem chart_receives_only_movement (msgs : list Msg) :
  Forall visits_its_positions msgs →
  let m := after initialTeleopModel msgs in
  lastPositions m = last (chart m) ∧ frames_differ (chart m) ∧
  (∀ state entries,
     visits_its_positions (stateMsg state entries) →
     match teleop.Positions state, lastPositions m with
     | None, _ => chart (Update m (stateMsg state entries)).1 = chart m
     | Some positions, Some lastp =>
         ¬ differs_from lastp positions →
         chart (Update m (stateMsg state entries)).1 = chart m
     | Some positions, None =>
         chart (Update m (stateMsg state entries)).1 = chart m ++ [positions]
     end).
Proof.
  intros Hall m.
  assert (lastPositions m = last (chart m) ∧ frames_differ (chart m)) as [Hl Hd].
  { subst m. unfold after.
    assert (lastPositions initialTeleopModel = last (chart initialTeleopModel) ∧
            frames_differ (chart initialTeleopModel)) as Hinit by done.
    revert Hinit. generalize initialTeleopModel.
    induction Hall as [|msg msgs Hv Hall IH]; intros m0 [H1 H2]; [done|].
    cbn [foldl]. apply IH. by apply Update_keeps_chart_invariant. }
  split; [exact Hl|split; [exact Hd|]].
  intros state entries Hv. cbn [Update]. simpl in Hv.
  destruct (teleop.Positions state) as [positions|]; [|done].
  destruct (lastPositions m) as [lastp|] eqn:El.
  - intros Hnd. destruct (hasMovement (Some lastp) entries) eqn:Hmove; [|done].
    exfalso. apply Hnd.
    unfold hasMovement in Hmove. rewrite existsb_exists in Hmove.
    destruct Hmove as ([name pos] & Hin & Hm). apply list_elem_of_In in Hin.
    apply (ranges_over_elem positions entries) in Hin; [|done].
    exists name, pos. split; [done|]. by apply (moved_iff lastp (name, pos)).
  - done.
Qed.

Lemma chart_receives_only_movement_witness :
  let p : gmap string float := {[ ShoulderPan := 10%float ]} in
  let ok := stateMsg {| teleop.Positions := Some p; teleop.Timestamp := 0;
                        teleop.Error := None |} (map_to_list p) in
  let failed := stateMsg {| teleop.Positions := None; teleop.Timestamp := 1;
                            teleop.Error := Some "read positions: timeout" |} [] in
  frames_differ (chart (after initialTeleopModel [ok; failed; ok; logMsg "x"; ok])) ∧
  chart (after initialTeleopModel [ok; failed; ok; logMsg "x"; ok]) = [p].
Proof.
  intros p ok failed.
  destruct (chart_receives_only_movement [ok; failed; ok; logMsg "x"; ok]) as (_ & H & _).
  - repeat (apply Forall_cons; split; [hnf; first [exact I|reflexivity]|]).
    exact (List.Forall_nil _).
  - split; [exact H|]. by vm_compute.
Defined.

End terminal.
